(** * Power-iteration eigenvalue solvers over a dense matrix with views

    A shallow embedding of [Algebra/power_iteration_method.h] and of the
    [Matrix] class template it is built on.

    - [int] is modelled by [Z].  The loop counters of the solvers stay
      within [0 .. max 1 (max_iters + 1)], so no wrap-around is involved
      for [max_iters] below [INT_MAX].  The size [n * m] of a new array is
      the one product of two [int]; the statements on free dimensions
      assume that it is an [int] ([in_int]).
    - Exceptions are values of [exn]; a computation that may throw returns
      [Res A].  [Undefined] stands for an access outside the backing array
      (undefined behaviour in C++), [NoFuel] for a loop model that was not
      given enough steps (shown unreachable for the solvers).
    - The bounds check of [Matrix::At(i, j)] is compiled in (the default
      build, [DEBUG] not defined).
    - The scalar type [T] of the templates is a type-class parameter, so
      every statement holds for every arithmetic; [double] is instantiated
      with the kernel's binary64 floats.
    - [EuclideanNorm], [MinimalSquareProblem] and [SolveQuadraticEquation]
      live in headers that are not part of the sources; they are parameters
      of the development.
    - Not modelled: [Random] and [RandomInts] (the random engine),
      [operator<<] (the state of the stream), and [operator*=] on two
      matrices, which does not compile once it is instantiated (it
      dereferences the [void] result of [CopyFrom]). *)

From Stdlib Require Import ZArith Lia String Floats.
From stdpp Require Import base list gmap strings pretty.

Set Default Proof Using "Type".
Open Scope Z_scope.

(** ** Exceptions and results *)

Inductive exn : Type :=
| invalid_argument (what : string)
| runtime_error (what : string)
| out_of_range (what : string)
| bad_array_new_length.

Inductive Res (A : Type) : Type :=
| Ok (a : A)
| Throw (e : exn)
| Undefined
| NoFuel.
Arguments Ok {A} a.
Arguments Throw {A} e.
Arguments Undefined {A}.
Arguments NoFuel {A}.

Definition bind {A B : Type} (x : Res A) (f : A -> Res B) : Res B :=
  match x with
  | Ok a => f a
  | Throw e => Throw e
  | Undefined => Undefined
  | NoFuel => NoFuel
  end.

Declare Scope res_scope.
Delimit Scope res_scope with res.
Notation "x <- c1 ;; c2" := (bind c1 (fun x => c2))
  (at level 100, c1 at next level, right associativity) : res_scope.
Notation "e1 ;; e2" := (bind e1 (fun _ => e2))
  (at level 100, right associativity) : res_scope.
Open Scope res_scope.

(** ** Counted loops

    [for_ n body s] is [for (int i = 0; i < n; i++) body(i)] over a loop
    state [s]; an exception leaves the loop at once. *)

Fixpoint for_range {S : Type} (lo : Z) (n : nat) (body : Z -> S -> Res S) (s : S) : Res S :=
  match n with
  | O => Ok s
  | S k => s' <- body lo s ;; for_range (lo + 1) k body s'
  end.

Definition for_ {S : Type} (n : Z) (body : Z -> S -> Res S) (s : S) : Res S :=
  for_range 0 (Z.to_nat n) body s.

(** A loop whose body may [return]: [Some r] leaves the function with [r]. *)
Fixpoint for_range_ret {A : Type} (lo : Z) (n : nat) (body : Z -> Res (option A)) : Res (option A) :=
  match n with
  | O => Ok None
  | S k => r <- body lo ;;
           match r with
           | Some x => Ok (Some x)
           | None => for_range_ret (lo + 1) k body
           end
  end.

Definition for_ret {A : Type} (n : Z) (body : Z -> Res (option A)) : Res (option A) :=
  for_range_ret 0 (Z.to_nat n) body.

(** ** Scalars

    The operations the templates use on their scalar type. *)

Class Scalar (T : Type) : Type := {
  szero : T;                 (* T() *)
  sof_int : Z -> T;          (* conversion from an int literal *)
  sadd : T -> T -> T;
  ssub : T -> T -> T;
  smul : T -> T -> T;
  sdiv : T -> T -> T;
  smul_int : T -> Z -> T     (* x *= b for an int b *)
}.

(** The real scalar ([double]): [rlt x y] is [x < y]; [x > y] is [rlt y x]. *)
Class RealScalar (R : Type) : Type := {
  real_scalar :: Scalar R;
  rneg : R -> R;
  rabs : R -> R;             (* std::abs *)
  rsqrt : R -> R;            (* std::sqrt *)
  rlt : R -> R -> bool;
  rne : R -> R -> bool;      (* != *)
  r1e18 : R;                 (* the literal 1e18 *)
  r0_1 : R                   (* the literal 0.1 *)
}.

Definition rgt {R : Type} `{RealScalar R} (x y : R) : bool := rlt y x.

(** [std::complex<T>] over the real scalar. *)
Class ComplexScalar (R C : Type) : Type := {
  complex_scalar :: Scalar C;
  cof_real : R -> C;         (* std::complex<T>(x) *)
  creal : C -> R;            (* .real() *)
  cabs : C -> R;             (* std::abs *)
  cnorm : C -> R             (* std::norm *)
}.

(** The static member [Matrix<T>::eps], read through [GetEps()]. *)
Class MatrixEps (T : Type) : Type := { GetEps : T }.

(** ** The matrix record

    The fields of [class Matrix].  [data_] is the shared array in [View]
    (a location of the store) and the array's contents in the value-level
    model used for the solvers. *)

Record Matrix (D : Type) : Type := mkMatrix {
  data_ : D;
  data_rows_ : Z;
  data_cols_ : Z;
  cols_ : Z;
  rows_ : Z;
  offset_i_ : Z;
  offset_j_ : Z
}.
Arguments mkMatrix {D}.
Arguments data_ {D}.
Arguments data_rows_ {D}.
Arguments data_cols_ {D}.
Arguments cols_ {D}.
Arguments rows_ {D}.
Arguments offset_i_ {D}.
Arguments offset_j_ {D}.

Definition with_data {D E : Type} (m : Matrix D) (d : E) : Matrix E :=
  mkMatrix d (data_rows_ m) (data_cols_ m) (cols_ m) (rows_ m) (offset_i_ m) (offset_j_ m).

(** The values of an [int] (32 bits). *)
Definition INT_MIN : Z := - 2 ^ 31.
Definition INT_MAX : Z := 2 ^ 31 - 1.
Definition in_int (z : Z) : Prop := INT_MIN <= z <= INT_MAX.

Section Geometry.
Context {D : Type}.
Implicit Types m a b : Matrix D.

Definition Rows m : Z := rows_ m.
Definition Cols m : Z := cols_ m.
Definition Size m : Z * Z := (rows_ m, cols_ m).
Definition IsSquare m : bool := Cols m =? Rows m.
Definition IsRowVector m : bool := Rows m =? 1.
Definition IsColVector m : bool := Cols m =? 1.
Definition IsVector m : bool := IsColVector m || IsRowVector m.
Definition IsSubMatrix m : bool :=
  negb ((cols_ m =? data_cols_ m) && (rows_ m =? data_rows_ m)
        && (offset_i_ m =? 0) && (offset_j_ m =? 0)).

Definition PairToString (p : Z * Z) : string :=
  "(" +:+ pretty (fst p) +:+ "; " +:+ pretty (snd p) +:+ ")".

Definition size_eqb (p q : Z * Z) : bool :=
  (fst p =? fst q) && (snd p =? snd q).

(** [At(i, j)]: the bounds check, then the position in the backing array. *)
Definition At_index m (i j : Z) : Res Z :=
  if (i <? 0) || (j <? 0) || (i >=? rows_ m) || (j >=? cols_ m) then
    Throw (out_of_range ("Indexes (" +:+ pretty i +:+ "; " +:+ pretty j
                         +:+ ") out of matrix size " +:+ PairToString (Size m)))
  else Ok ((i + offset_i_ m) * data_cols_ m + offset_j_ m + j).

(** [At(i)], for vectors only. *)
Definition At1_index m (i : Z) : Res Z :=
  if IsRowVector m then At_index m 0 i
  else if IsColVector m then At_index m i 0
  else Throw (runtime_error
                ("trying to get value by single index in matrix of size "
                 +:+ PairToString (Size m))).

(** [SubMatrix(i, j, n, m)]: a view on the same array.  (The array of the
    default-constructed [a] is released when [a.data_] is re-bound.) *)
Definition SubMatrix (this : Matrix D) (i j n m : Z) : Matrix D :=
  let n := if n =? -1 then Rows this - i else n in
  let m := if m =? -1 then Cols this - j else m in
  {| data_ := data_ this;
     rows_ := n;
     cols_ := m;
     offset_i_ := offset_i_ this + i;
     offset_j_ := offset_j_ this + j;
     data_cols_ := data_cols_ this;
     data_rows_ := data_rows_ this |}.

Definition Row (this : Matrix D) (i : Z) : Matrix D :=
  SubMatrix this i 0 1 (Cols this).

Definition Col (this : Matrix D) (j : Z) : Matrix D :=
  SubMatrix this 0 j (Rows this) 1.

(** The invariant of the data model, for a backing array of [len] cells. *)
Definition wf_geom (len : nat) m : Prop :=
  0 <= offset_i_ m /\ 0 <= offset_j_ m /\ 0 <= rows_ m /\ 0 <= cols_ m /\
  offset_i_ m + rows_ m <= data_rows_ m /\
  offset_j_ m + cols_ m <= data_cols_ m /\
  Z.of_nat len = data_rows_ m * data_cols_ m.

Definition AssertEqualSizes {E : Type} (a : Matrix D) (b : Matrix E) : Res unit :=
  if size_eqb (rows_ a, cols_ a) (rows_ b, cols_ b) then Ok tt
  else Throw (invalid_argument ("Wrong matrix sizes: " +:+ PairToString (rows_ a, cols_ a)
                                +:+ " " +:+ PairToString (rows_ b, cols_ b))).
End Geometry.

(** Reading and writing a cell of an array. *)
Definition load {T : Type} (buf : list T) (k : Z) : Res T :=
  if k <? 0 then Undefined
  else match buf !! Z.to_nat k with
       | Some v => Ok v
       | None => Undefined
       end.

Definition store {T : Type} (buf : list T) (k : Z) (v : T) : Res (list T) :=
  if k <? 0 then Undefined
  else if (Z.to_nat k <? length buf)%nat then Ok (<[Z.to_nat k := v]> buf)
  else Undefined.

(** ** Matrices as values

    The operators return owning instances (a copy is deep), and the solvers
    create no view, so there every matrix object is taken together with the
    contents of its own array: [data_ : list T].  A reference parameter that
    is written ([y]) is threaded through the results. *)

Abbreviation Mat T := (Matrix (list T)).

Section Value.
Context {T : Type} `{Scalar T}.
Local Abbreviation Mat := (Mat T).
Implicit Types this a b lhs rhs other : Mat.

Definition wf (m : Mat) : Prop := wf_geom (length (data_ m)) m.

(** Reading [m.At(i, j)], and the assignment [m.At(i, j) = v]. *)
Definition At (m : Mat) (i j : Z) : Res T :=
  k <- At_index m i j ;; load (data_ m) k.

Definition set_At (m : Mat) (i j : Z) (v : T) : Res Mat :=
  k <- At_index m i j ;;
  buf <- store (data_ m) k v ;;
  Ok (with_data m buf).

(** [m.At(i)] and [m(i)], for vectors. *)
Definition At1 (m : Mat) (i : Z) : Res T :=
  k <- At1_index m i ;; load (data_ m) k.

Definition set_At1 (m : Mat) (i : Z) (v : T) : Res Mat :=
  k <- At1_index m i ;;
  buf <- store (data_ m) k v ;;
  Ok (with_data m buf).

(** [Matrix(n, m, value)]: a new array of [n * m] cells, every cell then
    written through [(i, j)].  (The cells start as [T()]; none is read
    before it is written.)  The product [n * m] of the source is a product
    of two [int]: it is the product taken here as long as that lies in
    [in_int]; beyond, the multiplication overflows in the source.  The
    statements on dimensions that are not those of an existing matrix
    assume [in_int (n * m)]. *)
Definition Matrix_fill (n m : Z) (value : T) : Res Mat :=
  if n * m <? 0 then Throw bad_array_new_length
  else
    let this := {| data_ := replicate (Z.to_nat (n * m)) szero;
                   offset_i_ := 0; offset_j_ := 0;
                   data_rows_ := n; rows_ := n;
                   data_cols_ := m; cols_ := m |} in
    for_ (Rows this) (fun i this =>
      for_ (Cols this) (fun j this => set_At this i j value) this) this.

(** [Matrix(n, m)], [Matrix()], [Matrix(n)]. *)
Definition Matrix_nm (n m : Z) : Res Mat := Matrix_fill n m szero.
Definition Matrix_default : Res Mat := Matrix_nm 0 0.
Definition Matrix_n (n : Z) : Res Mat := Matrix_nm n n.

Definition Zeros (n m : Z) : Res Mat := Matrix_nm n m.

Definition Ones (n : Z) : Res Mat :=
  a <- Matrix_n n ;;
  for_ n (fun i a => set_At a i i (sof_int 1)) a.

(** [this->Assign(b)]: element-wise, into the array of [this]. *)
Definition Assign this b : Res Mat :=
  AssertEqualSizes this b ;;
  for_ (Rows this) (fun i this =>
    for_ (Cols this) (fun j this =>
      v <- At b i j ;; set_At this i j v) this) this.

(** [this->CopyFrom(other)]: [MakeRef] binds [this] to a new matrix of the
    size of [other], [Assign] fills it.  The copy constructor and the copy
    assignment are this function. *)
Definition CopyFrom other : Res Mat :=
  this <- Matrix_nm (Rows other) (Cols other) ;;
  Assign this other.

Definition Transposed this : Res Mat :=
  a <- Matrix_nm (Cols this) (Rows this) ;;
  for_ (Cols this) (fun i a =>
    for_ (Rows this) (fun j a =>
      v <- At this j i ;; set_At a i j v) a) a.

(** [operator+=] and [operator-=], for a target that shares no cell with
    its operand, which here is a value of its own: this is the case in
    [operator+] and [operator-], whose target is a new copy.  The
    operators on objects that may share an array are
    [ViewOps.plus_assign] and [ViewOps.minus_assign]. *)
Definition plus_assign this a : Res Mat :=
  AssertEqualSizes this a ;;
  for_ (Rows a) (fun i this =>
    for_ (Cols a) (fun j this =>
      x <- At a i j ;;
      y <- At this i j ;;
      set_At this i j (sadd y x)) this) this.

Definition minus_assign this a : Res Mat :=
  AssertEqualSizes this a ;;
  for_ (Rows a) (fun i this =>
    for_ (Cols a) (fun j this =>
      x <- At a i j ;;
      y <- At this i j ;;
      set_At this i j (ssub y x)) this) this.

(** [operator*=(U b)] and [operator/=(U b)]: [f] is the scalar's
    [x *= b], respectively [x /= b]. *)
Definition scalar_assign (f : T -> T) this : Res Mat :=
  for_ (Rows this) (fun i this =>
    for_ (Cols this) (fun j this =>
      y <- At this i j ;;
      set_At this i j (f y)) this) this.

(** [operator+], [operator-]. *)
Definition op_plus a b : Res Mat :=
  AssertEqualSizes a b ;;
  res <- CopyFrom a ;;
  plus_assign res b.

Definition op_minus a b : Res Mat :=
  AssertEqualSizes a b ;;
  res <- CopyFrom a ;;
  minus_assign res b.

(** [operator*] on two matrices: loops [i], [k], [j]. *)
Definition op_mul lhs rhs : Res Mat :=
  if negb (Cols lhs =? Rows rhs) then
    Throw (runtime_error ("Bad matrix sizes " +:+ PairToString (Size lhs) +:+ " "
                          +:+ PairToString (Size rhs)))
  else
    result <- Matrix_nm (Rows lhs) (Cols rhs) ;;
    for_ (Rows lhs) (fun i result =>
      for_ (Cols lhs) (fun k result =>
        for_ (Cols rhs) (fun j result =>
          x <- At lhs i k ;;
          y <- At rhs k j ;;
          r <- At result i j ;;
          set_At result i j (sadd r (smul x y))) result) result) result.

(** [lhs * rhs] and [lhs / rhs] for a scalar [rhs] of type [T];
    [rhs * lhs] is [lhs * rhs]. *)
Definition op_mul_scalar lhs (rhs : T) : Res Mat :=
  result <- CopyFrom lhs ;;
  scalar_assign (fun x => smul x rhs) result.

Definition op_div_scalar lhs (rhs : T) : Res Mat :=
  result <- CopyFrom lhs ;;
  scalar_assign (fun x => sdiv x rhs) result.

Definition scalar_op_mul (b : T) a : Res Mat := op_mul_scalar a b.

(** The same for an [int] scalar. *)
Definition op_mul_int lhs (rhs : Z) : Res Mat :=
  result <- CopyFrom lhs ;;
  scalar_assign (fun x => smul_int x rhs) result.

Definition int_op_mul (b : Z) a : Res Mat := op_mul_int a b.

Definition ScalarProduct this b : Res T :=
  if negb (IsVector this) || negb (IsVector b) then
    Throw (runtime_error ("Matrices of sizes " +:+ PairToString (Size this) +:+
                          " and " +:+ PairToString (Size b) +:+ " are not both vectors"))
  else
    AssertEqualSizes this b ;;
    for_ (Z.max (Cols this) (Rows this)) (fun i ans =>
      x <- At1 this i ;;
      y <- At1 b i ;;
      Ok (sadd ans (smul x y))) szero.
End Value.

(** [operator!=] and [operator==], for a real scalar. *)
Section Compare.
Context {R : Type} {RS : RealScalar R} {ME : MatrixEps R}.

Definition op_ne (a b : Mat R) : Res bool :=
  AssertEqualSizes a b ;;
  r <- for_ret (Rows a) (fun i =>
         for_ret (Cols a) (fun j =>
           x <- At a i j ;;
           if rne x x then Ok (Some true)
           else
             y <- At b i j ;;
             if rne y y then Ok (Some true)
             else if rgt (rabs (ssub x y)) GetEps then Ok (Some true)
             else Ok None)) ;;
  Ok (match r with Some v => v | None => false end).

Definition op_eq (a b : Mat R) : Res bool :=
  r <- op_ne a b ;; Ok (negb r).
End Compare.

(** [ToComplex()]. *)
Section ToComplex.
Context {R C : Type} `{ComplexScalar R C}.

Definition ToComplex (this : Mat R) : Res (Mat C) :=
  ans <- Matrix_nm (Rows this) (Cols this) ;;
  for_ (Rows this) (fun i ans =>
    for_ (Cols this) (fun j ans =>
      v <- At this i j ;; set_At ans i j (cof_real v)) ans) ans.
End ToComplex.

(** ** The collaborators

    Modelled from the spec: the headers [euclidean_norm.h],
    [minimal_square_problem.h] and [eigenvalues.h] are missing.  The spec
    treats them as pure functions: the 2-norm of a vector-shaped matrix (of
    the matrix's scalar type, as its uses [y / EuclideanNorm<T>(y)] and
    [std::norm(EuclideanNorm<std::complex<T>>(v))] show), a least-squares
    solver, and a solver returning the two complex roots of a quadratic. *)

Class Externals (R C : Type) : Type := {
  EuclideanNorm : Mat R -> R;
  EuclideanNormC : Mat C -> C;
  MinimalSquareProblem : Mat R -> Mat R -> Mat R;
  SolveQuadraticEquation : R -> R -> R -> C * C
}.

(** ** The solvers *)

Section Solvers.
Context {R C : Type} `{RealScalar R} `{ComplexScalar R C} `{Externals R C}
        {epsR : MatrixEps R} {epsC : MatrixEps C}.

Definition Eigenpairs : Type := list (C * Mat C).

(** [std::vector::empty()]. *)
Definition empty {A : Type} (v : list A) : bool :=
  match v with [] => true | _ :: _ => false end.

Definition not_square (a : Mat R) : exn :=
  invalid_argument ("Matrix of size " +:+ PairToString (Size a) +:+ " is not square.").

(** Lines 20-30 of [PowerMethodEigenvaluesComplexIteration]: the matrix
    [l] and the right-hand side [r] handed to [MinimalSquareProblem]. *)
Definition method3_system (a squared_a u : Mat C) : Res (Mat R * Mat R) :=
  l <- Matrix_nm (Rows u) 2 ;;
  au <- op_mul a u ;;
  l <- for_ (Rows u) (fun i l =>
         ui <- At1 u i ;;
         l <- set_At l i 0 (creal ui) ;;
         aui <- At1 au i ;;
         set_At l i 1 (creal aui)) l ;;
  m <- int_op_mul (-1) squared_a ;;
  rc <- op_mul m u ;;
  r <- Matrix_nm (Rows u) 1 ;;
  r <- for_ (Rows u) (fun i r =>
         rci <- At1 rc i ;;
         set_At1 r i (creal rci)) r ;;
  Ok (l, r).

(** Returns the two roots, and the new contents of [y] and [u]. *)
Definition PowerMethodEigenvaluesComplexIteration (a squared_a y u : Mat C)
  : Res (C * C * Mat C * Mat C) :=
  au <- op_mul a u ;;
  y <- Assign y au ;;
  q <- op_div_scalar y (EuclideanNormC y) ;;
  u <- Assign u q ;;
  lr <- method3_system a squared_a u ;;
  let c := MinimalSquareProblem (fst lr) (snd lr) in
  c1 <- At1 c 1 ;;
  c0 <- At1 c 0 ;;
  let r12 := SolveQuadraticEquation (sof_int 1) c1 c0 in
  Ok (fst r12, snd r12, y, u).

(** Returns [lambda], and the new contents of [u] and [y]. *)
Definition PowerIterationMethod1Iteration (a u y : Mat R) : Res (R * Mat R * Mat R) :=
  au <- op_mul a u ;;
  y <- Assign y au ;;
  q <- op_div_scalar y (EuclideanNorm y) ;;
  u <- Assign u q ;;
  au <- op_mul a u ;;
  lambda <- ScalarProduct u au ;;
  Ok (lambda, u, y).

Definition PowerIterationMethod2Iteration (a a2 u y : Mat R) : Res (R * Mat R * Mat R) :=
  a2u <- op_mul a2 u ;;
  y <- Assign y a2u ;;
  q <- op_div_scalar y (EuclideanNorm y) ;;
  u <- Assign u q ;;
  a2u <- op_mul a2 u ;;
  lambda <- ScalarProduct u a2u ;;
  Ok (lambda, u, y).

(** The [while] loop of [PowerMethodEigenvalues1], from a state
    [(prev_lambda, lambda, u, y, iter)] to the state at its exit. *)
Fixpoint method1_loop (fuel : nat) (a : Mat R) (max_iters : Z)
    (prev_lambda lambda : R) (u y : Mat R) (iter : Z) : Res (R * Mat R * Mat R * Z) :=
  if rgt (rabs (ssub prev_lambda lambda)) GetEps then
    match fuel with
    | O => NoFuel
    | S fuel =>
        let prev_lambda := lambda in
        r <- PowerIterationMethod1Iteration a u y ;;
        let '(lambda, u, y) := r in
        let iter := iter + 1 in
        if iter >? max_iters then Ok (lambda, u, y, iter)
        else method1_loop fuel a max_iters prev_lambda lambda u y iter
    end
  else Ok (lambda, u, y, iter).

(** [iters]: [None] is a null pointer, [Some v] an [int] holding [v].
    [y] is passed by value (the caller's copy is made at the call). *)
Definition PowerMethodEigenvalues1 (a y : Mat R) (iters : option Z) (max_iters : Z)
  : Res (R * Mat R * option Z) :=
  if negb (IsSquare a) then Throw (not_square a)
  else
    y <- set_At1 y 0 (sof_int 1) ;;
    u <- op_div_scalar y (EuclideanNorm y) ;;
    au <- op_mul a u ;;
    lambda <- ScalarProduct u au ;;
    r <- method1_loop (S (Z.to_nat max_iters)) a max_iters r1e18 lambda u y 0 ;;
    let '(lambda, u, y, iter) := r in
    let iters :=
      match iters with
      | Some _ =>
          Some (if (iter >=? max_iters) || rlt (EuclideanNorm u) GetEps
                then -1 else iter + 1)
      | None => None
      end in
    Ok (lambda, u, iters).

Fixpoint method2_loop (fuel : nat) (a a2 : Mat R) (max_iters : Z) (eps : R)
    (prev_lambda lambda : R) (u y : Mat R) (iter : Z) : Res (R * Mat R * Mat R * Z) :=
  if rgt (rabs (ssub lambda prev_lambda)) eps then
    match fuel with
    | O => NoFuel
    | S fuel =>
        let prev_lambda := lambda in
        r <- PowerIterationMethod2Iteration a a2 u y ;;
        let '(l2, u, y) := r in
        let lambda := rsqrt (rabs l2) in
        let iter := iter + 1 in
        if iter >? max_iters then Ok (lambda, u, y, iter)
        else method2_loop fuel a a2 max_iters eps prev_lambda lambda u y iter
    end
  else Ok (lambda, u, y, iter).

(** [k] steps of Method 2 from the vectors [u] and [y]: what [k] rounds of
    the loop of [PowerMethodEigenvalues2] make of them. *)
Fixpoint method2_steps (k : nat) (a a2 u y : Mat R) : Res (Mat R * Mat R) :=
  match k with
  | O => Ok (u, y)
  | S k =>
      r <- PowerIterationMethod2Iteration a a2 u y ;;
      let '(_, u, y) := r in
      method2_steps k a a2 u y
  end.

(** Lines 180-181: [(c * a * u + a2 * u) / (2 * lambda * lambda)], with
    [c] being [lambda] for [v1] and [-lambda] for [v2]. *)
Definition method2_candidate (c lambda : R) (a a2 u : Mat R) : Res (Mat R) :=
  ca <- scalar_op_mul c a ;;
  cau <- op_mul ca u ;;
  a2u <- op_mul a2 u ;;
  s <- op_plus cau a2u ;;
  op_div_scalar s (smul (smul (sof_int 2) lambda) lambda).

(** Lines 183-189: the accepted candidates, in order. *)
Definition method2_accept (eps lambda : R) (v1 v2 : Mat R) : Res Eigenpairs :=
  ans1 <- (if rgt (EuclideanNorm v1) eps
           then c <- ToComplex v1 ;; Ok [(cof_real lambda, c)]
           else Ok []) ;;
  ans2 <- (if rgt (EuclideanNorm v2) eps
           then c <- ToComplex v2 ;; Ok [(cof_real (rneg lambda), c)]
           else Ok []) ;;
  Ok (ans1 ++ ans2).

(** Returns the eigenpairs, the new contents of the reference parameter
    [y], and the new contents of [*iters]. *)
Definition PowerMethodEigenvalues2 (a y : Mat R) (iters : option Z) (max_iters : Z) (eps : R)
  : Res (Eigenpairs * Mat R * option Z) :=
  if negb (IsSquare a) then Throw (not_square a)
  else
    a2 <- op_mul a a ;;
    u <- op_div_scalar y (EuclideanNorm y) ;;
    a2u <- op_mul a2 u ;;
    sp <- ScalarProduct u a2u ;;
    let lambda := rsqrt (rabs sp) in
    v1 <- CopyFrom u ;;
    v2 <- CopyFrom u ;;
    r <- method2_loop (S (Z.to_nat max_iters)) a a2 max_iters eps r1e18 lambda u y 0 ;;
    let '(lambda, u, y, iter) := r in
    v1 <- method2_candidate lambda lambda a a2 u ;;
    v2 <- method2_candidate (rneg lambda) lambda a a2 u ;;
    ans <- method2_accept eps lambda v1 v2 ;;
    let iters :=
      match iters with
      | Some _ =>
          Some (if (iter >=? max_iters) || empty ans then -1 else iter + 1)
      | None => None
      end in
    Ok (ans, y, iters).

(** The [while] loop of [PowerMethodEigenvalues3]; its state is
    [(prev_r1, r1, prev_r2, r2, complex_y, u, iter)]. *)
Fixpoint method3_loop (fuel : nat) (complex_a complex_squared_a : Mat C) (max_iters : Z)
    (prev_r1 r1 prev_r2 r2 : C) (complex_y u : Mat C) (iter : Z)
  : Res (C * C * Mat C * Z) :=
  if rgt (cabs (ssub prev_r1 r1)) (rabs GetEps)
     || rgt (cabs (ssub prev_r2 r2)) (rabs GetEps) then
    match fuel with
    | O => NoFuel
    | S fuel =>
        p <- PowerMethodEigenvaluesComplexIteration complex_a complex_squared_a complex_y u ;;
        let '(p1, p2, complex_y, u) := p in
        let prev_r1 := r1 in
        let prev_r2 := r2 in
        let r1 := p1 in
        let r2 := p2 in
        let iter := iter + 1 in
        if iter >? max_iters then Ok (r1, r2, u, iter)
        else method3_loop fuel complex_a complex_squared_a max_iters
               prev_r1 r1 prev_r2 r2 complex_y u iter
    end
  else Ok (r1, r2, u, iter).

(** Lines 247-253: the two eigenvector candidates. *)
Definition method3_vectors (r1 r2 : C) (u u1 u2 : Mat C) : Res (Mat C * Mat C) :=
  v1 <- Matrix_nm (Rows u) 1 ;;
  v2 <- Matrix_nm (Rows u) 1 ;;
  for_ (Rows u) (fun i (v : Mat C * Mat C) =>
    u2i <- At1 u2 i ;;
    u1i <- At1 u1 i ;;
    v1 <- set_At1 (fst v) i (ssub u2i (smul r2 u1i)) ;;
    u1i <- At1 u1 i ;;
    u2i <- At1 u2 i ;;
    v2 <- set_At1 (snd v) i (ssub u1i (sdiv u2i r1)) ;;
    Ok (v1, v2)) (v1, v2).

Definition PowerMethodEigenvalues3 (a : Mat R) (iters : option Z) (max_iters : Z)
  : Res (Eigenpairs * option Z) :=
  if negb (IsSquare a) then Throw (not_square a)
  else
    squared_a <- op_mul a a ;;
    let n := Rows a in
    complex_a <- ToComplex a ;;
    complex_squared_a <- ToComplex squared_a ;;
    complex_y <- Matrix_nm n 1 ;;
    complex_y <- set_At1 complex_y 0 (sof_int 1) ;;
    u <- op_div_scalar complex_y (EuclideanNormC complex_y) ;;
    r <- method3_loop (S (Z.to_nat max_iters)) complex_a complex_squared_a max_iters
           (cof_real r1e18) szero (cof_real r1e18) szero complex_y u 0 ;;
    let '(r1, r2, u, iter) := r in
    u1 <- op_mul complex_a u ;;
    u2 <- op_mul complex_squared_a u ;;
    v <- method3_vectors r1 r2 u u1 u2 ;;
    let iters :=
      match iters with
      | Some _ => Some (if iter >=? max_iters then -1 else iter + 1)
      | None => None
      end in
    let ans1 := if rgt (cnorm (EuclideanNormC (fst v))) (cnorm GetEps)
                then [(r1, fst v)] else [] in
    let ans2 := if rgt (cnorm (EuclideanNormC (snd v))) (cnorm GetEps)
                then [(r2, snd v)] else [] in
    Ok (ans1 ++ ans2, iters).

(** *** The dispatcher

    Its result is the outcome together with the final contents of
    [*iters]: the dispatcher writes [*iters] before it calls a method, and
    a method writes it only when it returns. *)

Definition seed (a : Mat R) : Res (Mat R) :=
  y <- Matrix_nm (Rows a) 1 ;;
  set_At1 y 0 (sof_int 1).

Definition outcome {A : Type} (iters : option Z) (r : Res (A * option Z))
  : Res A * option Z :=
  match r with
  | Ok (x, it) => (Ok x, it)
  | Throw e => (Throw e, iters)
  | Undefined => (Undefined, iters)
  | NoFuel => (NoFuel, iters)
  end.

(** Lines 311-328: the probe, the refined run and the fall-back. *)
Definition probe_and_refine (a : Mat R) (iters : option Z) (max_iters : Z)
  : Res Eigenpairs * option Z :=
  let method3 := outcome iters (PowerMethodEigenvalues3 a iters max_iters) in
  match seed a with
  | Ok y =>
      match PowerMethodEigenvalues2 a y (Some 0) max_iters r0_1 with
      | Ok (_, y, iters_) =>
          let iters_ := default 0 iters_ in
          if iters_ >=? 0 then
            match PowerMethodEigenvalues2 a y (Some 0) max_iters GetEps with
            | Ok (res, _, iters__) =>
                let iters__ := default 0 iters__ in
                if (iters__ >=? 0) && negb (empty res) then
                  (Ok res, match iters with
                           | Some _ => Some (iters_ + iters__)
                           | None => None
                           end)
                else method3
            | Throw e => (Throw e, iters)
            | Undefined => (Undefined, iters)
            | NoFuel => (NoFuel, iters)
            end
          else method3
      | Throw e => (Throw e, iters)
      | Undefined => (Undefined, iters)
      | NoFuel => (NoFuel, iters)
      end
  | Throw e => (Throw e, iters)
  | Undefined => (Undefined, iters)
  | NoFuel => (NoFuel, iters)
  end.

Definition PowerMethodEigenvalues (a : Mat R) (iters : option Z)
    (max_iters check_iters check_step force_method : Z) : Res Eigenpairs * option Z :=
  let iters := match iters with Some _ => Some 0 | None => None end in
  if negb (force_method =? -1) then
    match seed a with
    | Ok y =>
        if force_method =? 0 then
          match (y <- CopyFrom y ;; PowerMethodEigenvalues1 a y iters max_iters) with
          | Ok (e, v, it) => (vc <- ToComplex v ;; Ok [(cof_real e, vc)], it)
          | Throw x => (Throw x, iters)
          | Undefined => (Undefined, iters)
          | NoFuel => (NoFuel, iters)
          end
        else if force_method =? 1 then
          outcome iters
            (r <- PowerMethodEigenvalues2 a y iters max_iters GetEps ;;
             let '(ans, _, it) := r in Ok (ans, it))
        else if force_method =? 2 then
          outcome iters (PowerMethodEigenvalues3 a iters max_iters)
        else probe_and_refine a iters max_iters
    | Throw e => (Throw e, iters)
    | Undefined => (Undefined, iters)
    | NoFuel => (NoFuel, iters)
    end
  else probe_and_refine a iters max_iters.
End Solvers.

(** ** Matrices as views on shared arrays

    [data_] is a [std::shared_ptr<T[]>]: here a location of a store of
    arrays.  A matrix object is a handle [Matrix loc]; a member function
    that changes the fields of [*this] returns the new handle.  (The store
    only grows: releasing the array of the last owner is not modelled.) *)

Module View.
Definition loc : Type := positive.

Section Heap.
Context {T : Type} `{Scalar T}.
Local Abbreviation heap := (gmap loc (list T)).
Local Abbreviation Handle := (Matrix loc).
Implicit Types (σ : heap) (this b other : Handle).

(** [new T[n]]. *)
Definition alloc σ (buf : list T) : loc * heap :=
  let l := fresh (dom σ) in (l, <[l := buf]> σ).

Definition wf σ (m : Handle) : Prop :=
  exists buf, σ !! data_ m = Some buf /\ wf_geom (length buf) m.

Definition At σ (m : Handle) (i j : Z) : Res T :=
  k <- At_index m i j ;;
  match σ !! data_ m with
  | Some buf => load buf k
  | None => Undefined
  end.

Definition set_At σ (m : Handle) (i j : Z) (v : T) : Res heap :=
  k <- At_index m i j ;;
  match σ !! data_ m with
  | Some buf => buf <- store buf k v ;; Ok (<[data_ m := buf]> σ)
  | None => Undefined
  end.

Definition At1 σ (m : Handle) (i : Z) : Res T :=
  k <- At1_index m i ;;
  match σ !! data_ m with
  | Some buf => load buf k
  | None => Undefined
  end.

Definition set_At1 σ (m : Handle) (i : Z) (v : T) : Res heap :=
  k <- At1_index m i ;;
  match σ !! data_ m with
  | Some buf => buf <- store buf k v ;; Ok (<[data_ m := buf]> σ)
  | None => Undefined
  end.

(** [Matrix(n, m, value)]; the product [n * m] is read as in the
    value-level [Matrix_fill]. *)
Definition Matrix_fill σ (n m : Z) (value : T) : Res (Handle * heap) :=
  if n * m <? 0 then Throw bad_array_new_length
  else
    let (l, σ) := alloc σ (replicate (Z.to_nat (n * m)) szero) in
    let this := {| data_ := l;
                   offset_i_ := 0; offset_j_ := 0;
                   data_rows_ := n; rows_ := n;
                   data_cols_ := m; cols_ := m |} in
    σ <- for_ (Rows this) (fun i σ =>
           for_ (Cols this) (fun j σ => set_At σ this i j value) σ) σ ;;
    Ok (this, σ).

Definition Matrix_nm σ (n m : Z) : Res (Handle * heap) := Matrix_fill σ n m szero.
Definition Matrix_default σ : Res (Handle * heap) := Matrix_nm σ 0 0.

Definition Assign σ this b : Res heap :=
  AssertEqualSizes this b ;;
  for_ (Rows this) (fun i σ =>
    for_ (Cols this) (fun j σ =>
      v <- At σ b i j ;; set_At σ this i j v) σ) σ.

(** [this->MakeRef(b)]: every field of [this] is taken from [b]. *)
Definition MakeRef this b : Handle :=
  {| data_ := data_ b;
     data_rows_ := data_rows_ b;
     data_cols_ := data_cols_ b;
     cols_ := cols_ b;
     rows_ := rows_ b;
     offset_i_ := offset_i_ b;
     offset_j_ := offset_j_ b |}.

Definition CopyFrom σ this other : Res (Handle * heap) :=
  p <- Matrix_nm σ (Rows other) (Cols other) ;;
  let this := MakeRef this (fst p) in
  σ <- Assign (snd p) this other ;;
  Ok (this, σ).

(** [this->Swap(b)]: the new [this] and the new [b]. *)
Definition Swap this b : Handle * Handle := (b, this).

(** [Matrix(const Matrix<T>& other)]: the fields of the new object are
    not initialised before [CopyFrom] binds them. *)
Definition copy_construct σ (uninit : Handle) other : Res (Handle * heap) :=
  CopyFrom σ uninit other.

(** [Matrix(Matrix<T>&& other)]: the new object and the new [other]. *)
Definition move_construct σ other : Res (Handle * Handle * heap) :=
  p <- Matrix_default σ ;;
  Ok (Swap (fst p) other, snd p).

(** [operator=(const Matrix<T>& b)] and [operator=(Matrix<T>&& b)]. *)
Definition copy_assign σ this b : Res (Handle * heap) := CopyFrom σ this b.
Definition move_assign this b : Handle * Handle := Swap this b.

(** The cell of the store that logical index [(i, j)] of [m] maps to. *)
Definition cell σ (m : Handle) (i j : Z) : option T :=
  match σ !! data_ m with
  | Some buf => buf !! Z.to_nat ((i + offset_i_ m) * data_cols_ m + offset_j_ m + j)
  | None => None
  end.

(** The default-constructed state: a 0 x 0 matrix owning an empty array. *)
Definition default_empty σ (m : Handle) : Prop :=
  rows_ m = 0 /\ cols_ m = 0 /\ data_rows_ m = 0 /\ data_cols_ m = 0 /\
  offset_i_ m = 0 /\ offset_j_ m = 0 /\ σ !! data_ m = Some [].
End Heap.
End View.

(** ** Specification vocabulary *)

(** The cell that logical index [(i, j)] maps to. *)
Definition cell {T : Type} (m : Mat T) (i j : Z) : option T :=
  data_ m !! Z.to_nat ((i + offset_i_ m) * data_cols_ m + offset_j_ m + j).

(** A well-formed matrix of [r] rows and [c] columns. *)
Definition shaped {T : Type} (r c : Z) (m : Mat T) : Prop :=
  wf m /\ rows_ m = r /\ cols_ m = c.

(** An owning instance: no offset, logical extents equal to the array's. *)
Definition owning {D : Type} (m : Matrix D) : Prop :=
  offset_i_ m = 0 /\ offset_j_ m = 0 /\ data_rows_ m = rows_ m /\ data_cols_ m = cols_ m.

(** [m'] is [m] with some cells rewritten. *)
Definition same_geom {T : Type} (m m' : Mat T) : Prop :=
  data_rows_ m' = data_rows_ m /\ data_cols_ m' = data_cols_ m /\
  cols_ m' = cols_ m /\ rows_ m' = rows_ m /\
  offset_i_ m' = offset_i_ m /\ offset_j_ m' = offset_j_ m /\
  length (data_ m') = length (data_ m).

(** [m'] has the size of [m], and at every index the cell of [m] mapped
    by [f]. *)
Definition mapped_cells {T U : Type} (f : T -> U) (m : Mat T) (m' : Mat U) : Prop :=
  rows_ m' = rows_ m /\ cols_ m' = cols_ m /\
  forall i j, 0 <= i < rows_ m -> 0 <= j < cols_ m ->
    cell m' i j = f <$> cell m i j.

(** Element [i] of a vector, as [At(i)] addresses it. *)
Definition vector_at {T : Type} (m : Mat T) (i : Z) : option T :=
  if rows_ m =? 1 then cell m 0 i else cell m i 0.

(** The sum [x(0) * y(0) + ... + x(n-1) * y(n-1)], accumulated from [T()]
    in index order, with the scalar's own product (nothing is conjugated). *)
Definition dot {T : Type} `{Scalar T} (x y : Z -> T) (n : Z) : T :=
  foldl (fun acc i => sadd acc (smul (x i) (y i))) szero (seqZ 0 n).

(** What a method leaves in [*iters]: the count [iter + 1], or the
    sentinel [-1] when [iter >= max_iters] or the method's own failure test
    [failed] holds; a null pointer is left alone. *)
Definition reported (iters : option Z) (iter max_iters : Z) (failed : bool) : option Z :=
  match iters with
  | Some _ => Some (if (iter >=? max_iters) || failed then -1 else iter + 1)
  | None => None
  end.

(** The contract the solvers rely on: for [n] equations in two unknowns the
    least-squares solver returns a column vector of two cells. *)
Definition MinimalSquareProblem_shape {R C : Type} {EX : Externals R C} : Prop :=
  forall n (l r : Mat R), shaped n 2 l -> shaped n 1 r ->
    shaped 2 1 (MinimalSquareProblem l r).

(** [*iters = v], when [iters] is not null. *)
Definition set_iters (iters : option Z) (v : Z) : option Z :=
  match iters with
  | Some _ => Some v
  | None => None
  end.

Section Contracts.
Context {R C : Type} `{RealScalar R} `{ComplexScalar R C} `{Externals R C}
        {epsR : MatrixEps R} {epsC : MatrixEps C}.

(** The dispatcher without an override, as the specification words it:
    the probe is Method 2 from the seed at tolerance 0.1; a probe that
    converged (its counter is not the sentinel) is followed by a run at
    full precision; that run's pairs are returned, with the two counts
    added, when it converged and found a pair; everything else is the
    result of Method 3. *)
Definition dispatcher_contract (a : Mat R) (iters : option Z)
    (max_iters check_iters check_step : Z) : Prop :=
  let result := PowerMethodEigenvalues a iters max_iters check_iters check_step (-1) in
  let method3 := outcome (set_iters iters 0)
                   (PowerMethodEigenvalues3 a (set_iters iters 0) max_iters) in
  exists e0 probe y1 it1,
    seed a = Ok e0 /\
    PowerMethodEigenvalues2 a e0 (Some 0) max_iters r0_1 = Ok (probe, y1, Some it1) /\
    if it1 =? -1 then result = method3
    else
      exists refined y2 it2,
        PowerMethodEigenvalues2 a y1 (Some 0) max_iters GetEps
        = Ok (refined, y2, Some it2) /\
        if negb (it2 =? -1) && negb (empty refined)
        then result = (Ok refined, set_iters iters (it1 + it2))
        else result = method3.

(** [v] is the candidate of Method 2 for the coefficient [c]:
    [v(i) = ((c * a * u)(i) + (a2 * u)(i)) / (2 * lambda * lambda)]. *)
Definition is_candidate (c lambda : R) (a a2 u v : Mat R) : Prop :=
  exists ca cau a2u,
    scalar_op_mul c a = Ok ca /\ mapped_cells (fun x => smul x c) a ca /\
    op_mul ca u = Ok cau /\ op_mul a2 u = Ok a2u /\
    rows_ v = rows_ u /\ cols_ v = 1 /\
    forall i, 0 <= i < rows_ u ->
      exists x y, cell cau i 0 = Some x /\ cell a2u i 0 = Some y /\
        cell v i 0 = Some (sdiv (sadd x y) (smul (smul (sof_int 2) lambda) lambda)).

(** The linear system of Method 3 as the specification words it:
    row [i] is [(Re u(i), Re (a u)(i))] and the right-hand side is
    [Re (a^2 u)(i)], so that it expresses [a^2 u = c1 (a u) + c0 u]. *)
Definition specified_system (a squared_a u : Mat C) : Res (Mat R * Mat R) :=
  l <- Matrix_nm (Rows u) 2 ;;
  au <- op_mul a u ;;
  l <- for_ (Rows u) (fun i l =>
         ui <- At1 u i ;;
         l <- set_At l i 0 (creal ui) ;;
         aui <- At1 au i ;;
         set_At l i 1 (creal aui)) l ;;
  a2u <- op_mul squared_a u ;;
  r <- Matrix_nm (Rows u) 1 ;;
  r <- for_ (Rows u) (fun i r =>
         v <- At1 a2u i ;;
         set_At1 r i (creal v)) r ;;
  Ok (l, r).
End Contracts.

(** ** [double]

    [T = double] is the kernel's binary64 arithmetic (round to nearest
    even), [std::abs] and [std::sqrt] its [abs] and [sqrt]. *)

Module Double.
Open Scope float_scope.

Definition of_int (z : Z) : float :=
  if (z <? 0)%Z then - PrimFloat.of_uint63 (Uint63.of_Z (- z))
  else PrimFloat.of_uint63 (Uint63.of_Z z).

(** [std::numeric_limits<double>::epsilon()], the initial [eps]. *)
Definition epsilon : float := 0x1p-52.

#[export] Instance double_scalar : Scalar float := {|
  szero := 0;
  sof_int := of_int;
  sadd := PrimFloat.add;
  ssub := PrimFloat.sub;
  smul := PrimFloat.mul;
  sdiv := PrimFloat.div;
  smul_int := fun x b => x * of_int b
|}.

#[export] Instance double_real : RealScalar float := {|
  real_scalar := double_scalar;
  rneg := PrimFloat.opp;
  rabs := PrimFloat.abs;
  rsqrt := PrimFloat.sqrt;
  rlt := PrimFloat.ltb;
  rne := fun x y => negb (PrimFloat.eqb x y);
  r1e18 := 1e18;
  r0_1 := 0x1.999999999999ap-4
|}.

Definition default_eps : MatrixEps float := {| GetEps := epsilon |}.

(** Neither NaN nor infinite. *)
Definition finite (x : float) : bool :=
  negb (PrimFloat.is_nan x) && negb (PrimFloat.is_infinity x).

Definition all_cells (p : float -> bool) (m : Mat float) : Prop :=
  forall i j x, (0 <= i < rows_ m)%Z -> (0 <= j < cols_ m)%Z ->
    cell m i j = Some x -> p x = true.

(** An owning matrix given by its rows (the initializer-list
    constructor, for rows of equal length). *)
Definition of_rows (rows : list (list float)) : Mat float :=
  let n := Z.of_nat (length rows) in
  let m := Z.of_nat (length (default [] (head rows))) in
  {| data_ := concat rows; data_rows_ := n; data_cols_ := m;
     cols_ := m; rows_ := n; offset_i_ := 0; offset_j_ := 0 |}.
End Double.

(** ** [std::complex<double>] and the collaborators, to run the solvers

    These instances serve to evaluate the solvers on concrete matrices;
    no general statement below depends on them. *)

Module Run.
Import Double.
Open Scope float_scope.

(** [std::complex<double>] with the textbook formulas.  The product and
    the quotient of the library are computed by the compiler's run-time
    support, which scales the operands and recovers infinities and NaN:
    its results can differ from these in the last digits and on
    non-finite values.  The instance serves to run the definitions on
    sample matrices; every general statement is parametric in the
    arithmetic ([Scalar], [ComplexScalar]). *)
Record complex : Type := mkC { re : float; im : float }.

Definition cadd (x y : complex) : complex := mkC (re x + re y) (im x + im y).
Definition csub (x y : complex) : complex := mkC (re x - re y) (im x - im y).
Definition cmul (x y : complex) : complex :=
  mkC (re x * re y - im x * im y) (re x * im y + im x * re y).
Definition cdiv (x y : complex) : complex :=
  let d := re y * re y + im y * im y in
  mkC ((re x * re y + im x * im y) / d) ((im x * re y - re x * im y) / d).

#[export] Instance complex_scalar_double : Scalar complex := {|
  szero := mkC 0 0;
  sof_int := fun z => mkC (of_int z) 0;
  sadd := cadd;
  ssub := csub;
  smul := cmul;
  sdiv := cdiv;
  smul_int := fun x b => mkC (re x * of_int b) (im x * of_int b)
|}.

#[export] Instance double_complex : ComplexScalar float complex := {|
  complex_scalar := complex_scalar_double;
  cof_real := fun x => mkC x 0;
  creal := re;
  cabs := fun z => PrimFloat.sqrt (re z * re z + im z * im z);
  cnorm := fun z => re z * re z + im z * im z
|}.

(** The logical cells of a matrix, row by row. *)
Definition elements {T : Type} (m : Mat T) : list T :=
  flat_map (fun i =>
    flat_map (fun j => match cell m i j with Some x => [x] | None => [] end)
             (seqZ 0 (cols_ m)))
    (seqZ 0 (rows_ m)).

(** Modelled from the spec: [EuclideanNorm], the 2-norm of a
    vector-shaped matrix ([euclidean_norm.h] is missing). *)
Definition norm2 (m : Mat float) : float :=
  PrimFloat.sqrt (foldl (fun acc x => acc + x * x) 0 (elements m)).

Definition norm2c (m : Mat complex) : complex :=
  mkC (PrimFloat.sqrt (foldl (fun acc z => acc + (re z * re z + im z * im z)) 0
                             (elements m))) 0.

(** Modelled from the spec: [MinimalSquareProblem], a least-squares
    solver ([minimal_square_problem.h] is missing); here the normal
    equations of a system in two unknowns. *)
Definition least_squares2 (l r : Mat float) : Mat float :=
  let col (j : Z) := map (fun i => default 0 (cell l i j)) (seqZ 0 (rows_ l)) in
  let rhs := map (fun i => default 0 (cell r i 0%Z)) (seqZ 0 (rows_ l)) in
  let dot (x y : list float) := foldl (fun acc p => acc + fst p * snd p) 0 (zip x y) in
  let s00 := dot (col 0%Z) (col 0%Z) in
  let s01 := dot (col 0%Z) (col 1%Z) in
  let s11 := dot (col 1%Z) (col 1%Z) in
  let t0 := dot (col 0%Z) rhs in
  let t1 := dot (col 1%Z) rhs in
  let det := s00 * s11 - s01 * s01 in
  of_rows [[(t0 * s11 - t1 * s01) / det]; [(s00 * t1 - s01 * t0) / det]].

(** Modelled from the spec: [SolveQuadraticEquation], the two roots of
    [a x^2 + b x + c = 0] ([eigenvalues.h] is missing). *)
Definition quadratic_roots (a b c : float) : complex * complex :=
  let d := b * b - 4 * a * c in
  if PrimFloat.ltb d 0 then
    (mkC (- b / (2 * a)) (PrimFloat.sqrt (- d) / (2 * a)),
     mkC (- b / (2 * a)) (- (PrimFloat.sqrt (- d) / (2 * a))))
  else
    (mkC ((- b + PrimFloat.sqrt d) / (2 * a)) 0,
     mkC ((- b - PrimFloat.sqrt d) / (2 * a)) 0).

#[export] Instance externals : Externals float complex := {|
  EuclideanNorm := norm2;
  EuclideanNormC := norm2c;
  MinimalSquareProblem := least_squares2;
  SolveQuadraticEquation := quadratic_roots
|}.

#[export] Instance eps_double : MatrixEps float := default_eps.

(** [std::numeric_limits<std::complex<double>>] is not specialised: its
    [epsilon()] is [std::complex<double>()]. *)
#[export] Instance eps_complex : MatrixEps complex := {| GetEps := mkC 0 0 |}.

(** Sample matrices. *)
Definition diag2 : Mat float := of_rows [[2; 0]; [0; -2]].
Definition e0_2 : Mat float := of_rows [[1]; [0]].

(** [diag(1e18, 1)]: from [e0] the first [lambda] of Method 2 is the
    initial value [1e18] of [prev_lambda]. *)
Definition diag_1e18 : Mat float := of_rows [[1e18; 0]; [0; 1]].
Definition row12 : Mat float := of_rows [[1; 2]].
Definition one_c : Mat complex := {|
  data_ := [mkC 1 0]; data_rows_ := 1; data_cols_ := 1; cols_ := 1; rows_ := 1;
  offset_i_ := 0; offset_j_ := 0 |}.
Definition nan1 : Mat float := of_rows [[nan]].
Definition inf1 : Mat float := of_rows [[infinity]].
Definition one1 : Mat float := of_rows [[1]].
Definition empty10 : Mat float :=
  {| data_ := []; data_rows_ := 1; data_cols_ := 0; cols_ := 0; rows_ := 1;
     offset_i_ := 0; offset_j_ := 0 |}.
Definition empty00 : Mat float := of_rows [].

(** A store with a 2 x 2 matrix at location 1, and one with a 1 x 1 matrix
    at location 1 and a 2 x 2 matrix at location 2. *)
Definition store1 : gmap View.loc (list float) := {[ 1%positive := [1; 2; 3; 4] ]}.
Definition store2 : gmap View.loc (list float) :=
  {[ 1%positive := [5]; 2%positive := [7; 7; 7; 7] ]}.
Definition handle (l : View.loc) (n m : Z) : Matrix View.loc :=
  {| data_ := l; data_rows_ := n; data_cols_ := m; cols_ := m; rows_ := n;
     offset_i_ := 0; offset_j_ := 0 |}.
Definition A22 : Matrix View.loc := handle 1%positive 2%Z 2%Z.
Definition A11 : Matrix View.loc := handle 1%positive 1%Z 1%Z.
Definition B22 : Matrix View.loc := handle 2%positive 2%Z 2%Z.
Definition unbound : Matrix View.loc := handle 1%positive 0%Z 0%Z.
Definition empty01 : Mat float :=
  {| data_ := []; data_rows_ := 0; data_cols_ := 1; cols_ := 1; rows_ := 0;
     offset_i_ := 0; offset_j_ := 0 |}.
End Run.

(** ** The rest of the matrix class *)


Section Initializer.
Context {T : Type} `{Scalar T}.

End Initializer.

(** ** Matrix objects

    A [Matrix] object has an identity of its own: in [a = a] the same
    object is [*this] and the argument.  Here the objects live in a table
    from object names to their fields, next to the store of arrays; a
    member function reads its operands from the table when the code reads
    their fields. *)

Module Obj.
Definition oid : Type := positive.

Section Objects.
Context {T : Type} `{Scalar T}.

Record state : Type := mkState {
  objects : gmap oid (Matrix View.loc);
  arrays : gmap View.loc (list T)
}.

Definition get (st : state) (o : oid) : Res (Matrix View.loc) :=
  match objects st !! o with
  | Some m => Ok m
  | None => Undefined
  end.

(** [this->MakeRef(b)] for a temporary [b]. *)
Definition MakeRef (st : state) (this : oid) (b : Matrix View.loc) : Res state :=
  t <- get st this ;;
  Ok (mkState (<[this := View.MakeRef t b]> (objects st)) (arrays st)).

(** [this->Assign(b)]: no field of an object changes while it runs. *)
Definition Assign (st : state) (this b : oid) : Res state :=
  t <- get st this ;;
  o <- get st b ;;
  σ <- View.Assign (arrays st) t o ;;
  Ok (mkState (objects st) σ).

(** [this->CopyFrom(other)]: the temporary is built from the size of
    [other], [this] is bound to it, and [Assign] then reads [other]
    again. *)
Definition CopyFrom (st : state) (this other : oid) : Res state :=
  o <- get st other ;;
  p <- View.Matrix_nm (arrays st) (Rows o) (Cols o) ;;
  st <- MakeRef (mkState (objects st) (snd p)) this (fst p) ;;
  Assign st this other.

(** [operator=(const Matrix<T>& b)]. *)
Definition copy_assign (st : state) (this b : oid) : Res state := CopyFrom st this b.
End Objects.
End Obj.

(** ** The convergence probes

    [PowerIterationMethod1IterationConverges] and
    [PowerIterationMethod2IterationConverges]. *)

(** [>=] and [<=] on the real scalar. *)
Class RealOrder (R : Type) : Type := {
  rge : R -> R -> bool;
  rle : R -> R -> bool
}.





Section Probes.
Context {R C : Type} `{RealScalar R} `{ComplexScalar R C} `{Externals R C}
        {RO : RealOrder R} {epsR : MatrixEps R}.





End Probes.

(** The test [operator!=] makes on a pair of cells. *)
Definition cells_differ {R : Type} {RS : RealScalar R} {ME : MatrixEps R} (x y : R) : bool :=
  rne x x || rne y y || rgt (rabs (ssub x y)) GetEps.

(** ** Printing

    [operator<<] of the scalar type belongs to the standard library: the
    text of a value under [std::fixed << std::setprecision(p)] is a
    parameter.  [precision] is the static member read by
    [GetPrecision()]. *)

Class Printable (T : Type) : Type := { show_fixed : Z -> T -> string }.
Class MatrixPrecision (T : Type) : Type := { GetPrecision : Z }.
Arguments GetPrecision T {MatrixPrecision}.

Definition newline : string := String (Ascii.ascii_of_nat 10) EmptyString.

Section Printing.
Context {T : Type} `{Scalar T} {PR : Printable T} {MP : MatrixPrecision T}.

Definition ToWolframString (this : Mat T) : Res string :=
  let precision := GetPrecision T in
  res <- for_ (Rows this) (fun i res =>
           let res := res +:+ "{" in
           res <- for_ (Cols this) (fun j res =>
                    v <- At this i j ;;
                    let res := res +:+ show_fixed precision v in
                    Ok (if negb (j + 1 =? Cols this) then res +:+ "," else res)) res ;;
           let res := res +:+ "}" in
           Ok (if negb (i + 1 =? Rows this) then res +:+ "," else res)) "{" ;;
  Ok (res +:+ "}" +:+ newline).
End Printing.

(** The text [ToWolframString] produces for the cells [x i j] of an
    [r x c] matrix. *)
Definition wolfram_text {T : Type} {PR : Printable T} {MP : MatrixPrecision T}
    (r c : Z) (x : Z -> Z -> T) : string :=
  "{" +:+ String.concat ","
            (map (fun i => "{" +:+ String.concat ","
                                     (map (fun j => show_fixed (GetPrecision T) (x i j))
                                          (seqZ 0 c))
                               +:+ "}")
                 (seqZ 0 r))
      +:+ "}" +:+ newline.

(** ** In-place operators through a handle

    [operator*=(U b)] and [operator/=(U b)] on a matrix object that may be
    a view: [f] is the scalar's [x *= b], respectively [x /= b]. *)

(** The position in the backing array that logical index [(i, j)] of [m]
    maps to. *)
Definition position {D : Type} (m : Matrix D) (i j : Z) : Z :=
  (i + offset_i_ m) * data_cols_ m + offset_j_ m + j.

(** An operand [a] of [this += a] none of whose cells is another cell of
    the target: the two are on different arrays, or a cell they share has
    the same index in both (as for two disjoint views, or for [a += a]). *)
Definition reads_own_cells (this a : Matrix View.loc) : Prop :=
  data_ a = data_ this ->
  forall i j i' j',
    0 <= i < rows_ this -> 0 <= j < cols_ this ->
    0 <= i' < rows_ a -> 0 <= j' < cols_ a ->
    position a i' j' = position this i j -> i' = i /\ j' = j.

Module ViewOps.
Section Heap.
Context {T : Type} `{Scalar T}.

Definition scalar_assign (f : T -> T) (σ : gmap View.loc (list T)) (this : Matrix View.loc)
  : Res (gmap View.loc (list T)) :=
  for_ (Rows this) (fun i σ =>
    for_ (Cols this) (fun j σ =>
      y <- View.At σ this i j ;;
      View.set_At σ this i j (f y)) σ) σ.

(** [operator+=] and [operator-=] on matrix objects.  The cell of the
    operand is read from the store at its turn: a target that shares cells
    with its operand reads what it has written. *)
Definition plus_assign (σ : gmap View.loc (list T)) (this a : Matrix View.loc)
  : Res (gmap View.loc (list T)) :=
  AssertEqualSizes this a ;;
  for_ (Rows a) (fun i σ =>
    for_ (Cols a) (fun j σ =>
      x <- View.At σ a i j ;;
      y <- View.At σ this i j ;;
      View.set_At σ this i j (sadd y x)) σ) σ.

Definition minus_assign (σ : gmap View.loc (list T)) (this a : Matrix View.loc)
  : Res (gmap View.loc (list T)) :=
  AssertEqualSizes this a ;;
  for_ (Rows a) (fun i σ =>
    for_ (Cols a) (fun j σ =>
      x <- View.At σ a i j ;;
      y <- View.At σ this i j ;;
      View.set_At σ this i j (ssub y x)) σ) σ.
End Heap.
End ViewOps.

(** ** More instances and sample values *)

Module Samples.
Import Double Run.
Close Scope float_scope.

(** [>=] and [<=] of [double]. *)
#[export] Instance double_order : RealOrder float := {|
  rge := fun x y => PrimFloat.leb y x;
  rle := fun x y => PrimFloat.leb x y
|}.

(** [int], as long as no operation overflows; its [operator<<] prints
    the decimal digits, whatever the precision. *)
#[export] Instance int_scalar : Scalar Z := {|
  szero := 0;
  sof_int := fun z => z;
  sadd := Z.add;
  ssub := Z.sub;
  smul := Z.mul;
  sdiv := Z.quot;
  smul_int := Z.mul
|}.

#[export] Instance int_printable : Printable Z := {| show_fixed := fun _ x => pretty x |}.

(** The initial value of the static member [precision]. *)
#[export] Instance precision0 : MatrixPrecision Z := {| GetPrecision := 0 |}.

Definition int12 : Mat Z :=
  {| data_ := [1; -2]; data_rows_ := 1; data_cols_ := 2; cols_ := 2; rows_ := 1;
     offset_i_ := 0; offset_j_ := 0 |}.

(** One object, named 1, owning the 2 x 2 array of [store1]. *)
Definition objects1 : Obj.state (T := float) :=
  Obj.mkState {[ 1%positive := A22 ]} store1.
End Samples.

(** * Properties *)

(** ** Loops *)

Lemma for_range_inv {St : Type} (I : Z -> St -> Prop) (body : Z -> St -> Res St) :
  forall (n : nat) (lo : Z) (s : St),
    I lo s ->
    (forall i s, lo <= i < lo + Z.of_nat n -> I i s ->
       exists s', body i s = Ok s' /\ I (i + 1) s') ->
    exists s', for_range lo n body s = Ok s' /\ I (lo + Z.of_nat n) s'.
Proof.
  induction n as [|n IH]; intros lo s H0 Hstep; simpl.
  - exists s. split; [reflexivity|]. now replace (lo + Z.of_nat 0) with lo by lia.
  - destruct (Hstep lo s) as (s1 & E1 & H1); [lia|assumption|].
    rewrite E1; simpl.
    destruct (IH (lo + 1) s1 H1) as (s2 & E2 & H2).
    + intros i s' Hi. apply Hstep. lia.
    + exists s2. split; [assumption|].
      now replace (lo + Z.of_nat (S n)) with (lo + 1 + Z.of_nat n) by lia.
Qed.

Lemma for_inv {St : Type} (I : Z -> St -> Prop) (n : Z) (body : Z -> St -> Res St) (s : St) :
  I 0 s ->
  (forall i s, 0 <= i < n -> I i s -> exists s', body i s = Ok s' /\ I (i + 1) s') ->
  exists s', for_ n body s = Ok s' /\ I (Z.max 0 n) s'.
Proof.
  intros H0 Hstep. unfold for_.
  destruct (for_range_inv I body (Z.to_nat n) 0 s H0) as (s' & E & H').
  - intros i s1 Hi. apply Hstep. lia.
  - exists s'. split; [assumption|].
    now replace (Z.max 0 n) with (0 + Z.of_nat (Z.to_nat n)) by lia.
Qed.

(** A loop that keeps [P]. *)
Lemma for_pres {St : Type} (P : St -> Prop) (n : Z) (body : Z -> St -> Res St) (s : St) :
  P s ->
  (forall i s, 0 <= i < n -> P s -> exists s', body i s = Ok s' /\ P s') ->
  exists s', for_ n body s = Ok s' /\ P s'.
Proof.
  intros H0 Hstep.
  destruct (for_inv (fun _ => P) n body s H0) as (s' & E & H'); eauto.
Qed.

(** Two nested loops that settle every cell [(i, j)] once: a cell is [Todo]
    until its turn and [Done] after it, and a turn leaves the other cells
    as they are.  The bound of the inner loop may be read from the state. *)
Lemma for2_todo_done {St : Type} (P : St -> Prop) (Todo Done : Z -> Z -> St -> Prop)
    (r c : Z) (cf : St -> Z) (body : Z -> Z -> St -> Res St) (s : St) :
  P s ->
  (forall s, P s -> cf s = c) ->
  (forall i j, 0 <= i < r -> 0 <= j < c -> Todo i j s) ->
  (forall i j s, 0 <= i < r -> 0 <= j < c -> P s -> Todo i j s ->
     exists s', body i j s = Ok s' /\ P s' /\ Done i j s' /\
       forall i' j', 0 <= i' < r -> 0 <= j' < c -> (i', j') <> (i, j) ->
         (Todo i' j' s -> Todo i' j' s') /\ (Done i' j' s -> Done i' j' s')) ->
  exists s', for_ r (fun i s => for_ (cf s) (fun j s => body i j s) s) s = Ok s' /\ P s' /\
             forall i j, 0 <= i < r -> 0 <= j < c -> Done i j s'.
Proof.
  intros HP Hcf HT Hstep.
  set (I := fun (i : Z) (s : St) =>
    P s /\
    (forall i' j', 0 <= i' < r -> 0 <= j' < c -> i' < i -> Done i' j' s) /\
    (forall i' j', 0 <= i' < r -> 0 <= j' < c -> i <= i' -> Todo i' j' s)).
  destruct (for_inv I r (fun i s => for_ (cf s) (fun j s => body i j s) s) s)
    as (s' & E & HP' & HD & _).
  - repeat split; [assumption| |]; intros; [lia|auto].
  - intros i s1 Hi (HP1 & HD1 & HT1).
    rewrite (Hcf s1 HP1).
    set (J := fun (j : Z) (s : St) =>
      P s /\
      (forall i' j', 0 <= i' < r -> 0 <= j' < c -> i' < i -> Done i' j' s) /\
      (forall i' j', 0 <= i' < r -> 0 <= j' < c -> i < i' -> Todo i' j' s) /\
      (forall j', 0 <= j' < c -> j' < j -> Done i j' s) /\
      (forall j', 0 <= j' < c -> j <= j' -> Todo i j' s)).
    destruct (for_inv J c (fun j s => body i j s) s1) as (s2 & E2 & HP2 & HD2 & HT2 & HDr & _).
    + repeat split; [assumption|assumption| | |]; intros.
      * apply HT1; lia.
      * lia.
      * apply HT1; lia.
    + intros j s2 Hj (HPa & HDa & HTa & HDb & HTb).
      destruct (Hstep i j s2 Hi Hj HPa) as (s3 & E3 & HP3 & HD3 & Hfr); [apply HTb; lia|].
      exists s3. split; [assumption|]. repeat split; [assumption| | | |]; intros.
      * apply Hfr; [assumption..| |]; [intros [= ? ?]; lia|auto].
      * apply Hfr; [assumption..| |]; [intros [= ? ?]; lia|auto].
      * destruct (Z.eq_dec j' j) as [->|Hne]; [assumption|].
        apply Hfr; [assumption..| |]; [intros [= ?]; lia|apply HDb; lia].
      * apply Hfr; [assumption..| |]; [intros [= ?]; lia|apply HTb; lia].
    + exists s2. split; [assumption|]. repeat split; [assumption| |]; intros i' j' Hi' Hj' Hlt.
      * destruct (Z.eq_dec i' i) as [->|Hne]; [apply HDr; lia|apply HD2; lia].
      * apply HT2; lia.
  - exists s'. split; [assumption|]. split; [assumption|].
    intros i j Hi Hj. apply HD; lia.
Qed.

(** ** Indexing *)

(** Evaluates the arithmetic on literals that [cbn] leaves. *)
Ltac zred :=
  repeat match goal with
  | |- context [Z.add ?a ?b] =>
      let t := eval vm_compute in (Z.add a b) in progress change (Z.add a b) with t
  | |- context [Z.mul ?a ?b] =>
      let t := eval vm_compute in (Z.mul a b) in progress change (Z.mul a b) with t
  | |- context [Z.ltb ?a ?b] =>
      let t := eval vm_compute in (Z.ltb a b) in progress change (Z.ltb a b) with t
  | |- context [Z.geb ?a ?b] =>
      let t := eval vm_compute in (Z.geb a b) in progress change (Z.geb a b) with t
  | |- context [Z.to_nat ?a] =>
      let t := eval vm_compute in (Z.to_nat a) in progress change (Z.to_nat a) with t
  end.

Ltac zbool :=
  repeat match goal with
  | |- context [Z.ltb ?a ?b] => destruct (Z.ltb_spec a b)
  | |- context [Z.geb ?a ?b] => rewrite (Z.geb_leb a b)
  | |- context [Z.gtb ?a ?b] => rewrite (Z.gtb_ltb a b)
  | |- context [Z.leb ?a ?b] => destruct (Z.leb_spec a b)
  | |- context [Z.eqb ?a ?b] => destruct (Z.eqb_spec a b)
  end; simpl; try lia.

Lemma wf_index_bound {D : Type} (len : nat) (m : Matrix D) (i j : Z) :
  wf_geom len m -> 0 <= i < rows_ m -> 0 <= j < cols_ m ->
  0 <= (i + offset_i_ m) * data_cols_ m + offset_j_ m + j < Z.of_nat len.
Proof.
  unfold wf_geom. intros (? & ? & ? & ? & ? & ? & ->) ? ?. nia.
Qed.

Lemma wf_index_inj {D : Type} (len : nat) (m : Matrix D) (i j i' j' : Z) :
  wf_geom len m ->
  0 <= i < rows_ m -> 0 <= j < cols_ m -> 0 <= i' < rows_ m -> 0 <= j' < cols_ m ->
  (i + offset_i_ m) * data_cols_ m + offset_j_ m + j
  = (i' + offset_i_ m) * data_cols_ m + offset_j_ m + j' ->
  i = i' /\ j = j'.
Proof.
  unfold wf_geom. intros (? & ? & ? & ? & ? & ? & _) ? ? ? ? E.
  assert (i = i') by nia. subst i'. lia.
Qed.

Lemma At_index_ok {D : Type} (m : Matrix D) (i j : Z) :
  0 <= i < rows_ m -> 0 <= j < cols_ m ->
  At_index m i j = Ok ((i + offset_i_ m) * data_cols_ m + offset_j_ m + j).
Proof. intros ? ?. unfold At_index. zbool. reflexivity. Qed.

Lemma At_index_throws {D : Type} (m : Matrix D) (i j : Z) :
  ~ (0 <= i < rows_ m /\ 0 <= j < cols_ m) ->
  exists what, At_index m i j = Throw (out_of_range what).
Proof. intros ?. unfold At_index. zbool; eauto. Qed.

Lemma load_ok {T : Type} (buf : list T) (k : Z) :
  0 <= k < Z.of_nat (length buf) ->
  exists v, buf !! Z.to_nat k = Some v /\ load buf k = Ok v.
Proof.
  intros Hk. unfold load. zbool.
  destruct (lookup_lt_is_Some_2 buf (Z.to_nat k)) as [v Hv]; [lia|].
  exists v. now rewrite Hv.
Qed.

Lemma store_ok {T : Type} (buf : list T) (k : Z) (v : T) :
  0 <= k < Z.of_nat (length buf) ->
  store buf k v = Ok (<[Z.to_nat k := v]> buf).
Proof.
  intros Hk. unfold store. zbool.
  destruct (Nat.ltb_spec (Z.to_nat k) (length buf)); [reflexivity|lia].
Qed.

Section Cells.
Context {T : Type}.
Implicit Types m : Mat T.

Lemma same_geom_refl m : same_geom m m.
Proof. unfold same_geom. tauto. Qed.

Lemma same_geom_trans m1 m2 m3 : same_geom m1 m2 -> same_geom m2 m3 -> same_geom m1 m3.
Proof. unfold same_geom. intuition congruence. Qed.

Lemma same_geom_wf m m' : wf m -> same_geom m m' -> wf m'.
Proof.
  unfold wf, wf_geom, same_geom.
  intros (? & ? & ? & ? & ? & ? & ?) (-> & -> & -> & -> & -> & -> & ->). tauto.
Qed.

Lemma same_geom_shaped r c m m' : shaped r c m -> same_geom m m' -> shaped r c m'.
Proof.
  intros (Hw & Hr & Hc) Hg. split; [eapply same_geom_wf; eassumption|].
  destruct Hg as (_ & _ & -> & -> & _). tauto.
Qed.

Lemma same_geom_owning m m' : owning m -> same_geom m m' -> owning m'.
Proof.
  unfold owning, same_geom.
  intros (? & ? & ? & ?) (-> & -> & -> & -> & -> & -> & _). tauto.
Qed.

Lemma shaped_nonneg r c m : shaped r c m -> 0 <= r /\ 0 <= c.
Proof. intros ((? & ? & ? & ? & _) & <- & <-). lia. Qed.

Lemma At_ok m i j :
  wf m -> 0 <= i < rows_ m -> 0 <= j < cols_ m ->
  exists v, cell m i j = Some v /\ At m i j = Ok v.
Proof.
  intros Hw Hi Hj. unfold At, cell. rewrite At_index_ok by assumption. simpl.
  apply load_ok. eapply wf_index_bound; eassumption.
Qed.

Lemma set_At_ok m i j v :
  wf m -> 0 <= i < rows_ m -> 0 <= j < cols_ m ->
  exists m', set_At m i j v = Ok m' /\ same_geom m m' /\
    cell m' i j = Some v /\
    forall i' j', 0 <= i' < rows_ m -> 0 <= j' < cols_ m -> (i', j') <> (i, j) ->
      cell m' i' j' = cell m i' j'.
Proof.
  intros Hw Hi Hj. unfold set_At. rewrite At_index_ok by assumption. simpl.
  pose proof (wf_index_bound _ m i j Hw Hi Hj) as Hb.
  rewrite store_ok by assumption. simpl.
  eexists. split; [reflexivity|]. split; [|split].
  - unfold same_geom, with_data; simpl. rewrite length_insert. tauto.
  - unfold cell, with_data; simpl. apply list_lookup_insert_eq. lia.
  - intros i' j' Hi' Hj' Hne. unfold cell, with_data; simpl.
    apply list_lookup_insert_ne. intros E. apply Hne.
    apply Z2Nat.inj in E; [| lia |].
    + destruct (wf_index_inj _ m i j i' j' Hw Hi Hj Hi' Hj' E) as [-> ->]. reflexivity.
    + pose proof (wf_index_bound _ m i' j' Hw Hi' Hj'). lia.
Qed.

(** On a column vector, [m(i)] is [m(i, 0)]; on a row vector, [m(0, i)]. *)
Lemma At1_index_col (m : Mat T) n i :
  rows_ m = n -> cols_ m = 1 -> 0 <= i < n -> At1_index m i = At_index m i 0.
Proof.
  intros Hr Hc Hi. unfold At1_index, IsRowVector, IsColVector, Rows, Cols.
  rewrite Hr, Hc. destruct (Z.eqb_spec n 1) as [->|]; [|reflexivity].
  now replace i with 0 by lia.
Qed.

Lemma At1_col m n i :
  rows_ m = n -> cols_ m = 1 -> 0 <= i < n -> At1 m i = At m i 0.
Proof. intros. unfold At1, At. now erewrite At1_index_col by eassumption. Qed.

Lemma set_At1_col m n i v :
  rows_ m = n -> cols_ m = 1 -> 0 <= i < n -> set_At1 m i v = set_At m i 0 v.
Proof. intros. unfold set_At1, set_At. now erewrite At1_index_col by eassumption. Qed.
End Cells.

(** ** The matrix operations return, and what they return *)

Section ValueOps.
Context {T : Type} `{Scalar T}.
Implicit Types this a b lhs rhs other m : Mat T.

Lemma AssertEqualSizes_ok {D E : Type} r c (a : Matrix D) (b : Matrix E) :
  rows_ a = r -> cols_ a = c -> rows_ b = r -> cols_ b = c ->
  AssertEqualSizes a b = Ok tt.
Proof.
  intros E1 E2 E3 E4. unfold AssertEqualSizes, size_eqb; simpl.
  rewrite E1, E2, E3, E4, !Z.eqb_refl. reflexivity.
Qed.

Lemma Matrix_fill_ok n k v :
  0 <= n -> 0 <= k ->
  exists m, Matrix_fill n k v = Ok m /\ shaped n k m /\ owning m /\
    forall i j, 0 <= i < n -> 0 <= j < k -> cell m i j = Some v.
Proof.
  intros Hn Hk. unfold Matrix_fill.
  destruct (Z.ltb_spec (n * k) 0) as [|Hnk]; [nia|].
  set (this0 := {| data_ := replicate (Z.to_nat (n * k)) szero;
                   data_rows_ := n; data_cols_ := k; cols_ := k; rows_ := n;
                   offset_i_ := 0; offset_j_ := 0 |}).
  assert (Hw0 : wf this0).
  { unfold wf, wf_geom, this0; simpl. rewrite length_replicate. lia. }
  destruct (for2_todo_done (same_geom this0) (fun _ _ _ => True)
              (fun i j s => cell s i j = Some v) n k Cols
              (fun i j s => set_At s i j v) this0)
    as (m & E & Hg & Hd); try (exact I || apply same_geom_refl || (intros; exact I)).
  - intros s (_ & _ & Hc & _). exact Hc.
  - intros i j s Hi Hj Hs _.
    pose proof (same_geom_wf _ _ Hw0 Hs) as Hws.
    destruct Hs as (? & ? & Hc & Hr & ? & ? & ?).
    assert (Hr0 : rows_ this0 = n) by reflexivity.
    assert (Hc0 : cols_ this0 = k) by reflexivity.
    destruct (set_At_ok s i j v Hws) as (s' & E' & Hg' & Hv & Hfr); [lia..|].
    exists s'. split; [assumption|]. split; [|split; [assumption|]].
    + eapply same_geom_trans; [|eassumption]. unfold same_geom. tauto.
    + intros i' j' Hi' Hj' Hne. split; [tauto|].
      intros Hd. rewrite Hfr; [assumption|lia..|assumption].
  - exists m. split; [exact E|]. split; [|split; [|exact Hd]].
    + eapply same_geom_shaped; [|eassumption]. split; [exact Hw0|split; reflexivity].
    + eapply same_geom_owning; [|eassumption]. repeat split; reflexivity.
Qed.

Lemma Matrix_nm_ok n k :
  0 <= n -> 0 <= k ->
  exists m, Matrix_nm n k = Ok m /\ shaped n k m /\ owning m /\
    forall i j, 0 <= i < n -> 0 <= j < k -> cell m i j = Some szero.
Proof. apply Matrix_fill_ok. Qed.

Lemma Assign_ok r c this b :
  shaped r c this -> shaped r c b ->
  exists this', Assign this b = Ok this' /\ same_geom this this' /\
    forall i j, 0 <= i < r -> 0 <= j < c -> cell this' i j = cell b i j.
Proof.
  intros (Hw & Hr & Hc) (Hwb & Hrb & Hcb). unfold Assign.
  rewrite (AssertEqualSizes_ok r c) by assumption. simpl.
  destruct (for2_todo_done (same_geom this) (fun _ _ _ => True)
              (fun i j s => cell s i j = cell b i j) r c Cols
              (fun i j s => v <- At b i j ;; set_At s i j v) this)
    as (m & E & Hg & Hd); try (exact I || apply same_geom_refl || (intros; exact I)).
  - intros s (_ & _ & Hc' & _). unfold Cols. congruence.
  - intros i j s Hi Hj Hs _.
    pose proof (same_geom_wf _ _ Hw Hs) as Hws.
    destruct Hs as (? & ? & Hc' & Hr' & ? & ? & ?).
    destruct (At_ok b i j Hwb) as (v & Hv & ->); [lia..|]. simpl.
    destruct (set_At_ok s i j v Hws) as (s' & E' & Hg' & Hv' & Hfr); [lia..|].
    exists s'. split; [assumption|]. split; [|split; [congruence|]].
    + eapply same_geom_trans; [|eassumption]. unfold same_geom. tauto.
    + intros i' j' Hi' Hj' Hne. split; [tauto|].
      intros Hd. rewrite Hfr; [assumption|lia..|assumption].
  - exists m. unfold Rows. rewrite Hr. eauto.
Qed.

Lemma CopyFrom_ok r c other :
  shaped r c other ->
  exists m, CopyFrom other = Ok m /\ shaped r c m /\ owning m /\
    forall i j, 0 <= i < r -> 0 <= j < c -> cell m i j = cell other i j.
Proof.
  intros Ho. destruct (shaped_nonneg _ _ _ Ho) as [Hr Hc].
  pose proof Ho as (Hw & Er & Ec). unfold CopyFrom, Rows, Cols. rewrite Er, Ec.
  destruct (Matrix_nm_ok r c Hr Hc) as (m0 & -> & Hs0 & Hown & _). simpl.
  destruct (Assign_ok r c m0 other Hs0 Ho) as (m & -> & Hg & Hcells).
  exists m. split; [reflexivity|]. split; [eapply same_geom_shaped; eassumption|].
  split; [|assumption].
  eapply same_geom_owning; eassumption.
Qed.

(** The loops of [operator+=] and [operator-=], for the scalar's [f]. *)
Lemma zip_assign_ok (f : T -> T -> T) r c this a :
  shaped r c this -> shaped r c a ->
  exists this',
    for_ (Rows a) (fun i this =>
      for_ (Cols a) (fun j this =>
        x <- At a i j ;; y <- At this i j ;; set_At this i j (f y x)) this) this
    = Ok this' /\ same_geom this this' /\
    forall i j, 0 <= i < r -> 0 <= j < c ->
      exists x y, cell a i j = Some x /\ cell this i j = Some y /\
                  cell this' i j = Some (f y x).
Proof.
  intros (Hw & Hr & Hc) (Hwa & Hra & Hca).
  destruct (for2_todo_done (same_geom this) (fun i j s => cell s i j = cell this i j)
              (fun i j s => exists x y, cell a i j = Some x /\ cell this i j = Some y /\
                                        cell s i j = Some (f y x))
              r c (fun _ => Cols a)
              (fun i j s => x <- At a i j ;; y <- At s i j ;; set_At s i j (f y x)) this)
    as (m & E & Hg & Hd); try (apply same_geom_refl || reflexivity).
  - intros; assumption.
  - intros i j s Hi Hj Hs Htodo.
    pose proof (same_geom_wf _ _ Hw Hs) as Hws.
    destruct Hs as (? & ? & Hc' & Hr' & ? & ? & ?).
    destruct (At_ok a i j Hwa) as (x & Hx & ->); [lia..|]. simpl.
    destruct (At_ok s i j Hws) as (y & Hy & ->); [lia..|]. simpl.
    destruct (set_At_ok s i j (f y x) Hws) as (s' & E' & Hg' & Hv' & Hfr); [lia..|].
    exists s'. split; [assumption|]. split; [|split].
    + eapply same_geom_trans; [|eassumption]. unfold same_geom. tauto.
    + exists x, y. rewrite <- Htodo. tauto.
    + intros i' j' Hi' Hj' Hne. rewrite Hfr by (lia || assumption). tauto.
  - exists m. unfold Rows. rewrite Hra. eauto.
Qed.

Lemma plus_assign_ok r c this a :
  shaped r c this -> shaped r c a ->
  exists this', plus_assign this a = Ok this' /\ same_geom this this' /\
    forall i j, 0 <= i < r -> 0 <= j < c ->
      exists x y, cell a i j = Some x /\ cell this i j = Some y /\
                  cell this' i j = Some (sadd y x).
Proof.
  intros Ht Ha. unfold plus_assign.
  rewrite (AssertEqualSizes_ok r c) by (apply Ht || apply Ha). simpl.
  apply (zip_assign_ok sadd); assumption.
Qed.

Lemma minus_assign_ok r c this a :
  shaped r c this -> shaped r c a ->
  exists this', minus_assign this a = Ok this' /\ same_geom this this' /\
    forall i j, 0 <= i < r -> 0 <= j < c ->
      exists x y, cell a i j = Some x /\ cell this i j = Some y /\
                  cell this' i j = Some (ssub y x).
Proof.
  intros Ht Ha. unfold minus_assign.
  rewrite (AssertEqualSizes_ok r c) by (apply Ht || apply Ha). simpl.
  apply (zip_assign_ok ssub); assumption.
Qed.

Lemma scalar_assign_ok (f : T -> T) r c this :
  shaped r c this ->
  exists this', scalar_assign f this = Ok this' /\ same_geom this this' /\
    forall i j, 0 <= i < r -> 0 <= j < c -> cell this' i j = f <$> cell this i j.
Proof.
  intros (Hw & Hr & Hc). unfold scalar_assign.
  destruct (for2_todo_done (same_geom this) (fun i j s => cell s i j = cell this i j)
              (fun i j s => cell s i j = f <$> cell this i j)
              r c Cols
              (fun i j s => y <- At s i j ;; set_At s i j (f y)) this)
    as (m & E & Hg & Hd); try (apply same_geom_refl || reflexivity).
  - intros s (_ & _ & Hc' & _). unfold Cols. congruence.
  - intros i j s Hi Hj Hs Htodo.
    pose proof (same_geom_wf _ _ Hw Hs) as Hws.
    destruct Hs as (? & ? & Hc' & Hr' & ? & ? & ?).
    destruct (At_ok s i j Hws) as (y & Hy & ->); [lia..|]. simpl.
    destruct (set_At_ok s i j (f y) Hws) as (s' & E' & Hg' & Hv' & Hfr); [lia..|].
    exists s'. split; [assumption|]. split; [|split].
    + eapply same_geom_trans; [|eassumption]. unfold same_geom. tauto.
    + rewrite <- Htodo, Hy. assumption.
    + intros i' j' Hi' Hj' Hne. rewrite Hfr by (lia || assumption). tauto.
  - exists m. unfold Rows. rewrite Hr. eauto.
Qed.
End ValueOps.

Section ValueOps2.
Context {T : Type} `{Scalar T}.
Implicit Types this a b lhs rhs other m : Mat T.

Lemma op_plus_ok r c a b :
  shaped r c a -> shaped r c b ->
  exists m, op_plus a b = Ok m /\ shaped r c m /\ owning m /\
    forall i j, 0 <= i < r -> 0 <= j < c ->
      exists x y, cell a i j = Some x /\ cell b i j = Some y /\
                  cell m i j = Some (sadd x y).
Proof.
  intros Ha Hb. unfold op_plus.
  rewrite (AssertEqualSizes_ok r c) by (apply Ha || apply Hb). simpl.
  destruct (CopyFrom_ok r c a Ha) as (res & -> & Hres & Hown & Hcp). simpl.
  destruct (plus_assign_ok r c res b Hres Hb) as (m & -> & Hg & Hcells).
  exists m. split; [reflexivity|].
  split; [eapply same_geom_shaped; eassumption|].
  split; [eapply same_geom_owning; eassumption|].
  intros i j Hi Hj. destruct (Hcells i j Hi Hj) as (x & y & Hx & Hy & Hm).
  exists y, x. rewrite <- Hcp by assumption. tauto.
Qed.

Lemma op_minus_ok r c a b :
  shaped r c a -> shaped r c b ->
  exists m, op_minus a b = Ok m /\ shaped r c m /\ owning m /\
    forall i j, 0 <= i < r -> 0 <= j < c ->
      exists x y, cell a i j = Some x /\ cell b i j = Some y /\
                  cell m i j = Some (ssub x y).
Proof.
  intros Ha Hb. unfold op_minus.
  rewrite (AssertEqualSizes_ok r c) by (apply Ha || apply Hb). simpl.
  destruct (CopyFrom_ok r c a Ha) as (res & -> & Hres & Hown & Hcp). simpl.
  destruct (minus_assign_ok r c res b Hres Hb) as (m & -> & Hg & Hcells).
  exists m. split; [reflexivity|].
  split; [eapply same_geom_shaped; eassumption|].
  split; [eapply same_geom_owning; eassumption|].
  intros i j Hi Hj. destruct (Hcells i j Hi Hj) as (x & y & Hx & Hy & Hm).
  exists y, x. rewrite <- Hcp by assumption. tauto.
Qed.

(** The product of an [r x k] and a [k x c] matrix is an [r x c] matrix. *)
Lemma op_mul_ok r k c lhs rhs :
  shaped r k lhs -> shaped k c rhs ->
  exists m, op_mul lhs rhs = Ok m /\ shaped r c m /\ owning m.
Proof.
  intros Hl Hr. pose proof Hl as (Hwl & Erl & Ecl). pose proof Hr as (Hwr & Err & Ecr).
  destruct (shaped_nonneg _ _ _ Hl) as [Hr0 Hk0].
  destruct (shaped_nonneg _ _ _ Hr) as [_ Hc0].
  unfold op_mul, Rows, Cols. rewrite Ecl, Err, Z.eqb_refl, Erl, Ecr. simpl.
  destruct (Matrix_nm_ok r c Hr0 Hc0) as (m0 & -> & Hs0 & Hown & _). simpl.
  destruct (for_pres (same_geom m0) r
    (fun i result => for_ k (fun k0 result => for_ c (fun j result =>
       x <- At lhs i k0 ;; y <- At rhs k0 j ;; r0 <- At result i j ;;
       set_At result i j (sadd r0 (smul x y))) result) result) m0)
    as (m & E & Hg); [apply same_geom_refl| |].
  - intros i s Hi Hs. apply for_pres; [assumption|]. clear s Hs.
    intros k0 s Hk Hs. apply for_pres; [assumption|]. clear s Hs.
    intros j s Hj Hs.
    pose proof (same_geom_shaped _ _ _ _ Hs0 Hs) as (Hws & Ers & Ecs).
    destruct (At_ok lhs i k0 Hwl) as (x & _ & ->); [lia..|]. simpl.
    destruct (At_ok rhs k0 j Hwr) as (y & _ & ->); [lia..|]. simpl.
    destruct (At_ok s i j Hws) as (z & _ & ->); [lia..|]. simpl.
    destruct (set_At_ok s i j (sadd z (smul x y)) Hws) as (s' & -> & Hg' & _); [lia..|].
    exists s'. split; [reflexivity|]. eapply same_geom_trans; eassumption.
  - exists m. split; [exact E|].
    split; [eapply same_geom_shaped; eassumption|eapply same_geom_owning; eassumption].
Qed.

(** [CopyFrom] followed by a cell-wise update. *)
Lemma copy_scalar_assign_ok (f : T -> T) r c lhs :
  shaped r c lhs ->
  exists m, (result <- CopyFrom lhs ;; scalar_assign f result) = Ok m /\
    shaped r c m /\ owning m /\ mapped_cells f lhs m.
Proof.
  intros Hl. destruct (CopyFrom_ok r c lhs Hl) as (res & -> & Hres & Hown & Hcp). simpl.
  destruct (scalar_assign_ok f r c res Hres) as (m & -> & Hg & Hcells).
  exists m. split; [reflexivity|].
  pose proof (same_geom_shaped _ _ _ _ Hres Hg) as Hm.
  split; [assumption|]. split; [eapply same_geom_owning; eassumption|].
  destruct Hl as (_ & Er & Ec). destruct Hm as (_ & Er' & Ec').
  split; [congruence|]. split; [congruence|].
  intros i j Hi Hj. rewrite Hcells, Hcp by lia. reflexivity.
Qed.

Lemma op_mul_scalar_ok r c lhs (x : T) :
  shaped r c lhs ->
  exists m, op_mul_scalar lhs x = Ok m /\ shaped r c m /\ owning m /\
    mapped_cells (fun v => smul v x) lhs m.
Proof. apply copy_scalar_assign_ok. Qed.

Lemma op_div_scalar_ok r c lhs (x : T) :
  shaped r c lhs ->
  exists m, op_div_scalar lhs x = Ok m /\ shaped r c m /\ owning m /\
    mapped_cells (fun v => sdiv v x) lhs m.
Proof. apply copy_scalar_assign_ok. Qed.

Lemma op_mul_int_ok r c lhs (x : Z) :
  shaped r c lhs ->
  exists m, op_mul_int lhs x = Ok m /\ shaped r c m /\ owning m /\
    mapped_cells (fun v => smul_int v x) lhs m.
Proof. apply copy_scalar_assign_ok. Qed.

(** Reading and writing a column vector by a single index. *)
Lemma At1_ok n m i :
  shaped n 1 m -> 0 <= i < n ->
  exists v, cell m i 0 = Some v /\ At1 m i = Ok v.
Proof.
  intros (Hw & Hr & Hc) Hi. rewrite (At1_col m n) by assumption.
  apply At_ok; [assumption|lia..].
Qed.

Lemma set_At1_ok n m i v :
  shaped n 1 m -> 0 <= i < n ->
  exists m', set_At1 m i v = Ok m' /\ same_geom m m' /\ cell m' i 0 = Some v /\
    forall i', 0 <= i' < n -> i' <> i -> cell m' i' 0 = cell m i' 0.
Proof.
  intros (Hw & Hr & Hc) Hi. rewrite (set_At1_col m n) by assumption.
  destruct (set_At_ok m i 0 v Hw) as (m' & -> & Hg & Hv & Hfr); [lia..|].
  exists m'. split; [reflexivity|]. split; [assumption|]. split; [assumption|].
  intros i' Hi' Hne. apply Hfr; [lia..|]. congruence.
Qed.

(** The dot product of two column vectors of [n >= 1] cells. *)
Lemma ScalarProduct_ok n this b :
  1 <= n -> shaped n 1 this -> shaped n 1 b ->
  exists v, ScalarProduct this b = Ok v.
Proof.
  intros Hn Ht Hb. pose proof Ht as (_ & Er & Ec). pose proof Hb as (_ & Erb & Ecb).
  unfold ScalarProduct, IsVector, IsColVector, IsRowVector, Rows, Cols.
  rewrite Ec, Ecb. simpl.
  rewrite (AssertEqualSizes_ok n 1) by assumption. simpl.
  rewrite Er. replace (Z.max 1 n) with n by lia.
  destruct (for_pres (fun _ => True) n
    (fun i ans => x <- At1 this i ;; y <- At1 b i ;; Ok (sadd ans (smul x y))) szero)
    as (v & E & _); [exact I| |eauto].
  intros i s Hi _.
  destruct (At1_ok n this i Ht Hi) as (x & _ & ->). simpl.
  destruct (At1_ok n b i Hb Hi) as (y & _ & ->). simpl. eauto.
Qed.
End ValueOps2.

Lemma ToComplex_ok {R C : Type} `{ComplexScalar R C} r c (this : Mat R) :
  shaped r c this ->
  exists m, ToComplex this = Ok m /\ shaped r c m /\ owning m /\
    mapped_cells cof_real this m.
Proof.
  intros Ht. pose proof Ht as (Hw & Er & Ec).
  destruct (shaped_nonneg _ _ _ Ht) as [Hr0 Hc0].
  unfold ToComplex, Rows, Cols. rewrite Er, Ec.
  destruct (Matrix_nm_ok (T := C) r c Hr0 Hc0) as (m0 & -> & Hs0 & Hown & _). simpl.
  pose proof Hs0 as (Hw0 & Er0 & Ec0).
  destruct (for2_todo_done (same_geom m0) (fun _ _ _ => True)
              (fun i j s => cell s i j = cof_real <$> cell this i j) r c (fun _ => c)
              (fun i j s => v <- At this i j ;; set_At s i j (cof_real v)) m0)
    as (m & E & Hg & Hd); try (exact I || apply same_geom_refl || (intros; exact I)).
  - reflexivity.
  - intros i j s Hi Hj Hs _.
    pose proof (same_geom_shaped _ _ _ _ Hs0 Hs) as (Hws & Ers & Ecs).
    destruct (At_ok this i j Hw) as (v & Hv & ->); [lia..|]. simpl.
    destruct (set_At_ok s i j (cof_real v) Hws) as (s' & -> & Hg' & Hv' & Hfr); [lia..|].
    exists s'. split; [reflexivity|]. split; [|split].
    + eapply same_geom_trans; eassumption.
    + rewrite Hv. assumption.
    + intros i' j' Hi' Hj' Hne. split; [tauto|].
      intros Hd. rewrite Hfr; [assumption|lia..|assumption].
  - exists m. split; [exact E|].
    pose proof (same_geom_shaped _ _ _ _ Hs0 Hg) as Hm.
    split; [assumption|]. split; [eapply same_geom_owning; eassumption|].
    destruct Hm as (_ & Er' & Ec'). split; [congruence|]. split; [congruence|].
    intros i j Hi Hj. apply Hd; lia.
Qed.

(** ** The solvers return on well-shaped input *)

Section SolverLemmas.
Context {R C : Type} {RS : RealScalar R} {CS : ComplexScalar R C} {EX : Externals R C}
        {epsR : MatrixEps R} {epsC : MatrixEps C}.

(** One step of Method 2 overwrites the cells of [y] with the product
    [a2 * u] and rescales [u]. *)
Lemma PowerIterationMethod2Iteration_ok n (a a2 u y : Mat R) :
  1 <= n -> shaped n n a2 -> shaped n 1 u -> shaped n 1 y ->
  exists p lambda u' y',
    op_mul a2 u = Ok p /\
    PowerIterationMethod2Iteration a a2 u y = Ok (lambda, u', y') /\
    same_geom u u' /\ same_geom y y' /\
    forall i, 0 <= i < n -> cell y' i 0 = cell p i 0.
Proof.
  intros Hn Ha2 Hu Hy. unfold PowerIterationMethod2Iteration.
  destruct (op_mul_ok n n 1 a2 u Ha2 Hu) as (p & Ep & Hp & _). rewrite Ep. simpl.
  destruct (Assign_ok n 1 y p Hy Hp) as (y' & -> & Hgy & Hcy). simpl.
  pose proof (same_geom_shaped _ _ _ _ Hy Hgy) as Hy'.
  destruct (op_div_scalar_ok n 1 y' (EuclideanNorm y') Hy') as (q & -> & Hq & _). simpl.
  destruct (Assign_ok n 1 u q Hu Hq) as (u' & -> & Hgu & _). simpl.
  pose proof (same_geom_shaped _ _ _ _ Hu Hgu) as Hu'.
  destruct (op_mul_ok n n 1 a2 u' Ha2 Hu') as (p' & -> & Hp' & _). simpl.
  destruct (ScalarProduct_ok n u' p' Hn Hu' Hp') as (l & ->). simpl.
  exists p, l, u', y'.
  split; [reflexivity|]. split; [reflexivity|]. split; [assumption|]. split; [assumption|].
  intros i Hi. apply Hcy; lia.
Qed.

Lemma PowerIterationMethod1Iteration_ok n (a u y : Mat R) :
  1 <= n -> shaped n n a -> shaped n 1 u -> shaped n 1 y ->
  exists lambda u' y',
    PowerIterationMethod1Iteration a u y = Ok (lambda, u', y') /\
    same_geom u u' /\ same_geom y y'.
Proof.
  intros Hn Ha Hu Hy. unfold PowerIterationMethod1Iteration.
  destruct (op_mul_ok n n 1 a u Ha Hu) as (p & -> & Hp & _). simpl.
  destruct (Assign_ok n 1 y p Hy Hp) as (y' & -> & Hgy & Hcy). simpl.
  pose proof (same_geom_shaped _ _ _ _ Hy Hgy) as Hy'.
  destruct (op_div_scalar_ok n 1 y' (EuclideanNorm y') Hy') as (q & -> & Hq & _). simpl.
  destruct (Assign_ok n 1 u q Hu Hq) as (u' & -> & Hgu & _). simpl.
  pose proof (same_geom_shaped _ _ _ _ Hu Hgu) as Hu'.
  destruct (op_mul_ok n n 1 a u' Ha Hu') as (p' & -> & Hp' & _). simpl.
  destruct (ScalarProduct_ok n u' p' Hn Hu' Hp') as (l & ->). simpl.
  exists l, u', y'. split; [reflexivity|]. split; assumption.
Qed.

(** The loops leave through their exits: the steps they are given are
    enough, and the counter only grows. *)
Lemma method2_loop_ok n (a a2 : Mat R) max_iters eps :
  1 <= n -> shaped n n a2 ->
  forall fuel prev lambda u y iter,
    shaped n 1 u -> shaped n 1 y ->
    (1 <= fuel)%nat -> max_iters < iter + Z.of_nat fuel ->
    exists lambda' u' y' iter',
      method2_loop fuel a a2 max_iters eps prev lambda u y iter
      = Ok (lambda', u', y', iter') /\
      shaped n 1 u' /\ shaped n 1 y' /\
      iter <= iter' <= Z.max (iter + 1) (max_iters + 1).
Proof.
  intros Hn Ha2. induction fuel as [|fuel IH]; intros prev lambda u y iter Hu Hy Hf Hm; [lia|].
  simpl. destruct (rgt (rabs (ssub lambda prev)) eps).
  - destruct (PowerIterationMethod2Iteration_ok n a a2 u y Hn Ha2 Hu Hy)
      as (p & l & u' & y' & _ & -> & Hgu & Hgy & _). simpl.
    pose proof (same_geom_shaped _ _ _ _ Hu Hgu) as Hu'.
    pose proof (same_geom_shaped _ _ _ _ Hy Hgy) as Hy'.
    destruct (Z.ltb_spec max_iters (iter + 1)) as [Hlt|Hge];
      rewrite Z.gtb_ltb; [apply Z.ltb_lt in Hlt|apply Z.ltb_ge in Hge]; rewrite ?Hlt, ?Hge.
    + eexists _, _, _, _. split; [reflexivity|]. split; [assumption|]. split; [assumption|]. lia.
    + apply Z.ltb_ge in Hge.
      destruct (IH lambda (rsqrt (rabs l)) u' y' (iter + 1) Hu' Hy') as
        (l' & u'' & y'' & it' & -> & ? & ? & ?); [lia..|].
      eexists _, _, _, _. split; [reflexivity|]. split; [assumption|]. split; [assumption|]. lia.
  - eexists _, _, _, _. split; [reflexivity|]. split; [assumption|]. split; [assumption|]. lia.
Qed.

Lemma method1_loop_ok n (a : Mat R) max_iters :
  1 <= n -> shaped n n a ->
  forall fuel prev lambda u y iter,
    shaped n 1 u -> shaped n 1 y ->
    (1 <= fuel)%nat -> max_iters < iter + Z.of_nat fuel ->
    exists lambda' u' y' iter',
      method1_loop fuel a max_iters prev lambda u y iter
      = Ok (lambda', u', y', iter') /\
      shaped n 1 u' /\ shaped n 1 y' /\
      iter <= iter' <= Z.max (iter + 1) (max_iters + 1).
Proof.
  intros Hn Ha. induction fuel as [|fuel IH]; intros prev lambda u y iter Hu Hy Hf Hm; [lia|].
  simpl. destruct (rgt (rabs (ssub prev lambda)) GetEps).
  - destruct (PowerIterationMethod1Iteration_ok n a u y Hn Ha Hu Hy)
      as (l & u' & y' & -> & Hgu & Hgy). simpl.
    pose proof (same_geom_shaped _ _ _ _ Hu Hgu) as Hu'.
    pose proof (same_geom_shaped _ _ _ _ Hy Hgy) as Hy'.
    destruct (Z.ltb_spec max_iters (iter + 1)) as [Hlt|Hge];
      rewrite Z.gtb_ltb; [apply Z.ltb_lt in Hlt|apply Z.ltb_ge in Hge]; rewrite ?Hlt, ?Hge.
    + eexists _, _, _, _. split; [reflexivity|]. split; [assumption|]. split; [assumption|]. lia.
    + apply Z.ltb_ge in Hge.
      destruct (IH lambda l u' y' (iter + 1) Hu' Hy') as
        (l' & u'' & y'' & it' & -> & ? & ? & ?); [lia..|].
      eexists _, _, _, _. split; [reflexivity|]. split; [assumption|]. split; [assumption|]. lia.
  - eexists _, _, _, _. split; [reflexivity|]. split; [assumption|]. split; [assumption|]. lia.
Qed.

Lemma method2_candidate_ok n c lambda (a a2 u : Mat R) :
  shaped n n a -> shaped n n a2 -> shaped n 1 u ->
  exists v, method2_candidate c lambda a a2 u = Ok v /\ shaped n 1 v.
Proof.
  intros Ha Ha2 Hu. unfold method2_candidate, scalar_op_mul.
  destruct (op_mul_scalar_ok n n a c Ha) as (ca & -> & Hca & _). simpl.
  destruct (op_mul_ok n n 1 ca u Hca Hu) as (cau & -> & Hcau & _). simpl.
  destruct (op_mul_ok n n 1 a2 u Ha2 Hu) as (a2u & -> & Ha2u & _). simpl.
  destruct (op_plus_ok n 1 cau a2u Hcau Ha2u) as (s & -> & Hs & _). simpl.
  destruct (op_div_scalar_ok n 1 s (smul (smul (sof_int 2) lambda) lambda) Hs)
    as (v & -> & Hv & _).
  eauto.
Qed.

(** The list of accepted candidates: at most two entries, [+lambda]
    first. *)
Lemma method2_accept_ok n eps lambda (v1 v2 : Mat R) :
  shaped n 1 v1 -> shaped n 1 v2 ->
  exists c1 c2,
    ToComplex v1 = Ok c1 /\ ToComplex v2 = Ok c2 /\
    method2_accept eps lambda v1 v2 =
      Ok ((if rgt (EuclideanNorm v1) eps then [(cof_real lambda, c1)] else [])
          ++ (if rgt (EuclideanNorm v2) eps then [(cof_real (rneg lambda), c2)] else [])).
Proof.
  intros H1 H2. unfold method2_accept.
  destruct (ToComplex_ok n 1 v1 H1) as (c1 & E1 & _).
  destruct (ToComplex_ok n 1 v2 H2) as (c2 & E2 & _).
  exists c1, c2. rewrite E1, E2. split; [reflexivity|]. split; [reflexivity|].
  destruct (rgt (EuclideanNorm v1) eps), (rgt (EuclideanNorm v2) eps); reflexivity.
Qed.
End SolverLemmas.

Section SolverTotal.
Context {R C : Type} {RS : RealScalar R} {CS : ComplexScalar R C} {EX : Externals R C}
        {epsR : MatrixEps R} {epsC : MatrixEps C}.

#[local] Arguments method1_loop : simpl never.
#[local] Arguments method2_loop : simpl never.
#[local] Arguments method3_loop : simpl never.

(** The seed [e0] of the dispatcher. *)
Lemma seed_ok n (a : Mat R) :
  1 <= n -> rows_ a = n ->
  exists y, seed a = Ok y /\ shaped n 1 y /\ owning y /\
    cell y 0 0 = Some (sof_int 1) /\
    forall i, 1 <= i < n -> cell y i 0 = Some szero.
Proof.
  intros Hn Er. unfold seed, Rows. rewrite Er.
  destruct (Matrix_nm_ok (T := R) n 1) as (y0 & -> & Hy0 & Hown & Hz); [lia..|]. simpl.
  destruct (set_At1_ok n y0 0 (sof_int 1) Hy0) as (y & -> & Hg & Hv & Hfr); [lia|].
  exists y. split; [reflexivity|]. split; [eapply same_geom_shaped; eassumption|].
  split; [eapply same_geom_owning; eassumption|]. split; [assumption|].
  intros i Hi. rewrite Hfr by lia. apply Hz; lia.
Qed.

(** Method 2 returns: the state at the exit of its loop, the two
    candidates, and what it returns from them. *)
Lemma PowerMethodEigenvalues2_ok n (a y : Mat R) iters max_iters eps :
  1 <= n -> shaped n n a -> shaped n 1 y ->
  exists a2 u0 sp lambda u y' iter v1 v2 c1 c2,
    op_mul a a = Ok a2 /\ shaped n n a2 /\
    op_div_scalar y (EuclideanNorm y) = Ok u0 /\
    (p <- op_mul a2 u0 ;; ScalarProduct u0 p) = Ok sp /\
    method2_loop (S (Z.to_nat max_iters)) a a2 max_iters eps
      r1e18 (rsqrt (rabs sp)) u0 y 0 = Ok (lambda, u, y', iter) /\
    0 <= iter <= Z.max 1 (max_iters + 1) /\ shaped n 1 u /\ shaped n 1 y' /\
    method2_candidate lambda lambda a a2 u = Ok v1 /\
    method2_candidate (rneg lambda) lambda a a2 u = Ok v2 /\
    ToComplex v1 = Ok c1 /\ ToComplex v2 = Ok c2 /\
    let ans :=
      (if rgt (EuclideanNorm v1) eps then [(cof_real lambda, c1)] else [])
      ++ (if rgt (EuclideanNorm v2) eps then [(cof_real (rneg lambda), c2)] else []) in
    PowerMethodEigenvalues2 a y iters max_iters eps
    = Ok (ans, y', reported iters iter max_iters (empty ans)).
Proof.
  intros Hn Ha Hy. pose proof Ha as (_ & Er & Ec).
  unfold PowerMethodEigenvalues2, IsSquare, Rows, Cols. rewrite Er, Ec, Z.eqb_refl. simpl.
  destruct (op_mul_ok n n n a a Ha Ha) as (a2 & Ea2 & Ha2 & _). rewrite Ea2. simpl.
  destruct (op_div_scalar_ok n 1 y (EuclideanNorm y) Hy) as (u0 & Eu0 & Hu0 & _).
  rewrite Eu0. simpl.
  destruct (op_mul_ok n n 1 a2 u0 Ha2 Hu0) as (p & Ep & Hp & _). rewrite Ep. simpl.
  destruct (ScalarProduct_ok n u0 p Hn Hu0 Hp) as (sp & Esp). rewrite Esp. simpl.
  destruct (CopyFrom_ok n 1 u0 Hu0) as (cp & -> & _). simpl.
  destruct (method2_loop_ok n a a2 max_iters eps Hn Ha2 (S (Z.to_nat max_iters))
              r1e18 (rsqrt (rabs sp)) u0 y 0 Hu0 Hy)
    as (lambda & u & y' & iter & El & Hu & Hy' & Hiter); [lia..|].
  rewrite El. simpl.
  destruct (method2_candidate_ok n lambda lambda a a2 u Ha Ha2 Hu) as (v1 & Ev1 & Hv1).
  destruct (method2_candidate_ok n (rneg lambda) lambda a a2 u Ha Ha2 Hu) as (v2 & Ev2 & Hv2).
  rewrite Ev1. simpl. rewrite Ev2. simpl.
  destruct (method2_accept_ok n eps lambda v1 v2 Hv1 Hv2) as (c1 & c2 & Ec1 & Ec2 & Eacc).
  rewrite Eacc. simpl.
  exists a2, u0, sp, lambda, u, y', iter, v1, v2, c1, c2.
  rewrite Ep. simpl.
  repeat (split; [first [reflexivity | assumption | lia]|]).
  reflexivity.
Qed.

(** Method 1 returns. *)
Lemma PowerMethodEigenvalues1_ok n (a y : Mat R) iters max_iters :
  1 <= n -> shaped n n a -> shaped n 1 y ->
  exists y1 u0 l0 lambda u y' iter,
    set_At1 y 0 (sof_int 1) = Ok y1 /\
    op_div_scalar y1 (EuclideanNorm y1) = Ok u0 /\
    (p <- op_mul a u0 ;; ScalarProduct u0 p) = Ok l0 /\
    method1_loop (S (Z.to_nat max_iters)) a max_iters r1e18 l0 u0 y1 0
    = Ok (lambda, u, y', iter) /\
    0 <= iter <= Z.max 1 (max_iters + 1) /\ shaped n 1 u /\
    PowerMethodEigenvalues1 a y iters max_iters
    = Ok (lambda, u,
          reported iters iter max_iters (rlt (EuclideanNorm u) GetEps)).
Proof.
  intros Hn Ha Hy. pose proof Ha as (_ & Er & Ec).
  unfold PowerMethodEigenvalues1, IsSquare, Rows, Cols. rewrite Er, Ec, Z.eqb_refl. simpl.
  destruct (set_At1_ok n y 0 (sof_int 1) Hy) as (y1 & Ey1 & Hg & _); [lia|].
  rewrite Ey1. simpl.
  pose proof (same_geom_shaped _ _ _ _ Hy Hg) as Hy1.
  destruct (op_div_scalar_ok n 1 y1 (EuclideanNorm y1) Hy1) as (u0 & Eu0 & Hu0 & _).
  rewrite Eu0. simpl.
  destruct (op_mul_ok n n 1 a u0 Ha Hu0) as (p & Ep & Hp & _). rewrite Ep. simpl.
  destruct (ScalarProduct_ok n u0 p Hn Hu0 Hp) as (l0 & El0). rewrite El0. simpl.
  destruct (method1_loop_ok n a max_iters Hn Ha (S (Z.to_nat max_iters))
              r1e18 l0 u0 y1 0 Hu0 Hy1)
    as (lambda & u & y' & iter & El & Hu & Hy' & Hiter); [lia..|].
  rewrite El. simpl.
  exists y1, u0, l0, lambda, u, y', iter. rewrite Ep. simpl.
  repeat (split; [first [reflexivity | assumption | lia]|]).
  reflexivity.
Qed.
End SolverTotal.

Section Method3.
Context {R C : Type} {RS : RealScalar R} {CS : ComplexScalar R C} {EX : Externals R C}
        {epsR : MatrixEps R} {epsC : MatrixEps C}.

(** The linear system of one step of Method 3: row [i] of [l] holds the
    real parts of [u(i)] and [(a * u)(i)], and [r(i)] the real part of
    [((-1 * squared_a) * u)(i)]. *)
Lemma method3_system_ok n (a squared_a u : Mat C) :
  shaped n n a -> shaped n n squared_a -> shaped n 1 u ->
  exists l r au m rc,
    op_mul a u = Ok au /\ int_op_mul (-1) squared_a = Ok m /\ op_mul m u = Ok rc /\
    mapped_cells (fun v => smul_int v (-1)) squared_a m /\
    method3_system a squared_a u = Ok (l, r) /\
    shaped n 2 l /\ shaped n 1 r /\
    forall i, 0 <= i < n ->
      cell l i 0 = creal <$> cell u i 0 /\
      cell l i 1 = creal <$> cell au i 0 /\
      cell r i 0 = creal <$> cell rc i 0.
Proof.
  intros Ha Ha2 Hu. pose proof Hu as (_ & Eru & _).
  destruct (shaped_nonneg _ _ _ Hu) as [Hn0 _].
  unfold method3_system, Rows. rewrite Eru.
  destruct (Matrix_nm_ok (T := R) n 2) as (l0 & -> & Hl0 & _); [lia..|]. simpl.
  destruct (op_mul_ok n n 1 a u Ha Hu) as (au & Eau & Hau & _). rewrite Eau. simpl.
  destruct (for_inv (fun i s => same_geom l0 s /\
              forall i', 0 <= i' < i ->
                cell s i' 0 = creal <$> cell u i' 0 /\
                cell s i' 1 = creal <$> cell au i' 0) n
             (fun i l => ui <- At1 u i ;; l <- set_At l i 0 (creal ui) ;;
                         aui <- At1 au i ;; set_At l i 1 (creal aui)) l0)
    as (l & El & Hgl & Hl).
  { split; [apply same_geom_refl|]. intros; lia. }
  { intros i s Hi (Hg & Hdone).
    pose proof (same_geom_shaped _ _ _ _ Hl0 Hg) as (Hws & Ers & Ecs).
    destruct (At1_ok n u i Hu Hi) as (ui & Hui & ->). simpl.
    destruct (set_At_ok s i 0 (creal ui) Hws) as (s1 & -> & Hg1 & Hv1 & Hfr1); [lia..|]. simpl.
    pose proof (same_geom_shaped _ _ _ _ (conj Hws (conj Ers Ecs)) Hg1) as (Hws1 & Ers1 & Ecs1).
    destruct (At1_ok n au i Hau Hi) as (aui & Haui & ->). simpl.
    destruct (set_At_ok s1 i 1 (creal aui) Hws1) as (s2 & -> & Hg2 & Hv2 & Hfr2); [lia..|].
    exists s2. split; [reflexivity|]. split.
    - eapply same_geom_trans; [|eassumption]. eapply same_geom_trans; eassumption.
    - intros i' Hi'. destruct (Z.eq_dec i' i) as [->|Hne].
      + rewrite Hfr2 by (lia || congruence). rewrite Hv1, Hv2, Hui, Haui. tauto.
      + rewrite !Hfr2 by (lia || congruence). rewrite !Hfr1 by (lia || congruence).
        apply Hdone. lia. }
  rewrite El. simpl.
  unfold int_op_mul.
  destruct (op_mul_int_ok n n squared_a (-1) Ha2) as (m & Em & Hm & _ & Hmc).
  rewrite Em. simpl.
  destruct (op_mul_ok n n 1 m u Hm Hu) as (rc & Erc & Hrc & _). rewrite Erc. simpl.
  destruct (Matrix_nm_ok (T := R) n 1) as (r0 & -> & Hr0 & _); [lia..|]. simpl.
  destruct (for_inv (fun i s => same_geom r0 s /\
              forall i', 0 <= i' < i -> cell s i' 0 = creal <$> cell rc i' 0) n
             (fun i r => rci <- At1 rc i ;; set_At1 r i (creal rci)) r0)
    as (r & Er & Hgr & Hr).
  { split; [apply same_geom_refl|]. intros; lia. }
  { intros i s Hi (Hg & Hdone).
    pose proof (same_geom_shaped _ _ _ _ Hr0 Hg) as Hs.
    destruct (At1_ok n rc i Hrc Hi) as (rci & Hrci & ->). simpl.
    destruct (set_At1_ok n s i (creal rci) Hs Hi) as (s1 & -> & Hg1 & Hv1 & Hfr1).
    exists s1. split; [reflexivity|]. split.
    - eapply same_geom_trans; eassumption.
    - intros i' Hi'. destruct (Z.eq_dec i' i) as [->|Hne].
      + rewrite Hv1, Hrci. reflexivity.
      + rewrite Hfr1 by lia. apply Hdone. lia. }
  rewrite Er. simpl.
  exists l, r, au, m, rc.
  do 5 (split; [first [reflexivity | assumption]|]).
  split; [eapply same_geom_shaped; eassumption|].
  split; [eapply same_geom_shaped; eassumption|].
  intros i Hi. rewrite Z.max_r in Hl, Hr by lia.
  destruct (Hl i Hi) as [-> ->]. rewrite (Hr i Hi). tauto.
Qed.

Lemma PowerMethodEigenvaluesComplexIteration_ok n (a squared_a y u : Mat C) :
  MinimalSquareProblem_shape ->
  shaped n n a -> shaped n n squared_a -> shaped n 1 y -> shaped n 1 u ->
  exists au q y' u' l r c1 c0,
    op_mul a u = Ok au /\ Assign y au = Ok y' /\
    op_div_scalar y' (EuclideanNormC y') = Ok q /\ Assign u q = Ok u' /\
    same_geom y y' /\ same_geom u u' /\
    method3_system a squared_a u' = Ok (l, r) /\
    At1 (MinimalSquareProblem l r) 1 = Ok c1 /\
    At1 (MinimalSquareProblem l r) 0 = Ok c0 /\
    PowerMethodEigenvaluesComplexIteration a squared_a y u
    = Ok (fst (SolveQuadraticEquation (sof_int 1) c1 c0),
          snd (SolveQuadraticEquation (sof_int 1) c1 c0), y', u').
Proof.
  intros Hmsp Ha Ha2 Hy Hu. unfold PowerMethodEigenvaluesComplexIteration.
  destruct (op_mul_ok n n 1 a u Ha Hu) as (au & Eau & Hau & _). rewrite Eau. simpl.
  destruct (Assign_ok n 1 y au Hy Hau) as (y' & Ey' & Hgy & _). rewrite Ey'. simpl.
  pose proof (same_geom_shaped _ _ _ _ Hy Hgy) as Hy'.
  destruct (op_div_scalar_ok n 1 y' (EuclideanNormC y') Hy') as (q & Eq & Hq & _).
  rewrite Eq. simpl.
  destruct (Assign_ok n 1 u q Hu Hq) as (u' & Eu' & Hgu & _). rewrite Eu'. simpl.
  pose proof (same_geom_shaped _ _ _ _ Hu Hgu) as Hu'.
  destruct (method3_system_ok n a squared_a u' Ha Ha2 Hu')
    as (l & r & au' & m & rc & _ & _ & _ & _ & Esys & Hl & Hr & _).
  rewrite Esys. simpl.
  pose proof (Hmsp n l r Hl Hr) as Hc.
  destruct (At1_ok 2 _ 1 Hc) as (c1 & _ & Ec1); [lia|].
  destruct (At1_ok 2 _ 0 Hc) as (c0 & _ & Ec0); [lia|].
  rewrite Ec1. simpl. rewrite Ec0. simpl.
  exists au, q, y', u', l, r, c1, c0.
  repeat (split; [first [reflexivity | assumption]|]). reflexivity.
Qed.

Lemma method3_loop_ok n (a squared_a : Mat C) max_iters :
  MinimalSquareProblem_shape ->
  shaped n n a -> shaped n n squared_a ->
  forall fuel prev_r1 r1 prev_r2 r2 y u iter,
    shaped n 1 y -> shaped n 1 u ->
    (1 <= fuel)%nat -> max_iters < iter + Z.of_nat fuel ->
    exists r1' r2' u' iter',
      method3_loop fuel a squared_a max_iters prev_r1 r1 prev_r2 r2 y u iter
      = Ok (r1', r2', u', iter') /\
      shaped n 1 u' /\ iter <= iter' <= Z.max (iter + 1) (max_iters + 1).
Proof.
  intros Hmsp Ha Ha2.
  induction fuel as [|fuel IH]; intros prev_r1 r1 prev_r2 r2 y u iter Hy Hu Hf Hm; [lia|].
  simpl.
  destruct (rgt (cabs (ssub prev_r1 r1)) (rabs GetEps)
            || rgt (cabs (ssub prev_r2 r2)) (rabs GetEps)).
  - destruct (PowerMethodEigenvaluesComplexIteration_ok n a squared_a y u Hmsp Ha Ha2 Hy Hu)
      as (au & q & y' & u' & l & r & c1 & c0 & _ & _ & _ & _ & Hgy & Hgu & _ & _ & _ & ->).
    simpl.
    pose proof (same_geom_shaped _ _ _ _ Hu Hgu) as Hu'.
    pose proof (same_geom_shaped _ _ _ _ Hy Hgy) as Hy'.
    destruct (Z.ltb_spec max_iters (iter + 1)) as [Hlt|Hge];
      rewrite Z.gtb_ltb; [apply Z.ltb_lt in Hlt|apply Z.ltb_ge in Hge]; rewrite ?Hlt, ?Hge.
    + eexists _, _, _, _. split; [reflexivity|]. split; [assumption|]. lia.
    + apply Z.ltb_ge in Hge.
      destruct (IH r1 (fst (SolveQuadraticEquation (sof_int 1) c1 c0))
                   r2 (snd (SolveQuadraticEquation (sof_int 1) c1 c0))
                   y' u' (iter + 1) Hy' Hu') as (r1' & r2' & u'' & it' & -> & ? & ?); [lia..|].
      eexists _, _, _, _. split; [reflexivity|]. split; [assumption|]. lia.
  - eexists _, _, _, _. split; [reflexivity|]. split; [assumption|]. lia.
Qed.

#[local] Arguments method3_loop : simpl never.

Lemma method3_vectors_ok n r1 r2 (u u1 u2 : Mat C) :
  shaped n 1 u -> shaped n 1 u1 -> shaped n 1 u2 ->
  exists v1 v2, method3_vectors r1 r2 u u1 u2 = Ok (v1, v2) /\
                shaped n 1 v1 /\ shaped n 1 v2.
Proof.
  intros Hu Hu1 Hu2. pose proof Hu as (_ & Eru & _).
  destruct (shaped_nonneg _ _ _ Hu) as [Hn0 _].
  unfold method3_vectors, Rows. rewrite Eru.
  destruct (Matrix_nm_ok (T := C) n 1) as (v10 & -> & Hv10 & _); [lia..|]. simpl.
  destruct (for_pres (fun v : Mat C * Mat C => shaped n 1 (fst v) /\ shaped n 1 (snd v)) n
    (fun i v =>
       u2i <- At1 u2 i ;; u1i <- At1 u1 i ;;
       v1 <- set_At1 (fst v) i (ssub u2i (smul r2 u1i)) ;;
       u1i <- At1 u1 i ;; u2i <- At1 u2 i ;;
       v2 <- set_At1 (snd v) i (ssub u1i (sdiv u2i r1)) ;;
       Ok (v1, v2)) (v10, v10)) as ([v1 v2] & E & Hv1 & Hv2).
  - split; assumption.
  - intros i [w1 w2] Hi [Hw1 Hw2]. simpl in *.
    destruct (At1_ok n u2 i Hu2 Hi) as (x2 & _ & ->). simpl.
    destruct (At1_ok n u1 i Hu1 Hi) as (x1 & _ & ->). simpl.
    destruct (set_At1_ok n w1 i (ssub x2 (smul r2 x1)) Hw1 Hi) as (w1' & -> & Hg1 & _). simpl.
    destruct (set_At1_ok n w2 i (ssub x1 (sdiv x2 r1)) Hw2 Hi) as (w2' & -> & Hg2 & _). simpl.
    eexists. split; [reflexivity|]. simpl.
    split; [apply (same_geom_shaped _ _ w1)|apply (same_geom_shaped _ _ w2)]; assumption.
  - exists v1, v2. split; [exact E|]. split; assumption.
Qed.

(** Method 3 returns. *)
Lemma PowerMethodEigenvalues3_ok n (a : Mat R) iters max_iters :
  MinimalSquareProblem_shape ->
  1 <= n -> shaped n n a ->
  exists ans iter,
    0 <= iter <= Z.max 1 (max_iters + 1) /\ (length ans <= 2)%nat /\
    PowerMethodEigenvalues3 a iters max_iters
    = Ok (ans, reported iters iter max_iters false).
Proof.
  intros Hmsp Hn Ha. pose proof Ha as (_ & Er & Ec).
  unfold PowerMethodEigenvalues3, IsSquare, Rows, Cols. rewrite Er, Ec, Z.eqb_refl. simpl.
  destruct (op_mul_ok n n n a a Ha Ha) as (a2 & -> & Ha2 & _). simpl.
  destruct (ToComplex_ok n n a Ha) as (ca & -> & Hca & _). simpl.
  destruct (ToComplex_ok n n a2 Ha2) as (ca2 & -> & Hca2 & _). simpl.
  destruct (Matrix_nm_ok (T := C) n 1) as (y0 & -> & Hy0 & _); [lia..|]. simpl.
  destruct (set_At1_ok n y0 0 (sof_int 1) Hy0) as (y & -> & Hg & _); [lia|]. simpl.
  pose proof (same_geom_shaped _ _ _ _ Hy0 Hg) as Hy.
  destruct (op_div_scalar_ok n 1 y (EuclideanNormC y) Hy) as (u0 & -> & Hu0 & _). simpl.
  destruct (method3_loop_ok n ca ca2 max_iters Hmsp Hca Hca2 (S (Z.to_nat max_iters))
              (cof_real r1e18) szero (cof_real r1e18) szero y u0 0 Hy Hu0)
    as (r1 & r2 & u & iter & -> & Hu & Hiter); [lia..|]. simpl.
  destruct (op_mul_ok n n 1 ca u Hca Hu) as (u1 & -> & Hu1 & _). simpl.
  destruct (op_mul_ok n n 1 ca2 u Hca2 Hu) as (u2 & -> & Hu2 & _). simpl.
  destruct (method3_vectors_ok n r1 r2 u u1 u2 Hu Hu1 Hu2) as (v1 & v2 & -> & _). simpl.
  eexists _, iter. split; [lia|]. split; [|unfold reported; rewrite orb_false_r; reflexivity].
  destruct (rgt _ _), (rgt _ _); simpl; lia.
Qed.
(** Method 3 returns: the start of its loop, the state at its exit, and
    what is left in [*iters]. *)
Lemma PowerMethodEigenvalues3_steps n (a : Mat R) iters max_iters :
  MinimalSquareProblem_shape ->
  1 <= n -> shaped n n a ->
  exists sq ca ca2 y00 y0 u0 r1 r2 u iter ans,
    op_mul a a = Ok sq /\ ToComplex a = Ok ca /\ ToComplex sq = Ok ca2 /\
    Matrix_nm n 1 = Ok y00 /\ set_At1 y00 0 (sof_int 1) = Ok y0 /\
    op_div_scalar y0 (EuclideanNormC y0) = Ok u0 /\
    method3_loop (S (Z.to_nat max_iters)) ca ca2 max_iters
      (cof_real r1e18) szero (cof_real r1e18) szero y0 u0 0 = Ok (r1, r2, u, iter) /\
    0 <= iter <= Z.max 1 (max_iters + 1) /\
    PowerMethodEigenvalues3 a iters max_iters
    = Ok (ans, reported iters iter max_iters false).
Proof.
  intros Hmsp Hn Ha. pose proof Ha as (_ & Er & Ec).
  unfold PowerMethodEigenvalues3, IsSquare, Rows, Cols. rewrite Er, Ec, Z.eqb_refl. simpl.
  destruct (op_mul_ok n n n a a Ha Ha) as (sq & Esq & Hsq & _). rewrite Esq. simpl.
  destruct (ToComplex_ok n n a Ha) as (ca & Eca & Hca & _). rewrite Eca. simpl.
  destruct (ToComplex_ok n n sq Hsq) as (ca2 & Eca2 & Hca2 & _). rewrite Eca2. simpl.
  destruct (Matrix_nm_ok (T := C) n 1) as (y00 & Ey00 & Hy00 & _); [lia..|].
  rewrite Ey00. simpl.
  destruct (set_At1_ok n y00 0 (sof_int 1) Hy00) as (y0 & Ey0 & Hg & _); [lia|].
  rewrite Ey0. simpl.
  pose proof (same_geom_shaped _ _ _ _ Hy00 Hg) as Hy0.
  destruct (op_div_scalar_ok n 1 y0 (EuclideanNormC y0) Hy0) as (u0 & Eu0 & Hu0 & _).
  rewrite Eu0. simpl.
  destruct (method3_loop_ok n ca ca2 max_iters Hmsp Hca Hca2 (S (Z.to_nat max_iters))
              (cof_real r1e18) szero (cof_real r1e18) szero y0 u0 0 Hy0 Hu0)
    as (r1 & r2 & u & iter & El & Hu & Hiter); [lia..|]. rewrite El. simpl.
  destruct (op_mul_ok n n 1 ca u Hca Hu) as (u1 & -> & Hu1 & _). simpl.
  destruct (op_mul_ok n n 1 ca2 u Hca2 Hu) as (u2 & -> & Hu2 & _). simpl.
  destruct (method3_vectors_ok n r1 r2 u u1 u2 Hu Hu1 Hu2) as (v1 & v2 & -> & _). simpl.
  eexists sq, ca, ca2, y00, y0, u0, r1, r2, u, iter, _.
  do 6 (split; [first [reflexivity | assumption]|]). split; [exact El|].
  split; [lia|]. unfold reported. rewrite orb_false_r. reflexivity.
Qed.

End Method3.

(** ** The dispatcher *)

Section Dispatcher.
Context {R C : Type} {RS : RealScalar R} {CS : ComplexScalar R C} {EX : Externals R C}
        {epsR : MatrixEps R} {epsC : MatrixEps C}.

(** What Method 2 leaves in a counter that is provided: the sentinel, or
    a count of at least one together with a non-empty result. *)
Lemma PowerMethodEigenvalues2_counter n (a y : Mat R) v max_iters eps :
  1 <= n -> shaped n n a -> shaped n 1 y ->
  exists ans y' out,
    PowerMethodEigenvalues2 a y (Some v) max_iters eps = Ok (ans, y', Some out) /\
    shaped n 1 y' /\
    (out = -1 \/ (1 <= out /\ ans <> [])) /\ (length ans <= 2)%nat.
Proof.
  intros Hn Ha Hy.
  destruct (PowerMethodEigenvalues2_ok n a y (Some v) max_iters eps Hn Ha Hy)
    as (a2 & u0 & sp & lambda & u & y' & iter & v1 & v2 & c1 & c2 &
        _ & _ & _ & _ & _ & Hiter & _ & Hy' & _ & _ & _ & _ & E).
  cbv zeta in E. rewrite E. unfold reported.
  eexists _, _, _. split; [reflexivity|]. split; [assumption|]. split.
  - destruct (Z.geb_spec iter max_iters); simpl; [tauto|].
    destruct (rgt (EuclideanNorm v1) eps), (rgt (EuclideanNorm v2) eps); simpl;
      first [tauto | right; split; [lia|discriminate]].
  - destruct (rgt (EuclideanNorm v1) eps), (rgt (EuclideanNorm v2) eps); simpl; lia.
Qed.

(** The path without an override, on a square matrix with a row. *)
Lemma probe_and_refine_ok n (a : Mat R) iters max_iters :
  1 <= n -> shaped n n a ->
  exists e0 probe y1 it1 refined y2 it2,
    seed a = Ok e0 /\ shaped n 1 e0 /\
    PowerMethodEigenvalues2 a e0 (Some 0) max_iters r0_1 = Ok (probe, y1, Some it1) /\
    shaped n 1 y1 /\ (it1 = -1 \/ 1 <= it1) /\
    PowerMethodEigenvalues2 a y1 (Some 0) max_iters GetEps = Ok (refined, y2, Some it2) /\
    (it2 = -1 \/ (1 <= it2 /\ refined <> [])) /\
    probe_and_refine a iters max_iters =
      if negb (it1 =? -1) && negb (it2 =? -1)
      then (Ok refined, set_iters iters (it1 + it2))
      else outcome iters (PowerMethodEigenvalues3 a iters max_iters).
Proof.
  intros Hn Ha. pose proof Ha as (_ & Er & _).
  destruct (seed_ok n a Hn Er) as (e0 & Ee0 & He0 & _).
  destruct (PowerMethodEigenvalues2_counter n a e0 0 max_iters r0_1 Hn Ha He0)
    as (probe & y1 & it1 & E1 & Hy1 & Hit1 & _).
  destruct (PowerMethodEigenvalues2_counter n a y1 0 max_iters GetEps Hn Ha Hy1)
    as (refined & y2 & it2 & E2 & _ & Hit2 & _).
  exists e0, probe, y1, it1, refined, y2, it2.
  do 7 (split; [first [assumption | tauto]|]).
  unfold probe_and_refine. rewrite Ee0, E1. simpl.
  destruct Hit1 as [->|[Hit1 _]]; [reflexivity|].
  destruct (Z.geb_spec it1 0); [|lia].
  destruct (Z.eqb_spec it1 (-1)); [lia|].
  rewrite E2. simpl.
  destruct Hit2 as [->|[Hit2 Hne]]; [reflexivity|].
  destruct (Z.geb_spec it2 0); [|lia].
  destruct (Z.eqb_spec it2 (-1)); [lia|].
  destruct refined; [congruence|]. reflexivity.
Qed.
End Dispatcher.

(** ** Method 2: candidates and the vector [y] *)

Section Method2.
Context {R C : Type} {RS : RealScalar R} {CS : ComplexScalar R C} {EX : Externals R C}
        {epsR : MatrixEps R} {epsC : MatrixEps C}.

Lemma method2_candidate_cells n c lambda (a a2 u v : Mat R) :
  shaped n n a -> shaped n n a2 -> shaped n 1 u ->
  method2_candidate c lambda a a2 u = Ok v ->
  is_candidate c lambda a a2 u v.
Proof.
  intros Ha Ha2 Hu. unfold method2_candidate, is_candidate, scalar_op_mul.
  destruct (op_mul_scalar_ok n n a c Ha) as (ca & Eca & Hca & _ & Hmc). rewrite Eca. simpl.
  destruct (op_mul_ok n n 1 ca u Hca Hu) as (cau & Ecau & Hcau & _). rewrite Ecau. simpl.
  destruct (op_mul_ok n n 1 a2 u Ha2 Hu) as (a2u & Ea2u & Ha2u & _). rewrite Ea2u. simpl.
  destruct (op_plus_ok n 1 cau a2u Hcau Ha2u) as (s & -> & Hs & _ & Hsc). simpl.
  destruct (op_div_scalar_ok n 1 s (smul (smul (sof_int 2) lambda) lambda) Hs)
    as (v' & -> & Hv & _ & Hvr & Hvc & Hvv).
  intros [= <-]. exists ca, cau, a2u.
  destruct Hu as (_ & Eru & _). destruct Hs as (_ & Ers & Ecs).
  do 4 (split; [first [reflexivity | assumption]|]).
  split; [congruence|]. split; [congruence|].
  intros i Hi. destruct (Hsc i 0) as (x & y & Hx & Hy & Hxy); [lia..|].
  exists x, y. split; [assumption|]. split; [assumption|].
  rewrite Hvv by lia. rewrite Hxy. reflexivity.
Qed.

(** The loop of Method 2 makes [iter' - iter] steps, and none exactly when
    its test fails at the start. *)
Lemma method2_loop_steps (a a2 : Mat R) max_iters eps :
  forall fuel prev lambda u y iter lambda' u' y' iter',
    method2_loop fuel a a2 max_iters eps prev lambda u y iter
    = Ok (lambda', u', y', iter') ->
    iter <= iter' /\
    method2_steps (Z.to_nat (iter' - iter)) a a2 u y = Ok (u', y') /\
    (iter' = iter <-> rgt (rabs (ssub lambda prev)) eps = false).
Proof.
  induction fuel as [|fuel IH]; intros prev lambda u y iter lambda' u' y' iter'; simpl.
  - destruct (rgt _ _); [discriminate|]. intros [= <- <- <- <-].
    rewrite Z.sub_diag. split; [lia|]. split; [reflexivity|tauto].
  - destruct (rgt (rabs (ssub lambda prev)) eps) eqn:Htest.
    + destruct (PowerIterationMethod2Iteration a a2 u y) as [[[l u1] y1]| | |] eqn:Estep;
        simpl; try discriminate.
      destruct (iter + 1 >? max_iters).
      * intros [= <- <- <- <-]. split; [lia|]. split; [|split; [lia|discriminate]].
        replace (Z.to_nat (iter + 1 - iter)) with 1%nat by lia.
        simpl. rewrite Estep. reflexivity.
      * intros E. destruct (IH _ _ _ _ _ _ _ _ _ E) as (Hle & Hsteps & _).
        split; [lia|]. split; [|split; [lia|discriminate]].
        replace (Z.to_nat (iter' - iter)) with (S (Z.to_nat (iter' - (iter + 1)))) by lia.
        simpl. rewrite Estep. exact Hsteps.
    + intros [= <- <- <- <-]. rewrite Z.sub_diag. split; [lia|]. split; [reflexivity|tauto].
Qed.

(** The last of [k + 1] steps. *)
Lemma method2_steps_last (a a2 : Mat R) :
  forall k u y u' y',
    method2_steps (S k) a a2 u y = Ok (u', y') ->
    exists u_prev y_prev l,
      method2_steps k a a2 u y = Ok (u_prev, y_prev) /\
      PowerIterationMethod2Iteration a a2 u_prev y_prev = Ok (l, u', y').
Proof.
  induction k as [|k IH]; intros u y u' y'.
  - simpl. destruct (PowerIterationMethod2Iteration a a2 u y) as [[[l u1] y1]| | |] eqn:Estep;
      simpl; try discriminate.
    intros [= <- <-]. exists u, y, l. split; [reflexivity|exact Estep].
  - intros E. change (method2_steps (S (S k)) a a2 u y)
      with (r <- PowerIterationMethod2Iteration a a2 u y ;;
            let '(_, u, y) := r in method2_steps (S k) a a2 u y) in E.
    destruct (PowerIterationMethod2Iteration a a2 u y) as [[[l u1] y1]| | |] eqn:Estep;
      simpl in E; try discriminate.
    destruct (IH _ _ _ _ E) as (up & yp & l' & E1 & E2).
    exists up, yp, l'. split; [|exact E2].
    simpl. rewrite Estep. exact E1.
Qed.

Lemma method2_steps_shaped n (a a2 : Mat R) :
  1 <= n -> shaped n n a2 ->
  forall k u y u' y',
    shaped n 1 u -> shaped n 1 y ->
    method2_steps k a a2 u y = Ok (u', y') ->
    shaped n 1 u' /\ shaped n 1 y' /\ same_geom y y'.
Proof.
  intros Hn Ha2. induction k as [|k IH]; intros u y u' y' Hu Hy; simpl.
  - intros [= <- <-]. split; [assumption|]. split; [assumption|apply same_geom_refl].
  - destruct (PowerIterationMethod2Iteration_ok n a a2 u y Hn Ha2 Hu Hy)
      as (p & l & u1 & y1 & _ & -> & Hgu & Hgy & _). simpl.
    pose proof (same_geom_shaped _ _ _ _ Hu Hgu) as Hu1.
    pose proof (same_geom_shaped _ _ _ _ Hy Hgy) as Hy1.
    intros E. destruct (IH _ _ _ _ Hu1 Hy1 E) as (? & ? & Hg).
    split; [assumption|]. split; [assumption|eapply same_geom_trans; eassumption].
Qed.
End Method2.

Lemma force_method_cases (f : Z) :
  f = -1 \/ f = 0 \/ f = 1 \/ f = 2 \/
  ((f =? -1) = false /\ (f =? 0) = false /\ (f =? 1) = false /\ (f =? 2) = false).
Proof.
  destruct (Z.eqb_spec f (-1)), (Z.eqb_spec f 0), (Z.eqb_spec f 1), (Z.eqb_spec f 2); tauto.
Qed.

(** * The claims about the solvers *)

Section SolverClaims.
Context {R C : Type} {RS : RealScalar R} {CS : ComplexScalar R C} {EX : Externals R C}
        {epsR : MatrixEps R} {epsC : MatrixEps C}.

(** C1, amended.  For every well-formed square matrix [a] with at least
    one row, [PowerMethodEigenvalues] without an override first runs
    Method 2 from the seed with tolerance 0.1; if that probe converged it
    runs Method 2 again at full precision; if the refined run converged
    with at least one eigenpair, those pairs are returned and [*iters] is
    the sum of the two counts; in every other case the result is that of
    Method 3. *)
Theorem dispatcher_probe_refine_fallback n (a : Mat R) iters
    max_iters check_iters check_step :
  1 <= n -> shaped n n a ->
  dispatcher_contract a iters max_iters check_iters check_step.
Proof.
  intros Hn Ha. unfold dispatcher_contract, PowerMethodEigenvalues. simpl.
  destruct (probe_and_refine_ok n a (set_iters iters 0) max_iters Hn Ha)
    as (e0 & probe & y1 & it1 & refined & y2 & it2 &
        Ee0 & _ & E1 & _ & Hit1 & E2 & Hit2 & E).
  exists e0, probe, y1, it1. split; [assumption|]. split; [assumption|].
  fold (set_iters iters 0). rewrite E.
  destruct (Z.eqb_spec it1 (-1)) as [->|Hne1]; simpl; [reflexivity|].
  exists refined, y2, it2. split; [assumption|].
  destruct (Z.eqb_spec it2 (-1)) as [->|Hne2]; simpl; [reflexivity|].
  destruct Hit2 as [?|[_ Hre]]; [lia|].
  destruct refined; [congruence|]. simpl. destruct iters; reflexivity.
Qed.

(** C3.  Method 2, on a square matrix with a row and a column vector
    [y]: its loop ends in a state [(lambda, u, y', iter)]; the candidates
    are [v1 = (lambda * a * u + a2 * u) / (2 * lambda * lambda)] and
    [v2 = (-lambda * a * u + a2 * u) / (2 * lambda * lambda)]; a candidate
    is in the result exactly when its norm exceeds [eps]; the result has
    at most two entries, the one for [+lambda] first; and [*iters] is -1
    whenever the result is empty. *)
Theorem method2_candidates_and_result n (a y : Mat R) iters max_iters eps :
  1 <= n -> shaped n n a -> shaped n 1 y ->
  exists a2 u0 sp lambda u y' iter v1 v2 c1 c2 ans out,
    op_mul a a = Ok a2 /\
    method2_loop (S (Z.to_nat max_iters)) a a2 max_iters eps
      r1e18 (rsqrt (rabs sp)) u0 y 0 = Ok (lambda, u, y', iter) /\
    is_candidate lambda lambda a a2 u v1 /\
    is_candidate (rneg lambda) lambda a a2 u v2 /\
    ToComplex v1 = Ok c1 /\ ToComplex v2 = Ok c2 /\
    PowerMethodEigenvalues2 a y iters max_iters eps = Ok (ans, y', out) /\
    ans = (if rgt (EuclideanNorm v1) eps then [(cof_real lambda, c1)] else [])
          ++ (if rgt (EuclideanNorm v2) eps then [(cof_real (rneg lambda), c2)] else []) /\
    (length ans <= 2)%nat /\
    (ans = [] -> out = set_iters iters (-1)).
Proof.
  intros Hn Ha Hy.
  destruct (PowerMethodEigenvalues2_ok n a y iters max_iters eps Hn Ha Hy)
    as (a2 & u0 & sp & lambda & u & y' & iter & v1 & v2 & c1 & c2 &
        Ea2 & Ha2 & _ & _ & El & Hiter & Hu & _ & Ev1 & Ev2 & Ec1 & Ec2 & E).
  cbv zeta in E.
  eexists a2, u0, sp, lambda, u, y', iter, v1, v2, c1, c2, _, _.
  split; [exact Ea2|]. split; [exact El|].
  split; [eapply method2_candidate_cells; eassumption|].
  split; [eapply method2_candidate_cells; eassumption|].
  split; [exact Ec1|]. split; [exact Ec2|]. split; [exact E|].
  split; [reflexivity|]. split.
  - destruct (rgt (EuclideanNorm v1) eps), (rgt (EuclideanNorm v2) eps); simpl; lia.
  - intros ->. unfold reported, set_iters. simpl. rewrite orb_true_r. reflexivity.
Qed.

Lemma reported_count iters iter max_iters failed :
  reported iters iter max_iters failed
  = set_iters iters (if (max_iters <? iter + 1) || failed then -1 else iter + 1).
Proof.
  unfold reported, set_iters. destruct iters; [|reflexivity].
  destruct (Z.geb_spec iter max_iters), (Z.ltb_spec max_iters (iter + 1));
    try lia; reflexivity.
Qed.

(** C4.  On a square matrix with a row (and a column vector [y]) each
    method returns normally, whatever the convergence; a failure shows
    only in [*iters], when [iters] is not null.  For each method [iter] is
    the counter its own loop leaves, started at 0 from the method's start
    values, and [count = iter + 1]: Method 1 leaves -1 exactly when
    [count] exceeds [max_iters] or the norm of the final [u] is below the
    epsilon, Method 2 exactly when [count] exceeds [max_iters] or the list
    it returns is empty, Method 3 exactly when [count] exceeds
    [max_iters]; otherwise each leaves the positive [count]. *)
Theorem convergence_failure_is_signalled n (a y : Mat R) iters max_iters eps :
  MinimalSquareProblem_shape ->
  1 <= n -> shaped n n a -> shaped n 1 y ->
  (exists y1 u0 l0 lambda u y' iter,
     set_At1 y 0 (sof_int 1) = Ok y1 /\
     op_div_scalar y1 (EuclideanNorm y1) = Ok u0 /\
     (p <- op_mul a u0 ;; ScalarProduct u0 p) = Ok l0 /\
     method1_loop (S (Z.to_nat max_iters)) a max_iters r1e18 l0 u0 y1 0
     = Ok (lambda, u, y', iter) /\
     1 <= iter + 1 /\
     PowerMethodEigenvalues1 a y iters max_iters
     = Ok (lambda, u,
           set_iters iters
             (if (max_iters <? iter + 1) || rlt (EuclideanNorm u) GetEps
              then -1 else iter + 1))) /\
  (exists a2 u0 sp lambda u y' iter ans,
     op_mul a a = Ok a2 /\
     op_div_scalar y (EuclideanNorm y) = Ok u0 /\
     (p <- op_mul a2 u0 ;; ScalarProduct u0 p) = Ok sp /\
     method2_loop (S (Z.to_nat max_iters)) a a2 max_iters eps
       r1e18 (rsqrt (rabs sp)) u0 y 0 = Ok (lambda, u, y', iter) /\
     1 <= iter + 1 /\
     PowerMethodEigenvalues2 a y iters max_iters eps
     = Ok (ans, y',
           set_iters iters
             (if (max_iters <? iter + 1) || empty ans then -1 else iter + 1))) /\
  (exists sq ca ca2 y00 y0 u0 r1 r2 u iter ans,
     op_mul a a = Ok sq /\ ToComplex a = Ok ca /\ ToComplex sq = Ok ca2 /\
     Matrix_nm n 1 = Ok y00 /\ set_At1 y00 0 (sof_int 1) = Ok y0 /\
     op_div_scalar y0 (EuclideanNormC y0) = Ok u0 /\
     method3_loop (S (Z.to_nat max_iters)) ca ca2 max_iters
       (cof_real r1e18) szero (cof_real r1e18) szero y0 u0 0 = Ok (r1, r2, u, iter) /\
     1 <= iter + 1 /\
     PowerMethodEigenvalues3 a iters max_iters
     = Ok (ans, set_iters iters (if max_iters <? iter + 1 then -1 else iter + 1))).
Proof.
  intros Hmsp Hn Ha Hy. split; [|split].
  - destruct (PowerMethodEigenvalues1_ok n a y iters max_iters Hn Ha Hy)
      as (y1 & u0 & l0 & lambda & u & y' & iter & E1 & E2 & E3 & E4 & Hiter & _ & E).
    exists y1, u0, l0, lambda, u, y', iter.
    do 4 (split; [assumption|]). split; [lia|].
    rewrite E. rewrite reported_count. reflexivity.
  - destruct (PowerMethodEigenvalues2_ok n a y iters max_iters eps Hn Ha Hy)
      as (a2 & u0 & sp & lambda & u & y' & iter & v1 & v2 & c1 & c2 &
          Ea2 & _ & Eu0 & Esp & El & Hiter & _ & _ & _ & _ & _ & _ & E).
    cbv zeta in E. eexists a2, u0, sp, lambda, u, y', iter, _.
    do 4 (split; [assumption|]). split; [lia|].
    rewrite E, reported_count. reflexivity.
  - destruct (PowerMethodEigenvalues3_steps n a iters max_iters Hmsp Hn Ha)
      as (sq & ca & ca2 & y00 & y0 & u0 & r1 & r2 & u & iter & ans &
          E1 & E2 & E3 & E4 & E5 & E6 & El & Hiter & E).
    exists sq, ca, ca2, y00, y0, u0, r1, r2, u, iter, ans.
    do 7 (split; [assumption|]). split; [lia|].
    rewrite E, reported_count, orb_false_r. reflexivity.
Qed.

(** C5, amended.  On a matrix that is not square each of the three
    methods throws [invalid_argument] at its first statement, and the
    message holds the size of the matrix; so does the dispatcher, for
    every [force_method], when the matrix has at least one row (it has set
    [*iters] to 0 by then).  The matrix is a read-only argument. *)
Theorem non_square_is_rejected (a y : Mat R) iters max_iters eps :
  IsSquare a = false ->
  let e := invalid_argument ("Matrix of size " +:+ PairToString (rows_ a, cols_ a)
                             +:+ " is not square.") in
  PowerMethodEigenvalues1 a y iters max_iters = Throw e /\
  PowerMethodEigenvalues2 a y iters max_iters eps = Throw e /\
  PowerMethodEigenvalues3 a iters max_iters = Throw e /\
  (1 <= rows_ a ->
   forall check_iters check_step force_method,
     PowerMethodEigenvalues a iters max_iters check_iters check_step force_method
     = (Throw e, set_iters iters 0)).
Proof.
  intros Hns e.
  assert (E1 : forall y it, PowerMethodEigenvalues1 a y it max_iters = Throw e).
  { intros. unfold PowerMethodEigenvalues1. rewrite Hns. reflexivity. }
  assert (E2 : forall y it eps, PowerMethodEigenvalues2 a y it max_iters eps = Throw e).
  { intros. unfold PowerMethodEigenvalues2. rewrite Hns. reflexivity. }
  assert (E3 : forall it, PowerMethodEigenvalues3 a it max_iters = Throw e).
  { intros. unfold PowerMethodEigenvalues3. rewrite Hns. reflexivity. }
  split; [apply E1|]. split; [apply E2|]. split; [apply E3|].
  intros Hr ci cs fm.
  destruct (seed_ok (rows_ a) a Hr eq_refl) as (y0 & Ey0 & Hy0 & _).
  assert (Ep : probe_and_refine a (set_iters iters 0) max_iters
               = (Throw e, set_iters iters 0)).
  { unfold probe_and_refine. rewrite Ey0, E2. reflexivity. }
  unfold PowerMethodEigenvalues. fold (set_iters iters 0).
  destruct (force_method_cases fm) as [-> | [-> | [-> | [-> | Hfm]]]]; simpl.
  - exact Ep.
  - rewrite Ey0.
    destruct (CopyFrom_ok _ _ y0 Hy0) as (yc & -> & _). simpl. rewrite E1. reflexivity.
  - rewrite Ey0, E2. reflexivity.
  - rewrite Ey0, E3. reflexivity.
  - destruct Hfm as (H0 & H1 & H2 & H3). rewrite H0, H1, H2, H3, Ey0. simpl. exact Ep.
Qed.
End SolverClaims.

Section SeedClaims.
Context {R C : Type} {RS : RealScalar R} {CS : ComplexScalar R C} {EX : Externals R C}
        {epsR : MatrixEps R} {epsC : MatrixEps C}.

(** C10, amended.  One step of Method 2 writes the product [a2 * u] into
    the cells of the caller's [y] (the same array, the same geometry).  In
    the dispatcher without an override the probe starts from the seed
    [e0]; the vector [y1] it hands back is the [y] that the [iter] steps
    of its loop make of [e0], where [iter] is the counter the loop leaves
    (the probe reports [iter + 1], or -1).  The loop makes no step exactly
    when the first [lambda] is within 0.1 of the initial [1e18], and then
    [y1] is [e0]; otherwise the last step wrote into [y1] the product
    [a2 * u_prev] for the [u_prev] that the steps before it had made.  The
    run at full precision, whose result the dispatcher returns when both
    runs converged, is the run started from [y1]. *)
Theorem refined_run_starts_from_probe_vector n (a : Mat R) iters
    max_iters check_iters check_step :
  1 <= n -> shaped n n a ->
  (forall a2 u y, shaped n n a2 -> shaped n 1 u -> shaped n 1 y ->
     exists p lambda u' y',
       op_mul a2 u = Ok p /\
       PowerIterationMethod2Iteration a a2 u y = Ok (lambda, u', y') /\
       same_geom y y' /\
       forall i, 0 <= i < n -> cell y' i 0 = cell p i 0) /\
  exists a2 e0 u0 sp lambda u iter probe y1 it1 refined y2 it2,
    op_mul a a = Ok a2 /\ seed a = Ok e0 /\
    op_div_scalar e0 (EuclideanNorm e0) = Ok u0 /\
    (p <- op_mul a2 u0 ;; ScalarProduct u0 p) = Ok sp /\
    method2_loop (S (Z.to_nat max_iters)) a a2 max_iters r0_1
      r1e18 (rsqrt (rabs sp)) u0 e0 0 = Ok (lambda, u, y1, iter) /\
    PowerMethodEigenvalues2 a e0 (Some 0) max_iters r0_1 = Ok (probe, y1, Some it1) /\
    0 <= iter /\ (it1 = -1 \/ it1 = iter + 1) /\
    method2_steps (Z.to_nat iter) a a2 u0 e0 = Ok (u, y1) /\
    (iter = 0 <-> rgt (rabs (ssub (rsqrt (rabs sp)) r1e18)) r0_1 = false) /\
    (iter = 0 -> y1 = e0) /\
    (1 <= iter ->
     exists u_prev y_prev l p,
       method2_steps (Z.to_nat (iter - 1)) a a2 u0 e0 = Ok (u_prev, y_prev) /\
       PowerIterationMethod2Iteration a a2 u_prev y_prev = Ok (l, u, y1) /\
       op_mul a2 u_prev = Ok p /\ same_geom e0 y1 /\
       forall i, 0 <= i < n -> cell y1 i 0 = cell p i 0) /\
    PowerMethodEigenvalues2 a y1 (Some 0) max_iters GetEps = Ok (refined, y2, Some it2) /\
    (it1 <> -1 -> it2 <> -1 ->
     PowerMethodEigenvalues a iters max_iters check_iters check_step (-1)
     = (Ok refined, set_iters iters (it1 + it2))).
Proof.
  intros Hn Ha. split.
  - intros a2 u y Ha2 Hu Hy.
    destruct (PowerIterationMethod2Iteration_ok n a a2 u y Hn Ha2 Hu Hy)
      as (p & l & u' & y' & ? & ? & _ & ? & ?).
    exists p, l, u', y'. tauto.
  - destruct (probe_and_refine_ok n a (set_iters iters 0) max_iters Hn Ha)
      as (e0 & probe & y1 & it1 & refined & y2 & it2 &
          Ee0 & He0 & E1 & _ & Hit1 & E2 & Hit2 & E).
    destruct (PowerMethodEigenvalues2_ok n a e0 (Some 0) max_iters r0_1 Hn Ha He0)
      as (a2 & u0 & sp & lambda & u & y' & iter & v1 & v2 & c1 & c2 &
          Ea2 & Ha2 & Eu0 & Esp & El & Hiter & _ & _ & _ & _ & _ & _ & E1').
    cbv zeta in E1'. rewrite E1 in E1'. injection E1' as _ Ey1 Eit1. subst y'.
    exists a2, e0, u0, sp, lambda, u, iter, probe, y1, it1, refined, y2, it2.
    do 6 (split; [assumption|]).
    assert (Hu0 : shaped n 1 u0).
    { destruct (op_div_scalar_ok n 1 e0 (EuclideanNorm e0) He0) as (u0' & Eu0' & Hu0 & _).
      rewrite Eu0 in Eu0'. injection Eu0' as <-. exact Hu0. }
    destruct (method2_loop_steps a a2 max_iters r0_1 _ _ _ _ _ _ _ _ _ _ El)
      as (Hle & Hsteps & Hzero).
    rewrite Z.sub_0_r in Hsteps.
    split; [lia|]. split.
    { rewrite Eit1.
      match goal with |- context [if ?b then _ else _] => destruct b end;
        [left|right]; reflexivity. }
    split; [exact Hsteps|]. split; [exact Hzero|]. split; [|split; [|split]].
    + intros ->. simpl in Hsteps. congruence.
    + intros Hpos.
      replace (Z.to_nat iter) with (S (Z.to_nat (iter - 1))) in Hsteps by lia.
      destruct (method2_steps_last a a2 _ _ _ _ _ Hsteps) as (up & yp & l & Ek & Estep).
      destruct (method2_steps_shaped n a a2 Hn Ha2 _ _ _ _ _ Hu0 He0 Ek) as (Hup & Hyp & Hg).
      destruct (PowerIterationMethod2Iteration_ok n a a2 up yp Hn Ha2 Hup Hyp)
        as (p & l' & u' & y' & Ep & Estep' & _ & Hgy & Hcells).
      rewrite Estep in Estep'. injection Estep' as _ <- <-.
      exists up, yp, l, p. split; [exact Ek|]. split; [exact Estep|]. split; [exact Ep|].
      split; [eapply same_geom_trans; eassumption|exact Hcells].
    + assumption.
    + intros Hne1 Hne2. unfold PowerMethodEigenvalues. simpl.
      fold (set_iters iters 0). rewrite E.
      destruct (Z.eqb_spec it1 (-1)); [contradiction|].
      destruct (Z.eqb_spec it2 (-1)); [contradiction|].
      simpl. destruct iters; reflexivity.
Qed.
End SeedClaims.

Section Method3Claims.
Context {R C : Type} {RS : RealScalar R} {CS : ComplexScalar R C} {EX : Externals R C}
        {epsR : MatrixEps R} {epsC : MatrixEps C}.

(** C2, amended.  One step of Method 3 advances [y] and [u], then builds
    a real system with one row per matrix row and two unknowns: row [i]
    of [l] is [(Re u(i), Re (a u)(i))] and the right-hand side is
    [r(i) = Re (((-1) * squared_a) u)(i)], so that the system expresses
    [- a^2 u = c1 (a u) + c0 u]; it hands [l] and [r] to the least-squares
    solver and returns the roots the quadratic solver gives for the
    coefficients [(1, c(1), c(0))]. *)
Theorem method3_step_system n (a squared_a y u : Mat C) :
  MinimalSquareProblem_shape ->
  shaped n n a -> shaped n n squared_a -> shaped n 1 y -> shaped n 1 u ->
  exists au0 q y' u' l r au m rc c1 c0,
    op_mul a u = Ok au0 /\ Assign y au0 = Ok y' /\
    op_div_scalar y' (EuclideanNormC y') = Ok q /\ Assign u q = Ok u' /\
    method3_system a squared_a u' = Ok (l, r) /\
    shaped n 2 l /\ shaped n 1 r /\
    op_mul a u' = Ok au /\
    int_op_mul (-1) squared_a = Ok m /\
    mapped_cells (fun v => smul_int v (-1)) squared_a m /\
    op_mul m u' = Ok rc /\
    (forall i, 0 <= i < n ->
       cell l i 0 = creal <$> cell u' i 0 /\
       cell l i 1 = creal <$> cell au i 0 /\
       cell r i 0 = creal <$> cell rc i 0) /\
    At1 (MinimalSquareProblem l r) 1 = Ok c1 /\
    At1 (MinimalSquareProblem l r) 0 = Ok c0 /\
    PowerMethodEigenvaluesComplexIteration a squared_a y u
    = Ok (fst (SolveQuadraticEquation (sof_int 1) c1 c0),
          snd (SolveQuadraticEquation (sof_int 1) c1 c0), y', u').
Proof.
  intros Hmsp Ha Ha2 Hy Hu.
  destruct (PowerMethodEigenvaluesComplexIteration_ok n a squared_a y u Hmsp Ha Ha2 Hy Hu)
    as (au0 & q & y' & u' & l & r & c1 & c0 &
        E1 & E2 & E3 & E4 & _ & Hgu & Esys & Ec1 & Ec0 & E).
  pose proof (same_geom_shaped _ _ _ _ Hu Hgu) as Hu'.
  destruct (method3_system_ok n a squared_a u' Ha Ha2 Hu')
    as (l' & r' & au & m & rc & Eau & Em & Erc & Hm & Esys' & Hl & Hr & Hcells).
  rewrite Esys in Esys'. injection Esys' as <- <-.
  exists au0, q, y', u', l, r, au, m, rc, c1, c0.
  do 11 (split; [assumption|]). do 3 (split; [assumption|]). exact E.
Qed.
End Method3Claims.

(** * Views and copies *)

Section ViewLemmas.
Context {T : Type} `{Scalar T}.
Implicit Types (σ : gmap View.loc (list T)) (m A this other : Matrix View.loc).

Lemma View_At_ok σ m i j :
  View.wf σ m -> 0 <= i < rows_ m -> 0 <= j < cols_ m ->
  exists v, View.cell σ m i j = Some v /\ View.At σ m i j = Ok v.
Proof.
  intros (buf & Hb & Hw) Hi Hj. unfold View.At, View.cell.
  rewrite At_index_ok by assumption. simpl. rewrite Hb.
  apply load_ok. eapply wf_index_bound; eassumption.
Qed.

Lemma View_set_At_ok σ m i j v :
  View.wf σ m -> 0 <= i < rows_ m -> 0 <= j < cols_ m ->
  exists buf,
    σ !! data_ m = Some buf /\
    View.set_At σ m i j v
    = Ok (<[data_ m :=
             <[Z.to_nat ((i + offset_i_ m) * data_cols_ m + offset_j_ m + j) := v]> buf]> σ).
Proof.
  intros (buf & Hb & Hw) Hi Hj. exists buf. split; [assumption|].
  unfold View.set_At. rewrite At_index_ok by assumption. simpl. rewrite Hb.
  rewrite store_ok by (eapply wf_index_bound; eassumption). reflexivity.
Qed.

(** A write through [m] is read back through [m], keeps [m] well formed,
    and leaves the other cells of [m] and the other arrays as they are. *)
Lemma View_set_At_spec σ m i j v :
  View.wf σ m -> 0 <= i < rows_ m -> 0 <= j < cols_ m ->
  exists σ', View.set_At σ m i j v = Ok σ' /\
    View.wf σ' m /\ View.cell σ' m i j = Some v /\
    (forall i' j', 0 <= i' < rows_ m -> 0 <= j' < cols_ m -> (i', j') <> (i, j) ->
       View.cell σ' m i' j' = View.cell σ m i' j') /\
    (forall l, l <> data_ m -> σ' !! l = σ !! l) /\
    dom σ' = dom σ.
Proof.
  intros Hw Hi Hj. pose proof Hw as (buf & Hb & Hg).
  destruct (View_set_At_ok σ m i j v Hw Hi Hj) as (buf' & Hb' & E).
  rewrite Hb in Hb'. injection Hb' as <-.
  pose proof (wf_index_bound _ m i j Hg Hi Hj) as Hk.
  eexists. split; [exact E|]. split; [|split; [|split; [|split]]].
  - eexists. rewrite lookup_insert_eq. split; [reflexivity|].
    rewrite length_insert. exact Hg.
  - unfold View.cell. rewrite lookup_insert_eq. apply list_lookup_insert_eq. lia.
  - intros i' j' Hi' Hj' Hne. unfold View.cell. rewrite lookup_insert_eq, Hb.
    apply list_lookup_insert_ne. intros Ek. apply Hne.
    apply Z2Nat.inj in Ek; [|lia|].
    + destruct (wf_index_inj _ m i j i' j' Hg Hi Hj Hi' Hj' Ek) as [-> ->]. reflexivity.
    + pose proof (wf_index_bound _ m i' j' Hg Hi' Hj'). lia.
  - intros l Hl. apply lookup_insert_ne. congruence.
  - apply dom_insert_lookup_L. rewrite Hb. eauto.
Qed.

(** A view made by [Row] or [Col] addresses, through its single index,
    the cell that the matrix addresses through both. *)
Lemma Row_index A i k :
  0 <= i < rows_ A -> 0 <= k < cols_ A ->
  data_ (Row A i) = data_ A /\
  exists idx, At1_index (Row A i) k = Ok idx /\ At_index A i k = Ok idx.
Proof.
  intros Hi Hk. split; [reflexivity|].
  exists ((i + offset_i_ A) * data_cols_ A + offset_j_ A + k).
  split; [|apply At_index_ok; assumption].
  unfold At1_index, Row, SubMatrix, IsRowVector, Rows, Cols. simpl.
  destruct (Z.eqb_spec (cols_ A) (-1)); [lia|]. simpl.
  unfold At_index. simpl. zbool. f_equal. ring.
Qed.

Lemma Col_index A j k :
  0 <= k < rows_ A -> 0 <= j < cols_ A ->
  data_ (Col A j) = data_ A /\
  exists idx, At1_index (Col A j) k = Ok idx /\ At_index A k j = Ok idx.
Proof.
  intros Hk Hj. split; [reflexivity|].
  exists ((k + offset_i_ A) * data_cols_ A + offset_j_ A + j).
  split; [|apply At_index_ok; assumption].
  unfold At1_index, Col, SubMatrix, IsRowVector, IsColVector, Rows, Cols. simpl.
  destruct (Z.eqb_spec (rows_ A) (-1)); [lia|]. simpl.
  destruct (Z.eqb_spec (rows_ A) 1) as [E1|_]; unfold At_index; simpl.
  - zbool. replace k with 0 by lia. f_equal. ring.
  - zbool. f_equal. ring.
Qed.
End ViewLemmas.

Section ViewCopies.
Context {T : Type} `{Scalar T}.
Implicit Types (σ : gmap View.loc (list T)) (m A this other : Matrix View.loc).

Lemma load_insert (buf : list T) (k : Z) (v : T) :
  0 <= k < Z.of_nat (length buf) -> load (<[Z.to_nat k := v]> buf) k = Ok v.
Proof.
  intros Hk. unfold load. zbool.
  rewrite list_lookup_insert_eq by lia. reflexivity.
Qed.

Lemma View_At_ext σ1 σ2 m i j :
  σ1 !! data_ m = σ2 !! data_ m -> View.At σ1 m i j = View.At σ2 m i j.
Proof. intros E. unfold View.At. rewrite E. reflexivity. Qed.

Lemma View_wf_ext σ1 σ2 m :
  σ1 !! data_ m = σ2 !! data_ m -> View.wf σ1 m -> View.wf σ2 m.
Proof. intros E (buf & Hb & Hg). exists buf. rewrite <- E. tauto. Qed.

Lemma View_cell_ext σ1 σ2 m i j :
  σ1 !! data_ m = σ2 !! data_ m -> View.cell σ1 m i j = View.cell σ2 m i j.
Proof. intros E. unfold View.cell. rewrite E. reflexivity. Qed.

(** A write touches the array of its matrix only. *)
Lemma View_set_At_frame σ σ' m i j v :
  View.set_At σ m i j v = Ok σ' -> forall l, l <> data_ m -> σ' !! l = σ !! l.
Proof.
  unfold View.set_At. destruct (At_index m i j) as [k| | |]; simpl; try discriminate.
  destruct (σ !! data_ m) as [buf|]; [|discriminate].
  destruct (store buf k v) as [buf'| | |]; simpl; try discriminate.
  intros [= <-] l Hl. apply lookup_insert_ne. congruence.
Qed.

Lemma View_Matrix_fill_ok σ n k v :
  0 <= n -> 0 <= k ->
  exists m σ', View.Matrix_fill σ n k v = Ok (m, σ') /\
    (data_ m ∉ dom σ) /\ rows_ m = n /\ cols_ m = k /\ owning m /\
    View.wf σ' m /\
    (forall l, l <> data_ m -> σ' !! l = σ !! l) /\
    (forall i j, 0 <= i < n -> 0 <= j < k -> View.cell σ' m i j = Some v).
Proof.
  intros Hn Hk. unfold View.Matrix_fill, View.alloc.
  destruct (Z.ltb_spec (n * k) 0) as [|Hnk]; [nia|].
  set (l := fresh (dom σ)).
  set (σ1 := <[l := replicate (Z.to_nat (n * k)) szero]> σ).
  set (this0 := {| data_ := l; data_rows_ := n; data_cols_ := k; cols_ := k; rows_ := n;
                   offset_i_ := 0; offset_j_ := 0 |}).
  assert (Hl : l ∉ dom σ) by apply is_fresh.
  assert (Hw0 : View.wf σ1 this0).
  { eexists. unfold σ1, this0; simpl. rewrite lookup_insert_eq. split; [reflexivity|].
    unfold wf_geom; simpl. rewrite length_replicate. lia. }
  destruct (for2_todo_done
              (fun s => View.wf s this0 /\ forall l', l' <> l -> s !! l' = σ1 !! l')
              (fun _ _ _ => True)
              (fun i j s => View.cell s this0 i j = Some v) n k (fun _ => k)
              (fun i j s => View.set_At s this0 i j v) σ1)
    as (σ' & E & (Hw & Hfr) & Hd); try (exact I || reflexivity || (intros; exact I)).
  - split; [assumption|reflexivity].
  - intros i j s Hi Hj (Hws & Hfs) _.
    destruct (View_set_At_spec s this0 i j v Hws Hi Hj) as (s' & E' & Hw' & Hv & Hc & Hf & _).
    exists s'. split; [assumption|]. split; [|split; [assumption|]].
    + split; [assumption|]. intros l' Hl'. rewrite Hf by assumption. apply Hfs; assumption.
    + intros i' j' Hi' Hj' Hne. split; [tauto|]. intros Hd. rewrite Hc; assumption.
  - unfold Rows, Cols. simpl. rewrite E. simpl.
    exists this0, σ'. split; [reflexivity|]. split; [assumption|].
    split; [reflexivity|]. split; [reflexivity|].
    split; [unfold owning; simpl; tauto|]. split; [assumption|]. split; [|assumption].
    intros l' Hl'. rewrite Hfr by assumption. apply lookup_insert_ne.
    intros El. apply Hl'. symmetry. exact El.
Qed.

(** [Assign] into a matrix that shares no array with the source. *)
Lemma View_Assign_ok σ this b :
  View.wf σ this -> View.wf σ b -> data_ this <> data_ b ->
  rows_ this = rows_ b -> cols_ this = cols_ b ->
  exists σ', View.Assign σ this b = Ok σ' /\ View.wf σ' this /\
    (forall l, l <> data_ this -> σ' !! l = σ !! l) /\
    (forall i j, 0 <= i < rows_ b -> 0 <= j < cols_ b ->
       View.cell σ' this i j = View.cell σ b i j).
Proof.
  intros Hw Hwb Hne Er Ec. unfold View.Assign.
  rewrite (AssertEqualSizes_ok (rows_ b) (cols_ b)) by congruence. simpl.
  destruct (for2_todo_done
              (fun s => View.wf s this /\ forall l, l <> data_ this -> s !! l = σ !! l)
              (fun _ _ _ => True)
              (fun i j s => View.cell s this i j = View.cell σ b i j)
              (rows_ b) (cols_ b) (fun _ => Cols this)
              (fun i j s => v <- View.At s b i j ;; View.set_At s this i j v) σ)
    as (σ' & E & (Hw' & Hfr) & Hd); try (exact I || (intros; exact I)).
  - split; [assumption|reflexivity].
  - intros. unfold Cols. congruence.
  - intros i j s Hi Hj (Hws & Hfs) _.
    assert (Eb : s !! data_ b = σ !! data_ b) by (apply Hfs; congruence).
    destruct (View_At_ok σ b i j Hwb Hi Hj) as (v & Hv & Ev).
    rewrite (View_At_ext s σ b i j Eb), Ev. simpl.
    destruct (View_set_At_spec s this i j v Hws) as (s' & E' & Hw'' & Hv' & Hc & Hf & _);
      [lia..|].
    exists s'. split; [assumption|]. split; [|split; [congruence|]].
    + split; [assumption|]. intros l Hl. rewrite Hf by assumption. apply Hfs; assumption.
    + intros i' j' Hi' Hj' Hne'. split; [tauto|].
      intros Hd. rewrite Hc; [assumption|lia..|assumption].
  - exists σ'. unfold Rows. rewrite Er. split; [exact E|]. tauto.
Qed.

Lemma View_CopyFrom_ok σ this other :
  View.wf σ other ->
  exists c σ', View.CopyFrom σ this other = Ok (c, σ') /\
    (data_ c ∉ dom σ) /\ owning c /\ rows_ c = rows_ other /\ cols_ c = cols_ other /\
    View.wf σ' c /\
    (forall l, l <> data_ c -> σ' !! l = σ !! l) /\
    (forall i j, 0 <= i < rows_ other -> 0 <= j < cols_ other ->
       View.cell σ' c i j = View.cell σ other i j).
Proof.
  intros Hwo. pose proof Hwo as (buf & Hb & Hg).
  assert (0 <= rows_ other /\ 0 <= cols_ other) as [Hr Hc]
    by (unfold wf_geom in Hg; lia).
  unfold View.CopyFrom, Rows, Cols.
  destruct (View_Matrix_fill_ok σ (rows_ other) (cols_ other) szero Hr Hc)
    as (m0 & σ0 & E0 & Hfresh & Er0 & Ec0 & Hown & Hw0 & Hfr0 & _).
  unfold View.Matrix_nm. rewrite E0. simpl.
  assert (Hne : data_ m0 <> data_ other).
  { intros E. apply Hfresh. rewrite E. apply elem_of_dom. eauto. }
  assert (Em : View.MakeRef this m0 = m0) by (destruct m0; reflexivity).
  rewrite Em.
  assert (Hwo0 : View.wf σ0 other).
  { eapply (View_wf_ext σ); [symmetry; apply Hfr0; congruence|assumption]. }
  destruct (View_Assign_ok σ0 m0 other Hw0 Hwo0 Hne Er0 Ec0) as (σ' & -> & Hw' & Hfr' & Hcells).
  simpl. exists m0, σ'. split; [reflexivity|].
  do 5 (split; [assumption|]). split.
  - intros l Hl. rewrite Hfr' by assumption. apply Hfr0; assumption.
  - intros i j Hi Hj. rewrite Hcells by assumption.
    apply View_cell_ext. apply Hfr0. congruence.
Qed.

Lemma View_At_cell σ m i j :
  View.wf σ m -> 0 <= i < rows_ m -> 0 <= j < cols_ m ->
  View.At σ m i j = match View.cell σ m i j with Some v => Ok v | None => Undefined end.
Proof.
  intros Hw Hi Hj. destruct (View_At_ok σ m i j Hw Hi Hj) as (v & -> & ->). reflexivity.
Qed.
End ViewCopies.

Section ViewClaims.
Context {T : Type} `{Scalar T}.
Implicit Types (σ : gmap View.loc (list T)) (m A this other : Matrix View.loc).

(** A write through one handle and a read through another that addresses
    the same cell of the same array. *)
Lemma alias_write_read σ A (w r : Res Z) (idx : Z) (v : T) :
  View.wf σ A -> 0 <= idx ->
  (forall buf, σ !! data_ A = Some buf -> idx < Z.of_nat (length buf)) ->
  w = Ok idx -> r = Ok idx ->
  exists σ',
    (k <- w ;;
     match σ !! data_ A with
     | Some buf => buf <- store buf k v ;; Ok (<[data_ A := buf]> σ)
     | None => Undefined
     end) = Ok σ' /\
    (k <- r ;;
     match σ' !! data_ A with
     | Some buf => load buf k
     | None => Undefined
     end) = Ok v.
Proof.
  intros (buf & Hb & _) H0 Hlen -> ->. simpl. rewrite Hb.
  specialize (Hlen buf Hb). rewrite store_ok by lia. simpl.
  eexists. split; [reflexivity|]. rewrite lookup_insert_eq. apply load_insert. lia.
Qed.

(** C6, amended.  The invariant is not one of every instance: [SubMatrix]
    checks nothing, and a view may break it.  For a matrix [A] that
    satisfies it in a store ([View.wf]): (1) [A(i, j)] reads and
    writes the cell [(i + offset_i, j + offset_j)] of the backing array,
    i.e. position [(i + offset_i) * data_cols + offset_j + j]; (2)
    [SubMatrix], [Row] and [Col] return handles on the same array, with the
    same backing extents, whose offsets are those of [A] plus the
    arguments; (3) a write through [A.Row(i)] at element [k] is read as
    [A(i, k)], and a write through [A] at [(i, k)] is read through the
    view; the same for [A.Col(k)].  [A.Row(0)] at element 0 is the case
    [i = k = 0]; (4) a view whose window lies inside [A] satisfies the
    invariant again. *)
Theorem views_alias_storage σ A :
  View.wf σ A ->
  (forall i j, 0 <= i < rows_ A -> 0 <= j < cols_ A ->
     exists buf, σ !! data_ A = Some buf /\
       let idx := (i + offset_i_ A) * data_cols_ A + offset_j_ A + j in
       View.At σ A i j = load buf idx /\
       forall v, View.set_At σ A i j v = Ok (<[data_ A := <[Z.to_nat idx := v]> buf]> σ)) /\
  (forall i j n k,
     let V := SubMatrix A i j n k in
     data_ V = data_ A /\ data_rows_ V = data_rows_ A /\ data_cols_ V = data_cols_ A /\
     offset_i_ V = offset_i_ A + i /\ offset_j_ V = offset_j_ A + j /\
     forall i' j' n' k',
       let W := SubMatrix V i' j' n' k' in
       data_ W = data_ A /\
       offset_i_ W = offset_i_ A + i + i' /\ offset_j_ W = offset_j_ A + j + j') /\
  (forall i, Row A i = SubMatrix A i 0 1 (cols_ A)) /\
  (forall j, Col A j = SubMatrix A 0 j (rows_ A) 1) /\
  (forall i k v, 0 <= i < rows_ A -> 0 <= k < cols_ A ->
     (exists σ', View.set_At1 σ (Row A i) k v = Ok σ' /\ View.At σ' A i k = Ok v) /\
     (exists σ', View.set_At σ A i k v = Ok σ' /\ View.At1 σ' (Row A i) k = Ok v) /\
     (exists σ', View.set_At1 σ (Col A k) i v = Ok σ' /\ View.At σ' A i k = Ok v) /\
     (exists σ', View.set_At σ A i k v = Ok σ' /\ View.At1 σ' (Col A k) i = Ok v)) /\
  (forall i j n k, 0 <= i -> 0 <= j -> 0 <= n -> 0 <= k ->
     i + n <= rows_ A -> j + k <= cols_ A ->
     View.wf σ (SubMatrix A i j n k)).
Proof.
  intros Hw. pose proof Hw as (buf & Hb & Hg).
  split; [|split; [|split; [|split; [|split]]]].
  - intros i j Hi Hj. exists buf. split; [assumption|]. split.
    + unfold View.At. rewrite At_index_ok by assumption. simpl. rewrite Hb. reflexivity.
    + intros v. destruct (View_set_At_ok σ A i j v Hw Hi Hj) as (buf' & Hb' & E).
      rewrite Hb in Hb'. injection Hb' as <-. exact E.
  - intros i j n k. simpl. repeat split; lia.
  - reflexivity.
  - reflexivity.
  - intros i k v Hi Hk.
    pose proof (wf_index_bound _ A i k Hg Hi Hk) as Hidx.
    assert (Hlen : forall buf0, σ !! data_ A = Some buf0 ->
              (i + offset_i_ A) * data_cols_ A + offset_j_ A + k < Z.of_nat (length buf0)).
    { intros buf0 Hb0. rewrite Hb in Hb0. injection Hb0 as <-. lia. }
    destruct (Row_index A i k Hi Hk) as (_ & ri & Eri & Eai).
    destruct (Col_index A k i Hi Hk) as (_ & ci & Eci & Eai').
    rewrite At_index_ok in Eai, Eai' by assumption.
    injection Eai as <-. injection Eai' as <-.
    pose proof (At_index_ok A i k Hi Hk) as Ea.
    repeat split.
    + exact (alias_write_read σ A _ _ _ v Hw (proj1 Hidx) Hlen Eri Ea).
    + exact (alias_write_read σ A _ _ _ v Hw (proj1 Hidx) Hlen Ea Eri).
    + exact (alias_write_read σ A _ _ _ v Hw (proj1 Hidx) Hlen Eci Ea).
    + exact (alias_write_read σ A _ _ _ v Hw (proj1 Hidx) Hlen Ea Eci).
  - intros i j n k Hi Hj Hn Hk Hin Hjk. exists buf. split; [exact Hb|].
    unfold SubMatrix, Rows, Cols.
    destruct (Z.eqb_spec n (-1)); [lia|]. destruct (Z.eqb_spec k (-1)); [lia|].
    unfold wf_geom in *. simpl. lia.
Qed.

(** C7, amended.  The copy constructor gives the copy an array that was
    not in the store, of the size of the source and owned without offset,
    holding the cells of the source; a later write through the copy leaves
    every read through the source as it was, and a write through the
    source leaves every read through the copy.  The move constructor hands
    the source's state to the new object and leaves the source
    default-constructed (0 x 0, on an empty array of its own).  The move
    assignment swaps: the target takes the source's state and the source
    takes the state the target had. *)
Theorem copy_is_deep_move_swaps σ uninit other :
  View.wf σ other ->
  (exists c σ',
     View.copy_construct σ uninit other = Ok (c, σ') /\
     (data_ c ∉ dom σ) /\ owning c /\
     rows_ c = rows_ other /\ cols_ c = cols_ other /\
     (forall i j, View.At σ' other i j = View.At σ other i j) /\
     (forall i j, 0 <= i < rows_ other -> 0 <= j < cols_ other ->
        View.At σ' c i j = View.At σ other i j) /\
     (forall i j v σ'', View.set_At σ' c i j v = Ok σ'' ->
        forall i' j', View.At σ'' other i' j' = View.At σ' other i' j') /\
     (forall i j v σ'', View.set_At σ' other i j v = Ok σ'' ->
        forall i' j', View.At σ'' c i' j' = View.At σ' c i' j')) /\
  (exists this other' σ',
     View.move_construct σ other = Ok (this, other', σ') /\
     this = other /\ View.default_empty σ' other' /\
     (data_ other' ∉ dom σ) /\
     forall i j, View.At σ' this i j = View.At σ other i j) /\
  (forall this, View.move_assign this other = (other, this)).
Proof.
  intros Hw. pose proof Hw as (buf & Hb & Hg).
  assert (Hin : data_ other ∈ dom σ) by (apply elem_of_dom; eauto).
  split; [|split].
  - destruct (View_CopyFrom_ok σ uninit other Hw)
      as (c & σ' & E & Hfresh & Hown & Er & Ec & Hwc & Hfr & Hcells).
    assert (Hne : data_ other <> data_ c) by (intros Eq; apply Hfresh; rewrite <- Eq; exact Hin).
    assert (Hwo' : View.wf σ' other).
    { eapply (View_wf_ext σ); [symmetry; apply Hfr; assumption|assumption]. }
    exists c, σ'. split; [exact E|]. do 4 (split; [assumption|]).
    split; [|split; [|split]].
    + intros i j. apply View_At_ext. apply Hfr. assumption.
    + intros i j Hi Hj.
      rewrite (View_At_cell σ' c) by (assumption || lia).
      rewrite (View_At_cell σ other) by assumption.
      rewrite Hcells by assumption. reflexivity.
    + intros i j v σ'' Eset i' j'. apply View_At_ext.
      apply (View_set_At_frame _ _ _ _ _ _ Eset). assumption.
    + intros i j v σ'' Eset i' j'. apply View_At_ext.
      apply (View_set_At_frame _ _ _ _ _ _ Eset). congruence.
  - unfold View.move_construct, View.Matrix_default, View.Matrix_nm, View.Matrix_fill,
      View.alloc, View.Swap. simpl. unfold for_. simpl.
    eexists _, _, _. split; [reflexivity|]. split; [reflexivity|].
    assert (Hl : fresh (dom σ) ∉ dom σ) by apply is_fresh.
    split; [|split; [exact Hl|]].
    + unfold View.default_empty. simpl. rewrite lookup_insert_eq. tauto.
    + intros i j. apply View_At_ext. apply lookup_insert_ne.
      intros Eq. apply Hl. rewrite Eq. exact Hin.
  - reflexivity.
Qed.
End ViewClaims.

(** * Equality up to epsilon, on [double] *)

Lemma for_ret_none {A : Type} (n : Z) (body : Z -> Res (option A)) :
  (forall i, 0 <= i < n -> body i = Ok None) -> for_ret n body = Ok None.
Proof.
  intros Hb. unfold for_ret.
  assert (G : forall k lo, 0 <= lo -> lo + Z.of_nat k <= Z.max 0 n ->
            for_range_ret lo k body = Ok (@None A)).
  { induction k as [|k IH]; intros lo Hlo Hhi; simpl; [reflexivity|].
    rewrite Hb by lia. simpl. apply IH; lia. }
  apply G; lia.
Qed.

Module DoubleFacts.
Import Double.
Open Scope float_scope.

Lemma Prim2SF_zero : Prim2SF 0 = S754_zero false.
Proof. reflexivity. Qed.

Lemma Prim2SF_infinity : Prim2SF infinity = S754_infinity false.
Proof. reflexivity. Qed.

Lemma SFcompare_refl x : x <> S754_nan -> SFcompare x x = Some Eq.
Proof.
  destruct x as [s|s| |s m e]; intros Hx; try congruence; simpl.
  - reflexivity.
  - destruct s; reflexivity.
  - destruct s; rewrite Z.compare_refl; f_equal; rewrite Pos.compare_cont_refl; reflexivity.
Qed.

Lemma not_nan_spec x : PrimFloat.is_nan x = false -> Prim2SF x <> S754_nan.
Proof.
  unfold is_nan. rewrite FloatAxioms.eqb_spec. intros Hx E. rewrite E in Hx. discriminate Hx.
Qed.

Lemma rne_self x : PrimFloat.is_nan x = false -> rne x x = false.
Proof. intros Hx. exact Hx. Qed.

Lemma finite_not_nan x : finite x = true -> PrimFloat.is_nan x = false.
Proof. unfold finite. destruct (is_nan x); [discriminate|reflexivity]. Qed.

Lemma finite_spec x :
  finite x = true ->
  (exists s, Prim2SF x = S754_zero s) \/ (exists s m e, Prim2SF x = S754_finite s m e).
Proof.
  unfold finite, is_nan, is_infinity.
  rewrite !FloatAxioms.eqb_spec, FloatAxioms.abs_spec, Prim2SF_infinity.
  destruct (Prim2SF x) as [s|s| |s m e]; simpl; try discriminate; eauto.
  rewrite Bool.andb_false_r. discriminate.
Qed.

(** [x - x] is [+0] for a finite [x]. *)
Lemma sub_self x : finite x = true -> x - x = 0.
Proof.
  intros Hx. apply Prim2SF_inj. rewrite FloatAxioms.sub_spec, Prim2SF_zero.
  destruct (finite_spec x Hx) as [[s ->]|(s & m & e & ->)]; unfold SF64sub; simpl.
  - destruct s; reflexivity.
  - rewrite Z.sub_diag. reflexivity.
Qed.

(** [x + 0] is not NaN, and is within every non-negative epsilon of [x],
    when [x] is not NaN. *)
Lemma add_zero x :
  PrimFloat.is_nan x = false ->
  PrimFloat.is_nan (x + 0) = false /\
  forall eps, (eps <? 0) = false -> (eps <? abs (x + 0 - x)) = false.
Proof.
  intros Hx. pose proof (not_nan_spec x Hx) as Hn.
  assert (Hadd : Prim2SF (x + 0)
                 = match Prim2SF x with S754_zero _ => S754_zero false | y => y end).
  { rewrite FloatAxioms.add_spec, Prim2SF_zero. unfold SF64add.
    destruct (Prim2SF x) as [s|s| |s m e]; try reflexivity. destruct s; reflexivity. }
  split.
  - unfold is_nan. rewrite FloatAxioms.eqb_spec, Hadd. unfold SFeqb.
    rewrite SFcompare_refl; [reflexivity|].
    destruct (Prim2SF x); congruence.
  - intros eps He.
    destruct (Prim2SF x) as [s|s| |s m e] eqn:Ex; try congruence.
    + replace (abs (x + 0 - x)) with 0; [assumption|].
      apply Prim2SF_inj.
      rewrite FloatAxioms.abs_spec, FloatAxioms.sub_spec, Hadd, Ex, Prim2SF_zero.
      destruct s; reflexivity.
    + rewrite FloatAxioms.ltb_spec, FloatAxioms.abs_spec, FloatAxioms.sub_spec, Hadd, Ex.
      unfold SF64sub; simpl.
      destruct s; simpl; unfold SFltb; destruct (Prim2SF eps); reflexivity.
    + replace (abs (x + 0 - x)) with 0; [assumption|].
      apply Prim2SF_inj.
      rewrite FloatAxioms.abs_spec, FloatAxioms.sub_spec, Hadd, Ex, Prim2SF_zero.
      unfold SF64sub; simpl. rewrite Z.sub_diag. reflexivity.
Qed.

(** Two matrices of one size whose cells pass the three tests of
    [operator!=] at every index are equal for [operator==]. *)
Lemma op_eq_true (ME : MatrixEps float) r c (a b : Mat float) :
  shaped r c a -> shaped r c b ->
  (forall i j x y, (0 <= i < r)%Z -> (0 <= j < c)%Z ->
     cell a i j = Some x -> cell b i j = Some y ->
     PrimFloat.is_nan x = false /\ PrimFloat.is_nan y = false /\
     (GetEps <? abs (x - y)) = false) ->
  op_eq a b = Ok true.
Proof.
  intros Ha Hb Hcells. pose proof Ha as (Hwa & Era & Eca). pose proof Hb as (Hwb & Erb & Ecb).
  unfold op_eq, op_ne.
  rewrite (AssertEqualSizes_ok r c) by assumption. cbn [bind].
  unfold Rows, Cols. rewrite Era, Eca.
  rewrite for_ret_none; [reflexivity|].
  intros i Hi. apply for_ret_none. intros j Hj.
  destruct (At_ok a i j Hwa) as (x & Hx & ->); [lia..|]. cbn [bind].
  destruct (At_ok b i j Hwb) as (y & Hy & ->); [lia..|]. cbn [bind].
  destruct (Hcells i j x y Hi Hj Hx Hy) as (E1 & E2 & E3).
  unfold is_nan in E1, E2. cbn. rewrite E1, E2. cbn. rewrite E3. reflexivity.
Qed.

(** C8, amended.  For every well-formed matrix [A] (square or not) and
    every configured epsilon that is not negative: [(A + Zeros) == A] when
    no cell of [A] is NaN, and [(A - A) == Zeros] when every cell of [A] is
    finite, where [Zeros] has the size of [A]. *)
Theorem zero_is_neutral_up_to_eps r c (A : Mat float) (eps : float) :
  shaped r c A -> (eps <? 0) = false ->
  let ME := {| GetEps := eps |} in
  (all_cells (fun x => negb (PrimFloat.is_nan x)) A ->
   exists Z S, Zeros r c = Ok Z /\ op_plus A Z = Ok S /\ op_eq S A = Ok true) /\
  (all_cells finite A ->
   exists Z D, Zeros r c = Ok Z /\ op_minus A A = Ok D /\ op_eq D Z = Ok true).
Proof.
  intros HA Heps ME. destruct (shaped_nonneg _ _ _ HA) as [Hr Hc].
  pose proof HA as (_ & Er & Ec).
  destruct (Matrix_nm_ok (T := float) r c Hr Hc) as (Z & EZ & HZ & _ & HZc).
  split; intros Hall.
  - destruct (op_plus_ok r c A Z HA HZ) as (S & ES & HS & _ & HSc).
    exists Z, S. split; [exact EZ|]. split; [exact ES|].
    apply (op_eq_true ME r c); [assumption..|].
    intros i j x y Hi Hj Hx Hy.
    destruct (HSc i j Hi Hj) as (a & z & Ha & Hz & Hs).
    rewrite HZc in Hz by assumption. injection Hz as <-.
    rewrite Hy in Ha. injection Ha as <-.
    rewrite Hx in Hs. injection Hs as ->.
    assert (Hy' : PrimFloat.is_nan y = false).
    { specialize (Hall i j y). rewrite Er, Ec in Hall.
      apply Bool.negb_true_iff. apply Hall; assumption. }
    destruct (add_zero y Hy') as [Hn Hd].
    split; [exact Hn|]. split; [exact Hy'|]. apply Hd. exact Heps.
  - destruct (op_minus_ok r c A A HA HA) as (D & ED & HD & _ & HDc).
    exists Z, D. split; [exact EZ|]. split; [exact ED|].
    apply (op_eq_true ME r c); [assumption..|].
    intros i j x y Hi Hj Hx Hy.
    destruct (HDc i j Hi Hj) as (a & a' & Ha & Ha' & Hs).
    rewrite Ha in Ha'. injection Ha' as <-.
    rewrite HZc in Hy by assumption. injection Hy as <-.
    rewrite Hx in Hs. injection Hs as ->.
    assert (Hfin : finite a = true).
    { specialize (Hall i j a). rewrite Er, Ec in Hall. apply Hall; assumption. }
    rewrite (sub_self a Hfin). split; [reflexivity|]. split; [reflexivity|].
    exact Heps.
Qed.
End DoubleFacts.

(** * The dot product *)

Lemma for_range_fold {St : Type} (body : Z -> St -> Res St) (f : Z -> St -> St) :
  forall (k : nat) (lo : Z) (s : St),
    (forall i s, lo <= i < lo + Z.of_nat k -> body i s = Ok (f i s)) ->
    for_range lo k body s = Ok (foldl (fun s i => f i s) s (seqZ lo (Z.of_nat k))).
Proof.
  induction k as [|k IH]; intros lo s Hb; [reflexivity|].
  rewrite seqZ_cons by lia. cbn [for_range foldl]. rewrite Hb by lia. cbn [bind].
  rewrite IH by (intros; apply Hb; lia).
  do 3 f_equal. lia.
Qed.

Section DotProduct.
Context {T : Type} `{Scalar T}.
Implicit Types this b : Mat T.

Lemma At1_vector this i :
  wf this -> IsVector this = true -> 1 <= rows_ this -> 1 <= cols_ this ->
  0 <= i < Z.max (cols_ this) (rows_ this) ->
  exists v, vector_at this i = Some v /\ At1 this i = Ok v.
Proof.
  intros Hw Hv Hr Hc Hi. unfold At1, At1_index, vector_at, IsRowVector, Rows.
  unfold IsVector, IsColVector, IsRowVector, Rows, Cols in Hv.
  destruct (Z.eqb_spec (rows_ this) 1) as [E|E].
  - apply (At_ok this 0 i Hw); lia.
  - rewrite orb_false_r in Hv. unfold IsColVector, Cols. rewrite Hv.
    apply Z.eqb_eq in Hv. apply (At_ok this i 0 Hw); lia.
Qed.

(** [ScalarProduct]: [runtime_error] when an operand is not a vector,
    [invalid_argument] when both are vectors of different sizes, and for
    two vectors of one size with at least one element the sum [dot] of the
    products of their elements. *)
Theorem ScalarProduct_spec this b :
  wf this -> wf b ->
  (IsVector this = false \/ IsVector b = false ->
   ScalarProduct this b
   = Throw (runtime_error ("Matrices of sizes " +:+ PairToString (Size this) +:+
                           " and " +:+ PairToString (Size b) +:+ " are not both vectors"))) /\
  (IsVector this = true -> IsVector b = true -> Size this <> Size b ->
   ScalarProduct this b
   = Throw (invalid_argument ("Wrong matrix sizes: " +:+ PairToString (Size this)
                              +:+ " " +:+ PairToString (Size b)))) /\
  (IsVector this = true -> Size this = Size b ->
   1 <= rows_ this -> 1 <= cols_ this ->
   exists x y : Z -> T,
     (forall i, 0 <= i < Z.max (cols_ this) (rows_ this) ->
        vector_at this i = Some (x i) /\ vector_at b i = Some (y i)) /\
     ScalarProduct this b = Ok (dot x y (Z.max (cols_ this) (rows_ this)))).
Proof.
  intros Hw Hwb. split; [|split].
  - intros Hnv. unfold ScalarProduct.
    destruct Hnv as [-> | ->]; simpl; [reflexivity|].
    rewrite orb_true_r. reflexivity.
  - intros Hv Hvb Hne. unfold ScalarProduct. rewrite Hv, Hvb. simpl.
    unfold AssertEqualSizes, size_eqb, Size in *. simpl.
    destruct (Z.eqb_spec (rows_ this) (rows_ b)) as [Er|]; [|reflexivity].
    destruct (Z.eqb_spec (cols_ this) (cols_ b)) as [Ec|]; [|reflexivity].
    exfalso. apply Hne. congruence.
  - intros Hv Hs Hr Hc. unfold Size in Hs. injection Hs as Er Ec.
    assert (Hvb : IsVector b = true).
    { unfold IsVector, IsColVector, IsRowVector, Rows, Cols in *. congruence. }
    set (n := Z.max (cols_ this) (rows_ this)).
    exists (fun i => default szero (vector_at this i)),
           (fun i => default szero (vector_at b i)).
    assert (Hx : forall i, 0 <= i < n ->
              exists x y, vector_at this i = Some x /\ vector_at b i = Some y /\
                          At1 this i = Ok x /\ At1 b i = Ok y).
    { intros i Hi.
      destruct (At1_vector this i Hw Hv Hr Hc Hi) as (x & Hx1 & Hx2).
      destruct (At1_vector b i Hwb Hvb) as (y & Hy1 & Hy2); [lia..|].
      exists x, y. tauto. }
    split.
    + intros i Hi. destruct (Hx i Hi) as (x & y & -> & -> & _). split; reflexivity.
    + unfold ScalarProduct. rewrite Hv, Hvb. simpl.
      rewrite (AssertEqualSizes_ok (rows_ this) (cols_ this)) by congruence. simpl.
      unfold for_, Cols, Rows. fold n.
      rewrite (for_range_fold _ (fun i ans =>
                 sadd ans (smul (default szero (vector_at this i))
                                (default szero (vector_at b i))))).
      * unfold dot. rewrite Z2Nat.id by lia. reflexivity.
      * intros i ans Hi. destruct (Hx i) as (x & y & -> & -> & -> & ->); [lia|]. reflexivity.
Qed.
End DotProduct.

(** * Element access and construction *)

Section Access.
Context {T : Type} `{Scalar T}.
Implicit Types m : Mat T.

Lemma same_geom_At_index m m' i j :
  same_geom m m' -> At_index m' i j = At_index m i j.
Proof.
  intros (E1 & E2 & E3 & E4 & E5 & E6 & _). unfold At_index, Size.
  rewrite E2, E3, E4, E5, E6. reflexivity.
Qed.

Lemma At_index_inv m i j k :
  At_index m i j = Ok k -> 0 <= i < rows_ m /\ 0 <= j < cols_ m.
Proof.
  unfold At_index.
  destruct (Z.ltb_spec i 0), (Z.ltb_spec j 0); simpl; try discriminate.
  rewrite !Z.geb_leb.
  destruct (Z.leb_spec (rows_ m) i), (Z.leb_spec (cols_ m) j); simpl; try discriminate.
  intros _. lia.
Qed.

Lemma At_cell m i j :
  wf m -> 0 <= i < rows_ m -> 0 <= j < cols_ m ->
  At m i j = match cell m i j with Some v => Ok v | None => Undefined end.
Proof.
  intros Hw Hi Hj. destruct (At_ok m i j Hw Hi Hj) as (v & -> & ->). reflexivity.
Qed.

(** [At(i, j)] on a well-formed matrix: inside the logical extents it
    reads the cell, outside it throws [out_of_range] with the indexes and
    the size in the message, and so does a write, before anything is
    written.  The array is never addressed outside its bounds. *)
Theorem At_checks_bounds m i j :
  wf m ->
  (0 <= i < rows_ m /\ 0 <= j < cols_ m ->
   exists v, cell m i j = Some v /\ At m i j = Ok v) /\
  (~ (0 <= i < rows_ m /\ 0 <= j < cols_ m) ->
   let e := out_of_range ("Indexes (" +:+ pretty i +:+ "; " +:+ pretty j
                          +:+ ") out of matrix size " +:+ PairToString (rows_ m, cols_ m)) in
   At m i j = Throw e /\ forall v, set_At m i j v = Throw e).
Proof.
  intros Hw. split.
  - intros [Hi Hj]. apply At_ok; assumption.
  - intros Hout e.
    assert (E : At_index m i j = Throw e).
    { unfold At_index, e, Size. zbool; reflexivity. }
    unfold At, set_At. rewrite E. split; [reflexivity|]. intros v. reflexivity.
Qed.

(** A write inside the extents is read back at its index, and every
    other index reads (or throws) as before; the matrix keeps its size and
    stays well formed. *)
Theorem set_At_read_back m i j v :
  wf m -> 0 <= i < rows_ m -> 0 <= j < cols_ m ->
  exists m', set_At m i j v = Ok m' /\ wf m' /\ Size m' = Size m /\
    At m' i j = Ok v /\
    forall i' j', (i', j') <> (i, j) -> At m' i' j' = At m i' j'.
Proof.
  intros Hw Hi Hj.
  destruct (set_At_ok m i j v Hw Hi Hj) as (m' & E & Hg & Hv & Hfr).
  pose proof (same_geom_wf _ _ Hw Hg) as Hw'.
  pose proof Hg as (_ & _ & Ec & Er & _).
  exists m'. split; [exact E|]. split; [exact Hw'|].
  split; [unfold Size; congruence|]. split.
  - rewrite At_cell by (assumption || lia). rewrite Hv. reflexivity.
  - intros i' j' Hne.
    destruct (At_index m i' j') as [k| | |] eqn:Ek.
    + apply At_index_inv in Ek. destruct Ek as [Hi' Hj'].
      rewrite (At_cell m') by (assumption || lia).
      rewrite (At_cell m) by assumption. rewrite Hfr by assumption. reflexivity.
    + unfold At. rewrite (same_geom_At_index m m') by assumption. rewrite Ek. reflexivity.
    + unfold At. rewrite (same_geom_At_index m m') by assumption. rewrite Ek. reflexivity.
    + unfold At. rewrite (same_geom_At_index m m') by assumption. rewrite Ek. reflexivity.
Qed.
End Access.

Section Construction.
Context {T : Type} `{Scalar T}.
Implicit Types m : Mat T.

Lemma owning_not_sub {D : Type} (m : Matrix D) : owning m -> IsSubMatrix m = false.
Proof.
  intros (E1 & E2 & E3 & E4). unfold IsSubMatrix.
  rewrite E1, E2, E3, E4, !Z.eqb_refl. reflexivity.
Qed.

(** [Matrix(n, m, value)], for two [int] whose product [n * m] is an
    [int] too (from 46341 x 46341 on it is not, and the multiplication
    of the source overflows): a negative product throws
    [bad_array_new_length]; for [n, m >= 0] the result is an owning
    [n x m] matrix on an array of [n * m] cells, every cell [value]; and a
    pair with a dimension that is not positive (also two negative ones) is
    accepted and gives a matrix on which every access throws
    [out_of_range]. *)
Theorem Matrix_fill_spec n k (v : T) :
  in_int n -> in_int k -> in_int (n * k) ->
  (n * k < 0 -> Matrix_fill n k v = Throw bad_array_new_length) /\
  (0 <= n -> 0 <= k ->
   exists m, Matrix_fill n k v = Ok m /\ shaped n k m /\ owning m /\
     IsSubMatrix m = false /\ length (data_ m) = Z.to_nat (n * k) /\
     forall i j, 0 <= i < n -> 0 <= j < k -> At m i j = Ok v) /\
  (0 <= n * k -> n <= 0 \/ k <= 0 ->
   exists m, Matrix_fill n k v = Ok m /\ rows_ m = n /\ cols_ m = k /\
     forall i j, exists what, At m i j = Throw (out_of_range what)).
Proof.
  intros _ _ _. split; [|split].
  - intros Hneg. unfold Matrix_fill. destruct (Z.ltb_spec (n * k) 0); [reflexivity|lia].
  - intros Hn Hk. destruct (Matrix_fill_ok n k v Hn Hk) as (m & E & Hs & Hown & Hc).
    exists m. split; [exact E|]. split; [exact Hs|]. split; [exact Hown|].
    split; [apply owning_not_sub; exact Hown|].
    pose proof Hs as (Hw & Er & Ec). split.
    + destruct Hown as (_ & _ & E1 & E2).
      destruct Hw as (_ & _ & _ & _ & _ & _ & Hlen). rewrite E1, E2, Er, Ec in Hlen. lia.
    + intros i j Hi Hj. rewrite At_cell by (assumption || lia).
      rewrite Hc by assumption. reflexivity.
  - intros Hnk Hdeg. unfold Matrix_fill.
    destruct (Z.ltb_spec (n * k) 0); [lia|].
    set (this0 := {| data_ := replicate (Z.to_nat (n * k)) szero;
                     data_rows_ := n; data_cols_ := k; cols_ := k; rows_ := n;
                     offset_i_ := 0; offset_j_ := 0 |}).
    assert (E : for_ (Rows this0) (fun i this =>
                  for_ (Cols this) (fun j this => set_At this i j v) this) this0 = Ok this0).
    { destruct (for_pres (fun s => s = this0) (Rows this0)
                  (fun i this => for_ (Cols this) (fun j this => set_At this i j v) this)
                  this0) as (s' & E & ->); [reflexivity| |exact E].
      intros i s Hi ->. exists this0. split; [|reflexivity].
      unfold Rows in Hi. simpl in Hi.
      assert (k = 0) by nia. subst k. reflexivity. }
    rewrite E. exists this0. split; [reflexivity|]. split; [reflexivity|].
    split; [reflexivity|].
    intros i j. unfold At.
    destruct (At_index_throws this0 i j) as (what & ->); [simpl; lia|].
    exists what. reflexivity.
Qed.

(** [Ones(n)], for [n >= 0] with [n * n] an [int] (that is, up to
    [n = 46340]; beyond, the product in the constructor overflows), is the
    identity matrix: 1 on the diagonal, [T()] elsewhere. *)
Theorem Ones_is_identity n :
  0 <= n -> in_int (n * n) ->
  exists m, Ones n = Ok m /\ shaped n n m /\ owning m /\
    forall i j, 0 <= i < n -> 0 <= j < n ->
      cell m i j = Some (if i =? j then sof_int 1 else szero).
Proof.
  intros Hn _. unfold Ones, Matrix_n.
  destruct (Matrix_nm_ok (T := T) n n Hn Hn) as (m0 & -> & Hs0 & Hown & Hz). simpl.
  destruct (for_inv (fun i s => same_geom m0 s /\
              forall i' j', 0 <= i' < n -> 0 <= j' < n ->
                cell s i' j' = Some (if (i' =? j') && (i' <? i) then sof_int 1 else szero))
              n (fun i a => set_At a i i (sof_int 1)) m0) as (m & E & Hg & Hc).
  - split; [apply same_geom_refl|]. intros i' j' Hi' Hj'.
    rewrite Hz by assumption. destruct (Z.ltb_spec i' 0); [lia|].
    rewrite andb_false_r. reflexivity.
  - intros i s Hi (Hg & Hc).
    pose proof (same_geom_shaped _ _ _ _ Hs0 Hg) as (Hws & Ers & Ecs).
    destruct (set_At_ok s i i (sof_int 1) Hws) as (s' & E' & Hg' & Hv & Hfr); [lia..|].
    exists s'. split; [exact E'|]. split; [eapply same_geom_trans; eassumption|].
    intros i' j' Hi' Hj'.
    destruct (Z.eq_dec i' i) as [->|Hne]; [destruct (Z.eq_dec j' i) as [->|Hne]|].
    + rewrite Hv, Z.eqb_refl. destruct (Z.ltb_spec i (i + 1)); [reflexivity|lia].
    + rewrite Hfr by (lia || congruence). rewrite Hc by assumption.
      destruct (Z.eqb_spec i j'); [congruence|reflexivity].
    + rewrite Hfr by (lia || congruence). rewrite Hc by assumption.
      destruct (Z.eqb_spec i' j'); [|reflexivity]. simpl.
      destruct (Z.ltb_spec i' i), (Z.ltb_spec i' (i + 1)); (reflexivity || lia).
  - exists m. split; [exact E|].
    split; [eapply same_geom_shaped; eassumption|].
    split; [eapply same_geom_owning; eassumption|].
    intros i j Hi Hj. rewrite Hc by assumption. rewrite Z.max_r by lia.
    destruct (Z.ltb_spec i n); [|lia]. rewrite andb_true_r. reflexivity.
Qed.
End Construction.

(** ** The initializer-list constructor *)





Section InitializerList.
Context {T : Type} `{Scalar T}.
Implicit Types m : Mat T.

(** Two owning matrices of one size with the same cells are the same
    record. *)
Lemma owning_ext r c (m : Mat T) (buf : list T) :
  shaped r c m -> owning m -> length buf = Z.to_nat (r * c) ->
  (forall i j, 0 <= i < r -> 0 <= j < c -> cell m i j = buf !! Z.to_nat (i * c + j)) ->
  m = {| data_ := buf; data_rows_ := r; data_cols_ := c; cols_ := c; rows_ := r;
         offset_i_ := 0; offset_j_ := 0 |}.
Proof.
  intros (Hw & Er & Ec) (Eoi & Eoj & Edr & Edc) Hlen Hcells.
  destruct m as [d dr dc cc rr oi oj]. simpl in *. subst dr dc oi oj rr cc.
  destruct Hw as (_ & _ & Hr & Hc & _ & _ & Hl). simpl in *.
  f_equal. apply list_eq. intros t.
  destruct (Nat.lt_ge_cases t (length buf)) as [Hlt|Hge].
  - assert (Hc0 : 0 < c) by nia.
    specialize (Hcells (Z.of_nat t / c) (Z.of_nat t mod c)).
    unfold cell in Hcells. simpl in Hcells.
    pose proof (Z.div_mod (Z.of_nat t) c ltac:(lia)) as Hdm.
    pose proof (Z.mod_pos_bound (Z.of_nat t) c Hc0) as Hmod.
    assert (Hdiv : 0 <= Z.of_nat t / c < r).
    { split; [apply Z.div_pos; lia|]. apply Z.div_lt_upper_bound; nia. }
    replace (Z.to_nat ((Z.of_nat t / c + 0) * c + 0 + Z.of_nat t mod c)) with t
      in Hcells by nia.
    replace (Z.to_nat (Z.of_nat t / c * c + Z.of_nat t mod c)) with t in Hcells by nia.
    apply Hcells; lia.
  - rewrite (lookup_ge_None_2 buf) by lia. apply lookup_ge_None_2. lia.
Qed.

End InitializerList.

(** * Transposition and arithmetic *)

Section Arithmetic.
Context {T : Type} `{Scalar T}.
Implicit Types this a b lhs rhs m : Mat T.

Lemma Transposed_ok r c this :
  shaped r c this ->
  exists m, Transposed this = Ok m /\ shaped c r m /\ owning m /\
    forall i j, 0 <= i < c -> 0 <= j < r -> cell m i j = cell this j i.
Proof.
  intros Ht. pose proof Ht as (Hw & Er & Ec).
  destruct (shaped_nonneg _ _ _ Ht) as [Hr0 Hc0].
  unfold Transposed, Rows, Cols. rewrite Er, Ec.
  destruct (Matrix_nm_ok (T := T) c r Hc0 Hr0) as (m0 & -> & Hs0 & Hown & _). simpl.
  destruct (for2_todo_done (same_geom m0) (fun _ _ _ => True)
              (fun i j s => cell s i j = cell this j i) c r (fun _ => r)
              (fun i j s => v <- At this j i ;; set_At s i j v) m0)
    as (m & E & Hg & Hd); try (exact I || apply same_geom_refl || (intros; exact I)).
  - reflexivity.
  - intros i j s Hi Hj Hs _.
    pose proof (same_geom_shaped _ _ _ _ Hs0 Hs) as (Hws & Ers & Ecs).
    destruct (At_ok this j i Hw) as (v & Hv & ->); [lia..|]. simpl.
    destruct (set_At_ok s i j v Hws) as (s' & -> & Hg' & Hv' & Hfr); [lia..|].
    exists s'. split; [reflexivity|]. split; [|split].
    + eapply same_geom_trans; eassumption.
    + congruence.
    + intros i' j' Hi' Hj' Hne. split; [tauto|].
      intros Hd. rewrite Hfr; [assumption|lia..|assumption].
  - exists m. split; [exact E|].
    split; [eapply same_geom_shaped; eassumption|].
    split; [eapply same_geom_owning; eassumption|exact Hd].
Qed.

(** [Transposed()] of an [r x c] matrix (a view or not) is an owning
    [c x r] matrix whose cell [(i, j)] is the cell [(j, i)] of the source;
    transposing twice gives the cells of the source back. *)
Theorem Transposed_spec r c this :
  shaped r c this ->
  exists m, Transposed this = Ok m /\ shaped c r m /\ owning m /\
    (forall i j, 0 <= i < c -> 0 <= j < r -> cell m i j = cell this j i) /\
    exists m2, Transposed m = Ok m2 /\ shaped r c m2 /\
      forall i j, 0 <= i < r -> 0 <= j < c -> cell m2 i j = cell this i j.
Proof.
  intros Ht.
  destruct (Transposed_ok r c this Ht) as (m & E & Hm & Hown & Hc).
  destruct (Transposed_ok c r m Hm) as (m2 & E2 & Hm2 & _ & Hc2).
  exists m. split; [exact E|]. split; [exact Hm|]. split; [exact Hown|].
  split; [exact Hc|].
  exists m2. split; [exact E2|]. split; [exact Hm2|].
  intros i j Hi Hj. rewrite Hc2, Hc by assumption. reflexivity.
Qed.

Lemma dot_zero (x y : Z -> T) : dot x y 0 = szero.
Proof. reflexivity. Qed.

Lemma dot_succ (x y : Z -> T) n :
  0 <= n -> dot x y (n + 1) = sadd (dot x y n) (smul (x n) (y n)).
Proof.
  intros Hn. unfold dot. rewrite seqZ_app by lia. rewrite foldl_app. reflexivity.
Qed.

(** [operator*] on matrices: entry [(i, j)] of the product of an [r x k]
    and a [k x c] matrix is the sum over [t] of [lhs(i, t) * rhs(t, j)],
    accumulated from [T()] in the order [t = 0, 1, ...]; the result is a
    new owning [r x c] matrix (all [T()] when [k = 0]).  The size [r * c]
    of the result is assumed to be an [int]: the operands do not bound it
    (a column times a row), and the product in the constructor of the
    result overflows otherwise. *)
Theorem op_mul_spec r k c lhs rhs :
  shaped r k lhs -> shaped k c rhs -> in_int (r * c) ->
  exists (L R : Z -> Z -> T) m,
    (forall i t, 0 <= i < r -> 0 <= t < k -> cell lhs i t = Some (L i t)) /\
    (forall t j, 0 <= t < k -> 0 <= j < c -> cell rhs t j = Some (R t j)) /\
    op_mul lhs rhs = Ok m /\ shaped r c m /\ owning m /\
    forall i j, 0 <= i < r -> 0 <= j < c ->
      cell m i j = Some (dot (L i) (fun t => R t j) k).
Proof.
  intros Hl Hr _. pose proof Hl as (Hwl & Erl & Ecl). pose proof Hr as (Hwr & Err & Ecr).
  destruct (shaped_nonneg _ _ _ Hl) as [Hr0 Hk0].
  destruct (shaped_nonneg _ _ _ Hr) as [_ Hc0].
  set (L := fun i t => default szero (cell lhs i t)).
  set (R := fun t j => default szero (cell rhs t j)).
  set (P := fun i j t => dot (L i) (fun t => R t j) t).
  assert (HL : forall i t, 0 <= i < r -> 0 <= t < k ->
            cell lhs i t = Some (L i t) /\ At lhs i t = Ok (L i t)).
  { intros i t Hi Ht. destruct (At_ok lhs i t Hwl) as (x & Hx & Ex); [lia..|].
    unfold L. rewrite Hx. split; [reflexivity|exact Ex]. }
  assert (HR : forall t j, 0 <= t < k -> 0 <= j < c ->
            cell rhs t j = Some (R t j) /\ At rhs t j = Ok (R t j)).
  { intros t j Ht Hj. destruct (At_ok rhs t j Hwr) as (x & Hx & Ex); [lia..|].
    unfold R. rewrite Hx. split; [reflexivity|exact Ex]. }
  exists L, R.
  unfold op_mul, Rows, Cols. rewrite Ecl, Err, Z.eqb_refl, Erl, Ecr. simpl.
  destruct (Matrix_nm_ok r c Hr0 Hc0) as (m0 & -> & Hs0 & Hown & Hz). simpl.
  destruct (for_inv
    (fun i s => same_geom m0 s /\
       forall i' j', 0 <= i' < r -> 0 <= j' < c ->
         cell s i' j' = Some (if i' <? i then P i' j' k else szero))
    r
    (fun i result => for_ k (fun k0 result => for_ c (fun j result =>
       x <- At lhs i k0 ;; y <- At rhs k0 j ;; r0 <- At result i j ;;
       set_At result i j (sadd r0 (smul x y))) result) result) m0)
    as (m & E & Hg & Hcells).
  - split; [apply same_geom_refl|]. intros i' j' Hi' Hj'.
    rewrite Hz by assumption. destruct (Z.ltb_spec i' 0); [lia|reflexivity].
  - intros i s Hi (Hgs & Hcs).
    destruct (for_inv
      (fun t s => same_geom m0 s /\
         forall i' j', 0 <= i' < r -> 0 <= j' < c ->
           cell s i' j' = Some (if i' <? i then P i' j' k
                                else if i' =? i then P i' j' t else szero))
      k
      (fun k0 result => for_ c (fun j result =>
         x <- At lhs i k0 ;; y <- At rhs k0 j ;; r0 <- At result i j ;;
         set_At result i j (sadd r0 (smul x y))) result) s)
      as (s1 & E1 & Hg1 & Hc1).
    + split; [assumption|]. intros i' j' Hi' Hj'. rewrite Hcs by assumption.
      destruct (Z.ltb_spec i' i); [reflexivity|].
      destruct (Z.eqb_spec i' i); reflexivity.
    + intros t s1 Ht (Hgs1 & Hcs1).
      destruct (for_inv
        (fun j s => same_geom m0 s /\
           forall i' j', 0 <= i' < r -> 0 <= j' < c ->
             cell s i' j' = Some (if i' <? i then P i' j' k
                                  else if i' =? i
                                       then (if j' <? j then P i' j' (t + 1) else P i' j' t)
                                       else szero))
        c
        (fun j result =>
           x <- At lhs i t ;; y <- At rhs t j ;; r0 <- At result i j ;;
           set_At result i j (sadd r0 (smul x y))) s1)
        as (s2 & E2 & Hg2 & Hc2).
      * split; [assumption|]. intros i' j' Hi' Hj'. rewrite Hcs1 by assumption.
        destruct (Z.ltb_spec j' 0); [lia|reflexivity].
      * intros j s2 Hj (Hgs2 & Hcs2).
        pose proof (same_geom_shaped _ _ _ _ Hs0 Hgs2) as (Hws & Ers & Ecs).
        destruct (HL i t Hi Ht) as [_ ->]. simpl.
        destruct (HR t j Ht Hj) as [_ ->]. simpl.
        rewrite At_cell by (assumption || lia). rewrite Hcs2 by assumption.
        destruct (Z.ltb_spec i i); [lia|]. rewrite Z.eqb_refl.
        destruct (Z.ltb_spec j j); [lia|]. simpl.
        destruct (set_At_ok s2 i j (sadd (P i j t) (smul (L i t) (R t j))) Hws)
          as (s3 & -> & Hg3 & Hv3 & Hfr3); [lia..|].
        exists s3. split; [reflexivity|].
        split; [eapply same_geom_trans; eassumption|].
        intros i' j' Hi' Hj'.
        destruct (Z.eq_dec i' i) as [->|Hni]; [destruct (Z.eq_dec j' j) as [->|Hnj]|].
        -- rewrite Hv3. destruct (Z.ltb_spec i i); [lia|]. rewrite Z.eqb_refl.
           destruct (Z.ltb_spec j (j + 1)); [|lia].
           unfold P. rewrite dot_succ by lia. reflexivity.
        -- rewrite Hfr3 by (lia || congruence). rewrite Hcs2 by assumption.
           destruct (Z.ltb_spec i i); [lia|]. rewrite Z.eqb_refl.
           destruct (Z.ltb_spec j' j), (Z.ltb_spec j' (j + 1)); (reflexivity || lia).
        -- rewrite Hfr3 by (lia || congruence). rewrite Hcs2 by assumption.
           destruct (Z.ltb_spec i' i); [reflexivity|].
           destruct (Z.eqb_spec i' i); [lia|reflexivity].
      * exists s2. split; [exact E2|]. split; [assumption|].
        intros i' j' Hi' Hj'. rewrite Hc2 by assumption. rewrite Z.max_r by lia.
        destruct (Z.ltb_spec i' i); [reflexivity|].
        destruct (Z.eqb_spec i' i); [|reflexivity].
        destruct (Z.ltb_spec j' c); [reflexivity|lia].
    + exists s1. split; [exact E1|]. split; [assumption|].
      intros i' j' Hi' Hj'. rewrite Hc1 by assumption. rewrite Z.max_r by lia.
      destruct (Z.ltb_spec i' i), (Z.ltb_spec i' (i + 1)); try lia; try reflexivity.
      * destruct (Z.eqb_spec i' i); [reflexivity|lia].
      * destruct (Z.eqb_spec i' i); [lia|reflexivity].
  - exists m. split; [intros i t Hi Ht; apply HL; assumption|].
    split; [intros t j Ht Hj; apply HR; assumption|].
    split; [exact E|].
    split; [eapply same_geom_shaped; eassumption|].
    split; [eapply same_geom_owning; eassumption|].
    intros i j Hi Hj. rewrite Hcells by assumption. rewrite Z.max_r by lia.
    destruct (Z.ltb_spec i r); [reflexivity|lia].
Qed.

(** [operator+] and [operator-] return a new owning matrix whose cells
    are the sums, respectively the differences, of the operands' cells:
    the copy they add to, or subtract from, shares no cell with an
    operand. *)
Theorem plus_minus_cellwise r c a b :
  shaped r c a -> shaped r c b ->
  (exists m, op_plus a b = Ok m /\ shaped r c m /\ owning m /\
     forall i j, 0 <= i < r -> 0 <= j < c ->
       exists x y, cell a i j = Some x /\ cell b i j = Some y /\
                   cell m i j = Some (sadd x y)) /\
  (exists m, op_minus a b = Ok m /\ shaped r c m /\ owning m /\
     forall i j, 0 <= i < r -> 0 <= j < c ->
       exists x y, cell a i j = Some x /\ cell b i j = Some y /\
                   cell m i j = Some (ssub x y)).
Proof.
  intros Ha Hb. split.
  - apply op_plus_ok; assumption.
  - apply op_minus_ok; assumption.
Qed.

(** A matrix times or divided by a scalar: a new owning matrix whose cell
    is the source's cell multiplied on the right, or divided, by the
    scalar; [scalar * matrix] is [matrix * scalar].  The in-place forms
    write the same values into their target. *)
Theorem scalar_ops_cellwise r c a (s : T) :
  shaped r c a ->
  (exists m, op_mul_scalar a s = Ok m /\ scalar_op_mul s a = Ok m /\
     shaped r c m /\ owning m /\ mapped_cells (fun x => smul x s) a m) /\
  (exists m, op_div_scalar a s = Ok m /\
     shaped r c m /\ owning m /\ mapped_cells (fun x => sdiv x s) a m) /\
  (exists a', scalar_assign (fun x => smul x s) a = Ok a' /\ same_geom a a' /\
     forall i j, 0 <= i < r -> 0 <= j < c -> cell a' i j = (fun x => smul x s) <$> cell a i j) /\
  (exists a', scalar_assign (fun x => sdiv x s) a = Ok a' /\ same_geom a a' /\
     forall i j, 0 <= i < r -> 0 <= j < c -> cell a' i j = (fun x => sdiv x s) <$> cell a i j).
Proof.
  intros Ha. split; [|split; [|split]].
  - destruct (op_mul_scalar_ok r c a s Ha) as (m & E & ?). exists m. tauto.
  - apply op_div_scalar_ok; assumption.
  - apply scalar_assign_ok; assumption.
  - apply scalar_assign_ok; assumption.
Qed.

(** Operands whose sizes do not fit: [Assign], [+], [-], [+=] and [-=]
    throw [invalid_argument] with both sizes in the message, before any
    cell is read or written; [operator*] throws [runtime_error] when the
    columns of the left operand are not the rows of the right one. *)
Theorem size_mismatch_is_rejected a b :
  (Size a <> Size b ->
   let e := invalid_argument ("Wrong matrix sizes: " +:+ PairToString (Size a)
                              +:+ " " +:+ PairToString (Size b)) in
   Assign a b = Throw e /\ op_plus a b = Throw e /\ op_minus a b = Throw e /\
   plus_assign a b = Throw e /\ minus_assign a b = Throw e) /\
  (Cols a <> Rows b ->
   op_mul a b = Throw (runtime_error ("Bad matrix sizes " +:+ PairToString (Size a)
                                      +:+ " " +:+ PairToString (Size b)))).
Proof.
  split.
  - intros Hne e.
    assert (E : AssertEqualSizes a b = Throw e).
    { unfold AssertEqualSizes, size_eqb, e, Size in *. simpl.
      destruct (Z.eqb_spec (rows_ a) (rows_ b)) as [Er|]; [|reflexivity].
      destruct (Z.eqb_spec (cols_ a) (cols_ b)) as [Ec|]; [|reflexivity].
      exfalso. apply Hne. congruence. }
    unfold Assign, op_plus, op_minus, plus_assign, minus_assign. rewrite E.
    repeat split; reflexivity.
  - intros Hne. unfold op_mul.
    destruct (Z.eqb_spec (Cols a) (Rows b)); [contradiction|reflexivity].
Qed.
End Arithmetic.

(** * Comparison *)

Lemma for_range_ret_existsb (body : Z -> Res (option bool)) (p : Z -> bool) :
  forall (k : nat) (lo : Z),
    (forall i, lo <= i < lo + Z.of_nat k -> body i = Ok (if p i then Some true else None)) ->
    for_range_ret lo k body
    = Ok (if existsb p (seqZ lo (Z.of_nat k)) then Some true else None).
Proof.
  induction k as [|k IH]; intros lo Hb; [reflexivity|].
  rewrite seqZ_cons by lia. cbn [for_range_ret existsb]. rewrite Hb by lia. cbn [bind].
  destruct (p lo); [reflexivity|]. cbn [orb].
  rewrite IH by (intros; apply Hb; lia).
  replace (Z.succ lo) with (lo + 1) by lia.
  replace (Z.pred (Z.of_nat (S k))) with (Z.of_nat k) by lia. reflexivity.
Qed.

Lemma for_ret_existsb (n : Z) (body : Z -> Res (option bool)) (p : Z -> bool) :
  (forall i, 0 <= i < n -> body i = Ok (if p i then Some true else None)) ->
  for_ret n body = Ok (if existsb p (seqZ 0 n) then Some true else None).
Proof.
  intros Hb. unfold for_ret.
  rewrite (for_range_ret_existsb body p) by (intros; apply Hb; lia).
  destruct (Z.le_gt_cases 0 n).
  - rewrite Z2Nat.id by lia. reflexivity.
  - replace (Z.to_nat n) with 0%nat by lia.
    unfold seqZ. replace (Z.to_nat n) with 0%nat by lia. reflexivity.
Qed.

Lemma existsb_seqZ (p : Z -> bool) (n : Z) :
  existsb p (seqZ 0 n) = true <-> exists i, 0 <= i < n /\ p i = true.
Proof.
  rewrite existsb_exists. split.
  - intros (i & Hin & Hp). exists i. split; [|exact Hp].
    apply list_elem_of_In in Hin. apply elem_of_seqZ in Hin. lia.
  - intros (i & Hi & Hp). exists i. split; [|exact Hp].
    apply list_elem_of_In. apply elem_of_seqZ. lia.
Qed.

Section Comparison.
Context {R : Type} {RS : RealScalar R} {ME : MatrixEps R}.

Lemma op_ne_ok r c (a b : Mat R) :
  shaped r c a -> shaped r c b ->
  exists res, op_ne a b = Ok res /\ op_eq a b = Ok (negb res) /\
    (res = true <->
     exists i j x y, 0 <= i < r /\ 0 <= j < c /\
       cell a i j = Some x /\ cell b i j = Some y /\ cells_differ x y = true).
Proof.
  intros Ha Hb.
  pose proof Ha as (Hwa & Era & Eca). pose proof Hb as (Hwb & Erb & Ecb).
  set (d := fun i j => match cell a i j, cell b i j with
                       | Some x, Some y => cells_differ x y
                       | _, _ => false
                       end).
  assert (E : op_ne a b = Ok (existsb (fun i => existsb (d i) (seqZ 0 c)) (seqZ 0 r))).
  { unfold op_ne. rewrite (AssertEqualSizes_ok r c) by assumption. cbn [bind].
    unfold Rows, Cols. rewrite Era, Eca.
    rewrite (for_ret_existsb r _ (fun i => existsb (d i) (seqZ 0 c))).
    - cbn [bind]. destruct (existsb _ _); reflexivity.
    - intros i Hi. apply for_ret_existsb. intros j Hj.
      destruct (At_ok a i j Hwa) as (x & Hx & ->); [lia..|]. cbn [bind].
      destruct (At_ok b i j Hwb) as (y & Hy & ->); [lia..|]. cbn [bind].
      unfold d, cells_differ. rewrite Hx, Hy.
      destruct (rne x x); [reflexivity|]. destruct (rne y y); [reflexivity|].
      cbn [orb]. destruct (rgt _ _); reflexivity. }
  eexists. split; [exact E|]. split; [unfold op_eq; rewrite E; reflexivity|].
  rewrite existsb_seqZ. split.
  - intros (i & Hi & Hex). apply existsb_seqZ in Hex. destruct Hex as (j & Hj & Hd).
    unfold d in Hd.
    destruct (cell a i j) as [x|] eqn:Hx; [|discriminate].
    destruct (cell b i j) as [y|] eqn:Hy; [|discriminate].
    exists i, j, x, y. tauto.
  - intros (i & j & x & y & Hi & Hj & Hx & Hy & Hd).
    exists i. split; [exact Hi|]. apply existsb_seqZ. exists j. split; [exact Hj|].
    unfold d. rewrite Hx, Hy. exact Hd.
Qed.

(** [operator!=] on two matrices of one size returns, and is true exactly
    when at some index one of the two cells differs from itself (NaN) or
    the distance of the two exceeds the epsilon; [operator==] is its
    negation.  On matrices of different sizes both throw
    [invalid_argument] instead of answering. *)
Theorem op_ne_spec (a b : Mat R) :
  (forall r c, shaped r c a -> shaped r c b ->
   exists res, op_ne a b = Ok res /\ op_eq a b = Ok (negb res) /\
     (res = true <->
      exists i j x y, 0 <= i < r /\ 0 <= j < c /\
        cell a i j = Some x /\ cell b i j = Some y /\ cells_differ x y = true)) /\
  (Size a <> Size b ->
   let e := invalid_argument ("Wrong matrix sizes: " +:+ PairToString (Size a)
                              +:+ " " +:+ PairToString (Size b)) in
   op_ne a b = Throw e /\ op_eq a b = Throw e).
Proof.
  split; [intros r c; apply op_ne_ok|].
  - intros Hne e.
    assert (E : AssertEqualSizes a b = Throw e).
    { unfold AssertEqualSizes, size_eqb, e, Size in *. simpl.
      destruct (Z.eqb_spec (rows_ a) (rows_ b)) as [Er|]; [|reflexivity].
      destruct (Z.eqb_spec (cols_ a) (cols_ b)) as [Ec|]; [|reflexivity].
      exfalso. apply Hne. congruence. }
    unfold op_eq, op_ne. rewrite E. split; reflexivity.
Qed.
End Comparison.

Module DoubleCompare.
Import Double.
Open Scope float_scope.

(** The distance of a number that is not NaN to itself passes the test of
    [operator!=] for every epsilon that is not negative: it is [+0] for a
    finite number and NaN for an infinity. *)
Lemma sub_self_within x eps :
  PrimFloat.is_nan x = false -> (eps <? 0) = false -> (eps <? abs (x - x)) = false.
Proof.
  intros Hx He. pose proof (DoubleFacts.not_nan_spec x Hx) as Hn.
  destruct (Prim2SF x) as [s|s| |s m e] eqn:Ex; try congruence.
  - replace (abs (x - x)) with 0; [exact He|].
    apply Prim2SF_inj.
    rewrite FloatAxioms.abs_spec, FloatAxioms.sub_spec, Ex, DoubleFacts.Prim2SF_zero.
    destruct s; reflexivity.
  - rewrite FloatAxioms.ltb_spec, FloatAxioms.abs_spec, FloatAxioms.sub_spec, Ex.
    unfold SF64sub; simpl.
    destruct s; simpl; unfold SFltb; destruct (Prim2SF eps); reflexivity.
  - replace (abs (x - x)) with 0; [exact He|].
    apply Prim2SF_inj.
    rewrite FloatAxioms.abs_spec, FloatAxioms.sub_spec, Ex, DoubleFacts.Prim2SF_zero.
    unfold SF64sub; simpl. rewrite Z.sub_diag. reflexivity.
Qed.

(** On [double], with an epsilon that is not negative: a matrix is equal
    to itself for [operator==] exactly when none of its cells is NaN
    (infinite cells do not matter). *)
Theorem op_eq_reflexive_without_nan r c (A : Mat float) (eps : float) :
  shaped r c A -> (eps <? 0) = false ->
  let ME := {| GetEps := eps |} in
  (all_cells (fun x => negb (PrimFloat.is_nan x)) A -> op_eq A A = Ok true) /\
  (forall i j x, (0 <= i < r)%Z -> (0 <= j < c)%Z -> cell A i j = Some x ->
     PrimFloat.is_nan x = true -> op_eq A A = Ok false).
Proof.
  intros HA Heps ME. pose proof HA as (_ & Er & Ec). split.
  - intros Hall. apply (DoubleFacts.op_eq_true ME r c); [assumption..|].
    intros i j x y Hi Hj Hx Hy. rewrite Hx in Hy. injection Hy as <-.
    assert (Hn : PrimFloat.is_nan x = false).
    { specialize (Hall i j x). rewrite Er, Ec in Hall.
      apply Bool.negb_true_iff. apply Hall; assumption. }
    split; [exact Hn|]. split; [exact Hn|]. apply sub_self_within; assumption.
  - intros i j x Hi Hj Hx Hnan.
    destruct (op_ne_ok (RS := double_real) (ME := ME) r c A A HA HA)
      as (res & _ & Eeq & Hres).
    rewrite Eeq. f_equal.
    assert (res = true) as ->; [|reflexivity].
    apply Hres. exists i, j, x, x. do 4 (split; [assumption|]).
    unfold cells_differ. cbn. unfold PrimFloat.is_nan in Hnan. rewrite Hnan. reflexivity.
Qed.
End DoubleCompare.

(** * Sub-matrix views and matrix objects *)

Section Windows.
Context {T : Type} `{Scalar T}.
Implicit Types (σ : gmap View.loc (list T)) (m A V : Matrix View.loc).

Lemma SubMatrix_explicit {D : Type} (A : Matrix D) i j n k :
  n <> -1 -> k <> -1 ->
  SubMatrix A i j n k
  = {| data_ := data_ A; data_rows_ := data_rows_ A; data_cols_ := data_cols_ A;
       cols_ := k; rows_ := n;
       offset_i_ := offset_i_ A + i; offset_j_ := offset_j_ A + j |}.
Proof.
  intros Hn Hk. unfold SubMatrix.
  destruct (Z.eqb_spec n (-1)); [contradiction|].
  destruct (Z.eqb_spec k (-1)); [contradiction|]. reflexivity.
Qed.

(** [SubMatrix(i, j, n, m)] with a window inside the matrix: the view is
    well formed, has [n] rows and [m] columns, and reading or writing its
    cell [(i', j')] is reading or writing the cell [(i + i', j + j')] of
    the matrix (the same store results); outside the window the view
    throws [out_of_range].  The size [-1] stands for the rows, or the
    columns, that remain. *)
Theorem SubMatrix_window σ A i j n k :
  View.wf σ A -> 0 <= i -> 0 <= j -> 0 <= n -> 0 <= k ->
  i + n <= rows_ A -> j + k <= cols_ A ->
  let V := SubMatrix A i j n k in
  View.wf σ V /\ Rows V = n /\ Cols V = k /\
  (forall i' j', 0 <= i' < n -> 0 <= j' < k ->
     View.At σ V i' j' = View.At σ A (i + i') (j + j') /\
     forall v, View.set_At σ V i' j' v = View.set_At σ A (i + i') (j + j') v) /\
  (forall i' j', ~ (0 <= i' < n /\ 0 <= j' < k) ->
     exists what, View.At σ V i' j' = Throw (out_of_range what)) /\
  SubMatrix A i j (-1) (-1) = SubMatrix A i j (rows_ A - i) (cols_ A - j).
Proof.
  intros (buf & Hb & Hg) Hi Hj Hn Hk Hin Hjk V.
  assert (EV : V = {| data_ := data_ A; data_rows_ := data_rows_ A;
                      data_cols_ := data_cols_ A; cols_ := k; rows_ := n;
                      offset_i_ := offset_i_ A + i; offset_j_ := offset_j_ A + j |}).
  { apply SubMatrix_explicit; lia. }
  clearbody V. subst V.
  split; [|split; [reflexivity|split; [reflexivity|split; [|split]]]].
  - exists buf. split; [exact Hb|]. unfold wf_geom in *. simpl. lia.
  - intros i' j' Hi' Hj'.
    assert (E : At_index {| data_ := data_ A; data_rows_ := data_rows_ A;
                            data_cols_ := data_cols_ A; cols_ := k; rows_ := n;
                            offset_i_ := offset_i_ A + i; offset_j_ := offset_j_ A + j |}
                         i' j' = At_index A (i + i') (j + j')).
    { rewrite !At_index_ok by (simpl; lia). simpl. f_equal. ring. }
    unfold View.At, View.set_At. rewrite E. simpl. split; [reflexivity|].
    intros v. reflexivity.
  - intros i' j' Hout. unfold View.At.
    destruct (At_index_throws {| data_ := data_ A; data_rows_ := data_rows_ A;
                                 data_cols_ := data_cols_ A; cols_ := k; rows_ := n;
                                 offset_i_ := offset_i_ A + i;
                                 offset_j_ := offset_j_ A + j |} i' j')
      as (what & ->); [exact Hout|]. exists what. reflexivity.
  - unfold SubMatrix, Rows, Cols. simpl.
    destruct (Z.eqb_spec (rows_ A - i) (-1)) as [->|_];
      destruct (Z.eqb_spec (cols_ A - j) (-1)) as [->|_]; reflexivity.
Qed.

(** [SubMatrix] checks none of its arguments.  A view taller than an
    owning matrix passes the bounds check of [At] at its last row and
    addresses the cell after the end of the array; a view that starts at
    row -1 addresses a cell before the array.  Both accesses are
    undefined behaviour, for reads and for writes. *)
Theorem SubMatrix_is_not_validated σ A :
  View.wf σ A -> owning A -> 1 <= cols_ A ->
  let tall := SubMatrix A 0 0 (rows_ A + 1) (cols_ A) in
  let before := SubMatrix A (-1) 0 1 (cols_ A) in
  View.At σ tall (rows_ A) 0 = Undefined /\
  (forall v, View.set_At σ tall (rows_ A) 0 v = Undefined) /\
  View.At σ before 0 0 = Undefined /\
  (forall v, View.set_At σ before 0 0 v = Undefined).
Proof.
  intros (buf & Hb & Hg) (Eoi & Eoj & Edr & Edc) Hc tall before.
  assert (Hr : 0 <= rows_ A) by (unfold wf_geom in Hg; lia).
  assert (Et : tall = {| data_ := data_ A; data_rows_ := data_rows_ A;
                         data_cols_ := data_cols_ A; cols_ := cols_ A;
                         rows_ := rows_ A + 1;
                         offset_i_ := offset_i_ A + 0; offset_j_ := offset_j_ A + 0 |}).
  { apply SubMatrix_explicit; lia. }
  assert (Eb : before = {| data_ := data_ A; data_rows_ := data_rows_ A;
                           data_cols_ := data_cols_ A; cols_ := cols_ A; rows_ := 1;
                           offset_i_ := offset_i_ A + -1; offset_j_ := offset_j_ A + 0 |}).
  { apply SubMatrix_explicit; lia. }
  clearbody tall before. subst tall before.
  assert (Hlen : Z.of_nat (length buf) = rows_ A * cols_ A).
  { destruct Hg as (_ & _ & _ & _ & _ & _ & Hl). rewrite Hl, Edr, Edc. reflexivity. }
  unfold View.At, View.set_At.
  rewrite !At_index_ok by (simpl; lia). simpl. rewrite Hb, Eoi, Eoj, Edc.
  replace ((rows_ A + (0 + 0)) * cols_ A + (0 + 0) + 0) with (rows_ A * cols_ A) by ring.
  replace ((0 + (0 + -1)) * cols_ A + (0 + 0) + 0) with (- cols_ A) by ring.
  assert (L1 : load buf (rows_ A * cols_ A) = Undefined).
  { unfold load. destruct (Z.ltb_spec (rows_ A * cols_ A) 0); [reflexivity|].
    rewrite lookup_ge_None_2 by lia. reflexivity. }
  assert (L2 : load buf (- cols_ A) = Undefined).
  { unfold load. destruct (Z.ltb_spec (- cols_ A) 0); [reflexivity|lia]. }
  assert (S1 : forall v, store buf (rows_ A * cols_ A) v = Undefined).
  { intros v. unfold store. destruct (Z.ltb_spec (rows_ A * cols_ A) 0); [reflexivity|].
    destruct (Nat.ltb_spec (Z.to_nat (rows_ A * cols_ A)) (length buf)); [lia|reflexivity]. }
  assert (S2 : forall v, store buf (- cols_ A) v = Undefined).
  { intros v. unfold store. destruct (Z.ltb_spec (- cols_ A) 0); [reflexivity|lia]. }
  rewrite L1, L2. split; [reflexivity|]. split; [intros v; rewrite S1; reflexivity|].
  split; [reflexivity|]. intros v. rewrite S2. reflexivity.
Qed.

(** [Assign] of a matrix to itself changes nothing. *)
Lemma View_Assign_self σ m : View.wf σ m -> View.Assign σ m m = Ok σ.
Proof.
  intros Hw. unfold View.Assign.
  rewrite (AssertEqualSizes_ok (rows_ m) (cols_ m)) by reflexivity. simpl.
  destruct (for_pres (fun s => s = σ) (Rows m)
    (fun i s => for_ (Cols m) (fun j s =>
       v <- View.At s m i j ;; View.set_At s m i j v) s) σ) as (s & E & ->);
    [reflexivity| |exact E].
  intros i s Hi ->. apply for_pres; [reflexivity|].
  intros j s Hj ->. exists σ. split; [|reflexivity].
  destruct (View_At_ok σ m i j Hw Hi Hj) as (v & Hv & ->). simpl.
  destruct (View_set_At_ok σ m i j v Hw Hi Hj) as (buf & Hb & ->).
  unfold View.cell in Hv. rewrite Hb in Hv.
  rewrite list_insert_id by exact Hv. rewrite insert_id by exact Hb. reflexivity.
Qed.
End Windows.

Section ObjectCopies.
Context {T : Type} `{Scalar T}.
Implicit Types (st : Obj.state (T := T)) (this other : Obj.oid).

(** The copy assignment [a = b] on objects.  For two objects it is the
    deep copy of the handles: [a] is bound to a new array holding the
    cells of [b], and [b] is untouched.  For one object, [a = a], the
    object is bound to the new array before the cells are copied, so it
    copies the new array onto itself: the matrix keeps its size and every
    cell becomes [T()]; the array it had is left as it was. *)
Theorem copy_assign_objects st this t :
  Obj.objects st !! this = Some t -> View.wf (Obj.arrays st) t ->
  (forall other o, other <> this -> Obj.objects st !! other = Some o ->
     Obj.copy_assign st this other
     = (r <- View.CopyFrom (Obj.arrays st) t o ;;
        Ok (Obj.mkState (<[this := fst r]> (Obj.objects st)) (snd r)))) /\
  (exists c σ',
     Obj.copy_assign st this this
     = Ok (Obj.mkState (<[this := c]> (Obj.objects st)) σ') /\
     owning c /\ rows_ c = rows_ t /\ cols_ c = cols_ t /\
     (data_ c ∉ dom (Obj.arrays st)) /\
     (forall i j, 0 <= i < rows_ t -> 0 <= j < cols_ t -> View.At σ' c i j = Ok szero) /\
     (forall l, l <> data_ c -> σ' !! l = Obj.arrays st !! l)).
Proof.
  intros Ht Hw. split.
  - intros other o Hne Ho.
    unfold Obj.copy_assign, Obj.CopyFrom, Obj.get, View.CopyFrom. rewrite Ho. simpl.
    destruct (View.Matrix_nm (Obj.arrays st) (Rows o) (Cols o)) as [[m0 σ0]| | |];
      simpl; try reflexivity.
    unfold Obj.MakeRef, Obj.get. simpl. rewrite Ht. simpl.
    unfold Obj.Assign, Obj.get. simpl.
    rewrite lookup_insert_eq. simpl. rewrite lookup_insert_ne by congruence.
    rewrite Ho. simpl.
    destruct (View.Assign σ0 (View.MakeRef t m0) o); reflexivity.
  - pose proof Hw as (buf & Hb & Hg).
    assert (0 <= rows_ t /\ 0 <= cols_ t) as [Hr Hc] by (unfold wf_geom in Hg; lia).
    destruct (View_Matrix_fill_ok (Obj.arrays st) (rows_ t) (cols_ t) szero Hr Hc)
      as (m0 & σ0 & E0 & Hfresh & Er0 & Ec0 & Hown & Hw0 & Hfr0 & Hcells).
    exists m0, σ0. split; [|split; [exact Hown|split; [exact Er0|split; [exact Ec0|]]]].
    + unfold Obj.copy_assign, Obj.CopyFrom, Obj.get. rewrite Ht. simpl.
      unfold Rows, Cols, View.Matrix_nm. rewrite E0. simpl.
      unfold Obj.MakeRef, Obj.get. simpl. rewrite Ht. simpl.
      unfold Obj.Assign, Obj.get. simpl. rewrite lookup_insert_eq. simpl.
      assert (Em : View.MakeRef t m0 = m0) by (destruct m0; reflexivity).
      rewrite Em, (View_Assign_self σ0 m0 Hw0). reflexivity.
    + split; [exact Hfresh|]. split; [|exact Hfr0].
      intros i j Hi Hj. rewrite (View_At_cell σ0 m0) by (assumption || lia).
      rewrite Hcells by assumption. reflexivity.
Qed.
End ObjectCopies.

(** * More on the solvers *)

Section OwningCopies.
Context {T : Type} `{Scalar T}.

(** The copy of an owning matrix is the same value. *)
Lemma CopyFrom_owning r c (m : Mat T) :
  shaped r c m -> owning m -> CopyFrom m = Ok m.
Proof.
  intros Hm Hown.
  destruct (CopyFrom_ok r c m Hm) as (m' & -> & Hm' & Hown' & Hcells). f_equal.
  pose proof Hm as (Hw & Er & Ec).
  assert (Hlen : length (data_ m) = Z.to_nat (r * c)).
  { destruct Hown as (_ & _ & E1 & E2). destruct Hw as (_ & _ & _ & _ & _ & _ & Hl).
    rewrite E1, E2, Er, Ec in Hl. lia. }
  rewrite (owning_ext r c m' (data_ m) Hm' Hown' Hlen).
  - symmetry. apply owning_ext; [assumption..|].
    intros i j Hi Hj. unfold cell. destruct Hown as (-> & -> & _ & ->). rewrite Ec.
    f_equal. f_equal. ring.
  - intros i j Hi Hj. rewrite Hcells by assumption.
    unfold cell. destruct Hown as (-> & -> & _ & ->). rewrite Ec.
    f_equal. f_equal. ring.
Qed.
End OwningCopies.

Lemma set_iters_set_iters iters v w : set_iters (set_iters iters v) w = set_iters iters w.
Proof. destruct iters; reflexivity. Qed.

Lemma reported_range iters iter max_iters failed :
  0 <= iter ->
  exists v, reported iters iter max_iters failed = set_iters iters v /\
            (v = -1 \/ 1 <= v <= max_iters).
Proof.
  intros Hi. unfold reported, set_iters.
  destruct (Z.geb_spec iter max_iters); simpl.
  - exists (-1). split; [destruct iters; reflexivity|left; reflexivity].
  - destruct failed.
    + exists (-1). split; [destruct iters; reflexivity|left; reflexivity].
    + exists (iter + 1). split; [destruct iters; reflexivity|right; lia].
Qed.

Section SolverExtras.
Context {R C : Type} {RS : RealScalar R} {CS : ComplexScalar R C} {EX : Externals R C}
        {epsR : MatrixEps R} {epsC : MatrixEps C}.

#[local] Arguments method1_loop : simpl never.
#[local] Arguments method2_loop : simpl never.
#[local] Arguments method3_loop : simpl never.

(** One power step, as Method 1 and Method 2 make it: [y] receives the
    product [b * u], [u] receives [y] divided by its norm, both in their
    own arrays, and the value returned is the dot product of the new [u]
    with [b * u].  The step of Method 2 is this step for [b = a2]; its
    argument [a] is not used. *)
Theorem power_step n (a b u y : Mat R) :
  1 <= n -> shaped n n b -> shaped n 1 u -> shaped n 1 y ->
  PowerIterationMethod2Iteration a b u y = PowerIterationMethod1Iteration b u y /\
  exists p lambda u' y' p',
    op_mul b u = Ok p /\
    PowerIterationMethod1Iteration b u y = Ok (lambda, u', y') /\
    same_geom y y' /\ same_geom u u' /\
    (forall i, 0 <= i < n -> cell y' i 0 = cell p i 0) /\
    (forall i, 0 <= i < n ->
       cell u' i 0 = (fun v => sdiv v (EuclideanNorm y')) <$> cell y' i 0) /\
    op_mul b u' = Ok p' /\ ScalarProduct u' p' = Ok lambda.
Proof.
  intros Hn Hb Hu Hy. split; [reflexivity|].
  unfold PowerIterationMethod1Iteration.
  destruct (op_mul_ok n n 1 b u Hb Hu) as (p & Ep & Hp & _). rewrite Ep. simpl.
  destruct (Assign_ok n 1 y p Hy Hp) as (y' & -> & Hgy & Hcy). simpl.
  pose proof (same_geom_shaped _ _ _ _ Hy Hgy) as Hy'.
  destruct (op_div_scalar_ok n 1 y' (EuclideanNorm y') Hy')
    as (q & -> & Hq & _ & _ & _ & Hqc). simpl.
  destruct (Assign_ok n 1 u q Hu Hq) as (u' & -> & Hgu & Hcu). simpl.
  pose proof (same_geom_shaped _ _ _ _ Hu Hgu) as Hu'.
  destruct (op_mul_ok n n 1 b u' Hb Hu') as (p' & Ep' & Hp' & _). rewrite Ep'. simpl.
  destruct (ScalarProduct_ok n u' p' Hn Hu' Hp') as (l & El). rewrite El. simpl.
  exists p, l, u', y', p'.
  split; [reflexivity|]. split; [reflexivity|]. split; [assumption|]. split; [assumption|].
  split; [intros i Hi; apply Hcy; lia|].
  split; [|split; [exact Ep'|exact El]].
  intros i Hi. rewrite Hcu by lia. apply Hqc; [destruct Hy' as (_ & -> & _); lia|].
  destruct Hy' as (_ & _ & ->). lia.
Qed.

Lemma method3_vectors_cells n r1 r2 (u u1 u2 : Mat C) :
  shaped n 1 u -> shaped n 1 u1 -> shaped n 1 u2 ->
  exists v1 v2, method3_vectors r1 r2 u u1 u2 = Ok (v1, v2) /\
    shaped n 1 v1 /\ shaped n 1 v2 /\
    forall i, 0 <= i < n ->
      exists x1 x2, cell u1 i 0 = Some x1 /\ cell u2 i 0 = Some x2 /\
        cell v1 i 0 = Some (ssub x2 (smul r2 x1)) /\
        cell v2 i 0 = Some (ssub x1 (sdiv x2 r1)).
Proof.
  intros Hu Hu1 Hu2. pose proof Hu as (_ & Eru & _).
  destruct (shaped_nonneg _ _ _ Hu) as [Hn0 _].
  unfold method3_vectors, Rows. rewrite Eru.
  destruct (Matrix_nm_ok (T := C) n 1) as (v10 & -> & Hv10 & _); [lia..|]. simpl.
  destruct (for_inv
    (fun i (v : Mat C * Mat C) =>
       shaped n 1 (fst v) /\ shaped n 1 (snd v) /\
       forall i', 0 <= i' < i ->
         exists x1 x2, cell u1 i' 0 = Some x1 /\ cell u2 i' 0 = Some x2 /\
           cell (fst v) i' 0 = Some (ssub x2 (smul r2 x1)) /\
           cell (snd v) i' 0 = Some (ssub x1 (sdiv x2 r1)))
    n
    (fun i v =>
       u2i <- At1 u2 i ;; u1i <- At1 u1 i ;;
       v1 <- set_At1 (fst v) i (ssub u2i (smul r2 u1i)) ;;
       u1i <- At1 u1 i ;; u2i <- At1 u2 i ;;
       v2 <- set_At1 (snd v) i (ssub u1i (sdiv u2i r1)) ;;
       Ok (v1, v2)) (v10, v10)) as ([v1 v2] & E & Hv1 & Hv2 & Hc).
  - split; [assumption|]. split; [assumption|]. intros; lia.
  - intros i [w1 w2] Hi (Hw1 & Hw2 & Hdone). cbn [fst snd] in *.
    destruct (At1_ok n u2 i Hu2 Hi) as (x2 & Hx2 & ->). cbn [bind].
    destruct (At1_ok n u1 i Hu1 Hi) as (x1 & Hx1 & ->). cbn [bind].
    destruct (set_At1_ok n w1 i (ssub x2 (smul r2 x1)) Hw1 Hi)
      as (w1' & -> & Hg1 & Hs1 & Hf1). cbn [bind].
    destruct (set_At1_ok n w2 i (ssub x1 (sdiv x2 r1)) Hw2 Hi)
      as (w2' & -> & Hg2 & Hs2 & Hf2). cbn [bind].
    eexists. split; [reflexivity|]. cbn [fst snd].
    split; [apply (same_geom_shaped _ _ w1); assumption|].
    split; [apply (same_geom_shaped _ _ w2); assumption|].
    intros i' Hi'. destruct (Z.eq_dec i' i) as [->|Hne].
    + exists x1, x2. tauto.
    + destruct (Hdone i') as (y1 & y2 & ? & ? & ? & ?); [lia|].
      exists y1, y2. rewrite Hf1, Hf2 by lia. tauto.
  - exists v1, v2. cbn [fst snd] in *. split; [exact E|]. split; [assumption|].
    split; [assumption|]. intros i Hi. apply Hc. lia.
Qed.

(** Method 3, after its loop has ended in a state [(r1, r2, u, iter)]:
    with [u1 = a u] and [u2 = a^2 u] the candidates are
    [v1(i) = u2(i) - r2 * u1(i)] and [v2(i) = u1(i) - u2(i) / r1]; a pair
    [(r1, v1)], then [(r2, v2)], is returned when the squared modulus of
    the candidate's norm exceeds that of the complex epsilon; and [*iters]
    depends on the count alone, so the pairs of a run that did not
    converge are returned with the sentinel. *)
Theorem method3_vectors_and_result n (a : Mat R) iters max_iters :
  MinimalSquareProblem_shape ->
  1 <= n -> shaped n n a ->
  exists sq ca ca2 y0 u0 r1 r2 u iter u1 u2 v1 v2,
    op_mul a a = Ok sq /\ ToComplex a = Ok ca /\ ToComplex sq = Ok ca2 /\
    method3_loop (S (Z.to_nat max_iters)) ca ca2 max_iters
      (cof_real r1e18) szero (cof_real r1e18) szero y0 u0 0 = Ok (r1, r2, u, iter) /\
    op_mul ca u = Ok u1 /\ op_mul ca2 u = Ok u2 /\
    shaped n 1 v1 /\ shaped n 1 v2 /\
    (forall i, 0 <= i < n ->
       exists x1 x2, cell u1 i 0 = Some x1 /\ cell u2 i 0 = Some x2 /\
         cell v1 i 0 = Some (ssub x2 (smul r2 x1)) /\
         cell v2 i 0 = Some (ssub x1 (sdiv x2 r1))) /\
    PowerMethodEigenvalues3 a iters max_iters
    = Ok ((if rgt (cnorm (EuclideanNormC v1)) (cnorm GetEps) then [(r1, v1)] else [])
          ++ (if rgt (cnorm (EuclideanNormC v2)) (cnorm GetEps) then [(r2, v2)] else []),
          reported iters iter max_iters false).
Proof.
  intros Hmsp Hn Ha. pose proof Ha as (_ & Er & Ec).
  unfold PowerMethodEigenvalues3, IsSquare, Rows, Cols. rewrite Er, Ec, Z.eqb_refl. simpl.
  destruct (op_mul_ok n n n a a Ha Ha) as (sq & Esq & Hsq & _). rewrite Esq. simpl.
  destruct (ToComplex_ok n n a Ha) as (ca & Eca & Hca & _). rewrite Eca. simpl.
  destruct (ToComplex_ok n n sq Hsq) as (ca2 & Eca2 & Hca2 & _). rewrite Eca2. simpl.
  destruct (Matrix_nm_ok (T := C) n 1) as (y00 & -> & Hy00 & _); [lia..|]. simpl.
  destruct (set_At1_ok n y00 0 (sof_int 1) Hy00) as (y0 & -> & Hg & _); [lia|]. simpl.
  pose proof (same_geom_shaped _ _ _ _ Hy00 Hg) as Hy0.
  destruct (op_div_scalar_ok n 1 y0 (EuclideanNormC y0) Hy0) as (u0 & -> & Hu0 & _). simpl.
  destruct (method3_loop_ok n ca ca2 max_iters Hmsp Hca Hca2 (S (Z.to_nat max_iters))
              (cof_real r1e18) szero (cof_real r1e18) szero y0 u0 0 Hy0 Hu0)
    as (r1 & r2 & u & iter & El & Hu & Hiter); [lia..|]. rewrite El. simpl.
  destruct (op_mul_ok n n 1 ca u Hca Hu) as (u1 & Eu1 & Hu1 & _). rewrite Eu1. simpl.
  destruct (op_mul_ok n n 1 ca2 u Hca2 Hu) as (u2 & Eu2 & Hu2 & _). rewrite Eu2. simpl.
  destruct (method3_vectors_cells n r1 r2 u u1 u2 Hu Hu1 Hu2)
    as (v1 & v2 & -> & Hv1 & Hv2 & Hcells). simpl.
  exists sq, ca, ca2, y0, u0, r1, r2, u, iter, u1, u2, v1, v2.
  do 3 (split; [first [reflexivity | assumption]|]). split; [exact El|].
  do 2 (split; [first [reflexivity | assumption]|]). split; [assumption|].
  split; [assumption|].
  split; [exact Hcells|].
  unfold reported. rewrite orb_false_r. reflexivity.
Qed.

Lemma PowerMethodEigenvalues2_range n (a y : Mat R) v0 max_iters eps :
  1 <= n -> shaped n n a -> shaped n 1 y ->
  exists ans y' out,
    PowerMethodEigenvalues2 a y (Some v0) max_iters eps = Ok (ans, y', Some out) /\
    shaped n 1 y' /\ (length ans <= 2)%nat /\
    (out = -1 \/ (1 <= out <= max_iters /\ ans <> [])).
Proof.
  intros Hn Ha Hy.
  destruct (PowerMethodEigenvalues2_ok n a y (Some v0) max_iters eps Hn Ha Hy)
    as (a2 & u0 & sp & lambda & u & y' & iter & v1 & v2 & c1 & c2 &
        _ & _ & _ & _ & _ & Hiter & _ & Hy' & _ & _ & _ & _ & E).
  cbv zeta in E. rewrite E. unfold reported.
  eexists _, _, _. split; [reflexivity|]. split; [assumption|]. split.
  - destruct (rgt (EuclideanNorm v1) eps), (rgt (EuclideanNorm v2) eps); simpl; lia.
  - destruct (Z.geb_spec iter max_iters); simpl; [tauto|].
    destruct (rgt (EuclideanNorm v1) eps), (rgt (EuclideanNorm v2) eps); simpl;
      first [tauto | right; split; [lia|discriminate]].
Qed.

Lemma probe_and_refine_range n (a : Mat R) iters max_iters :
  MinimalSquareProblem_shape -> 1 <= n -> shaped n n a ->
  exists ans v,
    probe_and_refine a iters max_iters = (Ok ans, set_iters iters v) /\
    (length ans <= 2)%nat /\ (v = -1 \/ 1 <= v <= 2 * max_iters).
Proof.
  intros Hmsp Hn Ha. pose proof Ha as (_ & Er & _).
  destruct (seed_ok n a Hn Er) as (e0 & Ee0 & He0 & _).
  destruct (PowerMethodEigenvalues2_range n a e0 0 max_iters r0_1 Hn Ha He0)
    as (probe & y1 & it1 & E1 & Hy1 & _ & Hit1).
  destruct (PowerMethodEigenvalues2_range n a y1 0 max_iters GetEps Hn Ha Hy1)
    as (refined & y2 & it2 & E2 & _ & Hlen & Hit2).
  destruct (PowerMethodEigenvalues3_ok n a iters max_iters Hmsp Hn Ha)
    as (ans3 & iter3 & Hiter3 & Hlen3 & E3).
  destruct (reported_range iters iter3 max_iters false) as (v3 & Ev3 & Hv3); [lia|].
  assert (Hm3 : exists ans v,
            outcome iters (PowerMethodEigenvalues3 a iters max_iters)
            = (Ok ans, set_iters iters v) /\
            (length ans <= 2)%nat /\ (v = -1 \/ 1 <= v <= 2 * max_iters)).
  { exists ans3, v3. rewrite E3. simpl. rewrite Ev3. split; [reflexivity|].
    split; [assumption|]. lia. }
  unfold probe_and_refine. rewrite Ee0, E1. simpl.
  destruct Hit1 as [->|[Hit1 _]]; [exact Hm3|].
  destruct (Z.geb_spec it1 0); [|lia].
  rewrite E2. simpl.
  destruct Hit2 as [->|[Hit2 Hne]]; [exact Hm3|].
  destruct (Z.geb_spec it2 0); [|lia].
  destruct refined as [|p rest]; [congruence|]. simpl.
  exists (p :: rest), (it1 + it2). split; [destruct iters; reflexivity|].
  split; [exact Hlen|]. lia.
Qed.

(** On a square matrix with a row the dispatcher returns, for every
    [force_method]: at most two pairs (one pair for [force_method = 0],
    also when Method 1 reports a failure), and in [*iters] the sentinel -1
    or a count between 1 and [2 * max_iters]; so with [max_iters <= 0]
    every call reports -1.  A null [iters] stays null. *)
Theorem dispatcher_always_returns n (a : Mat R) iters
    max_iters check_iters check_step force_method :
  MinimalSquareProblem_shape -> 1 <= n -> shaped n n a ->
  exists ans v,
    PowerMethodEigenvalues a iters max_iters check_iters check_step force_method
    = (Ok ans, set_iters iters v) /\
    (length ans <= 2)%nat /\
    (v = -1 \/ 1 <= v <= 2 * max_iters) /\
    (max_iters <= 0 -> v = -1) /\
    (force_method = 0 -> length ans = 1%nat).
Proof.
  intros Hmsp Hn Ha. pose proof Ha as (_ & Er & _).
  assert (Hdefault : exists ans v,
            probe_and_refine a (set_iters iters 0) max_iters = (Ok ans, set_iters iters v) /\
            (length ans <= 2)%nat /\ (v = -1 \/ 1 <= v <= 2 * max_iters)).
  { destruct (probe_and_refine_range n a (set_iters iters 0) max_iters Hmsp Hn Ha)
      as (ans & v & E & ? & ?).
    exists ans, v. rewrite E, set_iters_set_iters. tauto. }
  destruct (seed_ok n a Hn Er) as (e0 & Ee0 & He0 & Hown0 & _).
  unfold PowerMethodEigenvalues. fold (set_iters iters 0).
  destruct (force_method_cases force_method) as [-> | [-> | [-> | [-> | Hfm]]]]; simpl.
  - destruct Hdefault as (ans & v & E & Hlen & Hv).
    exists ans, v. split; [exact E|]. split; [exact Hlen|]. split; [exact Hv|].
    split; [lia|discriminate].
  - rewrite Ee0. rewrite (CopyFrom_owning n 1 e0 He0 Hown0). cbn [bind].
    destruct (PowerMethodEigenvalues1_ok n a e0 (set_iters iters 0) max_iters Hn Ha He0)
      as (y1 & u0 & l0 & lambda & u & y' & iter & _ & _ & _ & _ & Hiter & Hu & E).
    rewrite E.
    destruct (ToComplex_ok n 1 u Hu) as (uc & -> & _). cbn [bind].
    destruct (reported_range (set_iters iters 0) iter max_iters
                (rlt (EuclideanNorm u) GetEps)) as (v & Ev & Hv); [lia|].
    exists [(cof_real lambda, uc)], v. rewrite Ev, set_iters_set_iters.
    split; [reflexivity|]. split; [simpl; lia|]. split; [lia|]. split; [lia|reflexivity].
  - rewrite Ee0.
    destruct (PowerMethodEigenvalues2_ok n a e0 (set_iters iters 0) max_iters GetEps
                Hn Ha He0)
      as (a2 & u0 & sp & lambda & u & y' & iter & v1 & v2 & c1 & c2 &
          _ & _ & _ & _ & _ & Hiter & _ & _ & _ & _ & _ & _ & E).
    cbv zeta in E. rewrite E. cbn [bind outcome].
    match goal with |- context [reported _ _ _ ?f] =>
      destruct (reported_range (set_iters iters 0) iter max_iters f) as (v & Ev & Hv);
        [lia|] end.
    eexists _, v. rewrite Ev, set_iters_set_iters.
    split; [reflexivity|]. split; [|split; [lia|split; [lia|discriminate]]].
    destruct (rgt (EuclideanNorm v1) GetEps), (rgt (EuclideanNorm v2) GetEps); simpl; lia.
  - rewrite Ee0.
    destruct (PowerMethodEigenvalues3_ok n a (set_iters iters 0) max_iters Hmsp Hn Ha)
      as (ans & iter & Hiter & Hlen & E).
    rewrite E. cbn [outcome].
    destruct (reported_range (set_iters iters 0) iter max_iters false)
      as (v & Ev & Hv); [lia|].
    exists ans, v. rewrite Ev, set_iters_set_iters.
    split; [reflexivity|]. split; [exact Hlen|]. split; [lia|]. split; [lia|discriminate].
  - destruct Hfm as (H0 & H1 & H2 & H3). rewrite H0, H1, H2, H3, Ee0. simpl.
    destruct Hdefault as (ans & v & E & Hlen & Hv).
    exists ans, v. split; [exact E|]. split; [exact Hlen|]. split; [exact Hv|].
    split; [lia|]. intros ->. discriminate.
Qed.

(** The override of the dispatcher, on a square matrix with a row: the
    seed is the first unit vector; [force_method] 0, 1 and 2 run Method 1
    (on a copy of the seed), Method 2 at the configured epsilon and
    Method 3, and leave in [*iters] what that method reports; every other
    value is treated as -1; [check_iters] and [check_step] are never
    read. *)
Theorem dispatcher_forced_method n (a : Mat R) iters max_iters check_iters check_step :
  1 <= n -> shaped n n a ->
  let iters0 := set_iters iters 0 in
  exists e0,
    seed a = Ok e0 /\ shaped n 1 e0 /\
    cell e0 0 0 = Some (sof_int 1) /\
    (forall i, 1 <= i < n -> cell e0 i 0 = Some szero) /\
    (exists lambda u uc it,
       PowerMethodEigenvalues1 a e0 iters0 max_iters = Ok (lambda, u, it) /\
       ToComplex u = Ok uc /\
       PowerMethodEigenvalues a iters max_iters check_iters check_step 0
       = (Ok [(cof_real lambda, uc)], it)) /\
    (exists ans y' it,
       PowerMethodEigenvalues2 a e0 iters0 max_iters GetEps = Ok (ans, y', it) /\
       PowerMethodEigenvalues a iters max_iters check_iters check_step 1 = (Ok ans, it)) /\
    PowerMethodEigenvalues a iters max_iters check_iters check_step 2
    = outcome iters0 (PowerMethodEigenvalues3 a iters0 max_iters) /\
    (forall force_method check_iters' check_step',
       force_method <> 0 -> force_method <> 1 -> force_method <> 2 ->
       PowerMethodEigenvalues a iters max_iters check_iters' check_step' force_method
       = PowerMethodEigenvalues a iters max_iters check_iters check_step (-1)).
Proof.
  intros Hn Ha iters0. pose proof Ha as (_ & Er & _).
  destruct (seed_ok n a Hn Er) as (e0 & Ee0 & He0 & Hown0 & H00 & Hrest).
  exists e0. do 4 (split; [assumption|]).
  unfold PowerMethodEigenvalues. fold (set_iters iters 0). fold iters0.
  split; [|split; [|split]].
  - simpl. rewrite Ee0. rewrite (CopyFrom_owning n 1 e0 He0 Hown0). cbn [bind].
    destruct (PowerMethodEigenvalues1_ok n a e0 iters0 max_iters Hn Ha He0)
      as (y1 & u0 & l0 & lambda & u & y' & iter & _ & _ & _ & _ & Hiter & Hu & E).
    rewrite E.
    destruct (ToComplex_ok n 1 u Hu) as (uc & Euc & _). rewrite Euc. cbn [bind].
    eexists lambda, u, uc, _. split; [reflexivity|]. split; [exact Euc|reflexivity].
  - simpl. rewrite Ee0.
    destruct (PowerMethodEigenvalues2_ok n a e0 iters0 max_iters GetEps Hn Ha He0)
      as (a2 & u0 & sp & lambda & u & y' & iter & v1 & v2 & c1 & c2 &
          _ & _ & _ & _ & _ & _ & _ & _ & _ & _ & _ & _ & E).
    cbv zeta in E. rewrite E. cbn [bind outcome].
    eexists _, _, _. split; reflexivity.
  - simpl. rewrite Ee0. reflexivity.
  - intros fm ci' cs' H0 H1 H2. simpl.
    destruct (Z.eqb_spec fm (-1)) as [->|Hm1]; simpl; [reflexivity|].
    destruct (Z.eqb_spec fm 0); [contradiction|].
    destruct (Z.eqb_spec fm 1); [contradiction|].
    destruct (Z.eqb_spec fm 2); [contradiction|].
    rewrite Ee0. reflexivity.
Qed.
End SolverExtras.

(** * The convergence probes *)

Section ProbeFacts.
Context {R C : Type} {RS : RealScalar R} {CS : ComplexScalar R C} {EX : Externals R C}
        {RO : RealOrder R} {epsR : MatrixEps R}.






End ProbeFacts.

(** * Printing *)

Lemma append_assoc (s1 s2 s3 : string) : (s1 +:+ s2) +:+ s3 = s1 +:+ s2 +:+ s3.
Proof.
  induction s1 as [|a s1 IH]; [reflexivity|].
  change (String a ((s1 +:+ s2) +:+ s3) = String a (s1 +:+ s2 +:+ s3)).
  rewrite IH. reflexivity.
Qed.

Lemma append_empty_r (s : string) : s +:+ EmptyString = s.
Proof.
  induction s as [|a s IH]; [reflexivity|].
  change (String a (s +:+ EmptyString) = String a s). rewrite IH. reflexivity.
Qed.

(** A loop that appends the items [g i], with a comma after every item
    but the last. *)
Lemma for_range_join (n : Z) (body : Z -> string -> Res string) (g : Z -> string) :
  forall (k : nat) (lo : Z) (res : string),
    lo + Z.of_nat k = n ->
    (forall i res, lo <= i < n ->
       body i res = Ok (if negb (i + 1 =? n) then (res +:+ g i) +:+ "," else res +:+ g i)) ->
    for_range lo k body res
    = Ok (res +:+ String.concat "," (map g (seqZ lo (Z.of_nat k)))).
Proof.
  induction k as [|k IH]; intros lo res Hn Hb.
  - cbn. rewrite append_empty_r. reflexivity.
  - rewrite seqZ_cons by lia. cbn [for_range map]. rewrite Hb by lia. cbn [bind].
    replace (Z.succ lo) with (lo + 1) by lia.
    replace (Z.pred (Z.of_nat (S k))) with (Z.of_nat k) by lia.
    destruct k as [|k].
    + destruct (Z.eqb_spec (lo + 1) n); [|lia]. reflexivity.
    + destruct (Z.eqb_spec (lo + 1) n); [lia|]. cbn [negb].
      rewrite IH by (lia || (intros; apply Hb; lia)).
      rewrite seqZ_cons by lia. cbn [map String.concat].
      rewrite !append_assoc. reflexivity.
Qed.

Lemma for_join (n : Z) (body : Z -> string -> Res string) (g : Z -> string) (res : string) :
  0 <= n ->
  (forall i res, 0 <= i < n ->
     body i res = Ok (if negb (i + 1 =? n) then (res +:+ g i) +:+ "," else res +:+ g i)) ->
  for_ n body res = Ok (res +:+ String.concat "," (map g (seqZ 0 n))).
Proof.
  intros Hn Hb. unfold for_.
  rewrite (for_range_join n body g) by (lia || (intros; apply Hb; lia)).
  rewrite Z2Nat.id by lia. reflexivity.
Qed.

Section PrintingFacts.
Context {T : Type} `{Scalar T} {PR : Printable T} {MP : MatrixPrecision T}.

(** [ToWolframString] of a well-formed [r x c] matrix returns the rows
    in braces, separated by commas, inside one more pair of braces, and a
    newline; the cells of a row are separated by commas, and no comma
    follows the last cell or the last row.  A matrix without rows gives
    "{}" and a newline. *)
Theorem ToWolframString_spec r c (this : Mat T) :
  shaped r c this ->
  exists x : Z -> Z -> T,
    (forall i j, 0 <= i < r -> 0 <= j < c -> cell this i j = Some (x i j)) /\
    ToWolframString this = Ok (wolfram_text r c x).
Proof using All.
  intros Ht. pose proof Ht as (Hw & Er & Ec).
  destruct (shaped_nonneg _ _ _ Ht) as [Hr Hc].
  exists (fun i j => default szero (cell this i j)). split.
  - intros i j Hi Hj. destruct (At_ok this i j Hw) as (v & -> & _); [lia..|]. reflexivity.
  - set (g := fun i j => show_fixed (GetPrecision T) (default szero (cell this i j))).
    set (row := fun i => "{" +:+ String.concat "," (map (g i) (seqZ 0 c)) +:+ "}").
    unfold ToWolframString, wolfram_text, Rows, Cols. rewrite Er, Ec. cbv zeta.
    rewrite (for_join r _ row); [cbn [bind]; rewrite !append_assoc; reflexivity|exact Hr|].
    intros i res Hi.
    rewrite (for_join c _ (g i)); [|exact Hc|].
    + cbn [bind]. unfold row. rewrite !append_assoc. reflexivity.
    + intros j res' Hj.
      destruct (At_ok this i j Hw) as (v & Hv & ->); [lia..|]. cbn [bind].
      unfold g. rewrite Hv. reflexivity.
Qed.
End PrintingFacts.

(** * Scaling through a view, and the solvers on the empty matrix *)

Section ViewScaling.
Context {T : Type} `{Scalar T}.
Implicit Types (σ : gmap View.loc (list T)) (A V : Matrix View.loc).

(** The test "[(a, b)] lies in the window". *)
Lemma window_cases (i j n k a b : Z) :
  ((i <=? a) && (a <? i + n) && (j <=? b) && (b <? j + k) = true /\
   i <= a < i + n /\ j <= b < j + k) \/
  ((i <=? a) && (a <? i + n) && (j <=? b) && (b <? j + k) = false /\
   ~ (i <= a < i + n /\ j <= b < j + k)).
Proof.
  destruct (Z.leb_spec i a), (Z.ltb_spec a (i + n)), (Z.leb_spec j b),
    (Z.ltb_spec b (j + k)); simpl; first [left; split; [reflexivity|lia] | right; split; [reflexivity|lia]].
Qed.

(** [V *= b] (or [V /= b]) for a view [V = A.SubMatrix(i, j, n, m)] whose
    window lies inside [A]: the cells of [A] inside the window are
    replaced by their images, the cells of [A] outside it and all other
    arrays are left as they were. *)
Theorem scalar_assign_through_view σ A i j n k (f : T -> T) :
  View.wf σ A -> 0 <= i -> 0 <= j -> 0 <= n -> 0 <= k ->
  i + n <= rows_ A -> j + k <= cols_ A ->
  exists σ',
    ViewOps.scalar_assign f σ (SubMatrix A i j n k) = Ok σ' /\ View.wf σ' A /\
    (forall a b, 0 <= a < rows_ A -> 0 <= b < cols_ A ->
       View.cell σ' A a b
       = if (i <=? a) && (a <? i + n) && (j <=? b) && (b <? j + k)
         then f <$> View.cell σ A a b else View.cell σ A a b) /\
    (forall l, l <> data_ A -> σ' !! l = σ !! l).
Proof.
  intros Hw Hi Hj Hn Hk Hin Hjk.
  rewrite SubMatrix_explicit by lia.
  set (V := {| data_ := data_ A; data_rows_ := data_rows_ A; data_cols_ := data_cols_ A;
               cols_ := k; rows_ := n;
               offset_i_ := offset_i_ A + i; offset_j_ := offset_j_ A + j |}).
  assert (Hidx : forall i' j', 0 <= i' < n -> 0 <= j' < k ->
            At_index V i' j' = At_index A (i + i') (j + j')).
  { intros i' j' Hi' Hj'. rewrite !At_index_ok by (simpl; lia). simpl. f_equal. ring. }
  unfold ViewOps.scalar_assign, Rows, Cols. simpl.
  destruct (for2_todo_done
    (fun s => View.wf s A /\ (forall l, l <> data_ A -> s !! l = σ !! l) /\
              forall a b, 0 <= a < rows_ A -> 0 <= b < cols_ A ->
                ~ (i <= a < i + n /\ j <= b < j + k) ->
                View.cell s A a b = View.cell σ A a b)
    (fun i' j' s => View.cell s A (i + i') (j + j') = View.cell σ A (i + i') (j + j'))
    (fun i' j' s => View.cell s A (i + i') (j + j') = f <$> View.cell σ A (i + i') (j + j'))
    n k (fun _ => k)
    (fun i' j' s => y <- View.At s V i' j' ;; View.set_At s V i' j' (f y)) σ)
    as (σ' & E & (Hw' & Hfr & Hout) & Hdone).
  - split; [assumption|]. split; reflexivity.
  - reflexivity.
  - reflexivity.
  - intros i' j' s Hi' Hj' (Hws & Hfs & Hos) Htodo.
    assert (Hbody : (y <- View.At s V i' j' ;; View.set_At s V i' j' (f y))
                    = (y <- View.At s A (i + i') (j + j') ;;
                       View.set_At s A (i + i') (j + j') (f y))).
    { unfold View.At, View.set_At. rewrite (Hidx i' j' Hi' Hj'). reflexivity. }
    rewrite Hbody.
    destruct (View_At_ok s A (i + i') (j + j') Hws) as (y & Hy & ->); [lia..|]. cbn [bind].
    destruct (View_set_At_spec s A (i + i') (j + j') (f y) Hws)
      as (s' & -> & Hws' & Hv & Hc & Hf & _); [lia..|].
    exists s'. split; [reflexivity|]. split; [|split].
    + split; [assumption|]. split.
      * intros l Hl. rewrite Hf by assumption. apply Hfs; assumption.
      * intros a b Ha Hb Hnot. rewrite Hc; [apply Hos; assumption|assumption..|].
        intros [= -> ->]. apply Hnot. lia.
    + rewrite Hv, <- Htodo, Hy. reflexivity.
    + intros i'' j'' Hi'' Hj'' Hne.
      rewrite Hc; [tauto|lia..|]. intros [= E1 E2]. apply Hne. f_equal; lia.
  - exists σ'. split; [exact E|]. split; [exact Hw'|]. split; [|exact Hfr].
    intros a b Ha Hb.
    destruct (window_cases i j n k a b) as [(-> & Hia & Hjb)|(-> & Hnot)].
    + specialize (Hdone (a - i) (b - j)).
      replace (i + (a - i)) with a in Hdone by ring.
      replace (j + (b - j)) with b in Hdone by ring. apply Hdone; lia.
    + apply Hout; assumption.
Qed.
End ViewScaling.

(** * In-place addition on matrices that may share an array *)

Section ViewPlus.
Context {T : Type} `{Scalar T}.
Implicit Types (σ : gmap View.loc (list T)) (this a m : Matrix View.loc).

Lemma View_cell_position σ m i j :
  View.cell σ m i j
  = match σ !! data_ m with
    | Some buf => buf !! Z.to_nat (position m i j)
    | None => None
    end.
Proof. reflexivity. Qed.

(** A write through [m], seen through another handle [a]: [a] stays well
    formed, and its cells at other positions are as they were. *)
Lemma View_set_At_other σ m i j v :
  View.wf σ m -> 0 <= i < rows_ m -> 0 <= j < cols_ m ->
  exists σ', View.set_At σ m i j v = Ok σ' /\
    View.wf σ' m /\ View.cell σ' m i j = Some v /\
    (forall l, l <> data_ m -> σ' !! l = σ !! l) /\
    (forall buf, σ !! data_ m = Some buf ->
       exists buf', σ' !! data_ m = Some buf' /\ length buf' = length buf /\
         forall k, k <> Z.to_nat (position m i j) -> buf' !! k = buf !! k) /\
    forall a, View.wf σ a ->
      View.wf σ' a /\
      forall i' j', 0 <= i' < rows_ a -> 0 <= j' < cols_ a ->
        (data_ a = data_ m -> position a i' j' <> position m i j) ->
        View.cell σ' a i' j' = View.cell σ a i' j'.
Proof.
  intros Hw Hi Hj. pose proof Hw as (buf & Hb & Hg).
  destruct (View_set_At_ok σ m i j v Hw Hi Hj) as (buf0 & Hb0 & E).
  rewrite Hb in Hb0. injection Hb0 as <-.
  pose proof (wf_index_bound _ m i j Hg Hi Hj) as Hk.
  fold (position m i j) in E, Hk.
  eexists. split; [exact E|]. split; [|split; [|split; [|split]]].
  - eexists. rewrite lookup_insert_eq. split; [reflexivity|].
    rewrite length_insert. exact Hg.
  - unfold View.cell. rewrite lookup_insert_eq. apply list_lookup_insert_eq.
    fold (position m i j). lia.
  - intros l Hl. apply lookup_insert_ne. congruence.
  - intros buf1 Hb1. rewrite Hb in Hb1. injection Hb1 as <-.
    eexists. rewrite lookup_insert_eq. split; [reflexivity|].
    split; [apply length_insert|].
    intros k Hne. apply list_lookup_insert_ne. congruence.
  - intros a (bufa & Hba & Hga). split.
    + destruct (decide (data_ a = data_ m)) as [Ed|Hd].
      * rewrite Ed in Hba. rewrite Hb in Hba. injection Hba as <-.
        eexists. rewrite Ed, lookup_insert_eq. split; [reflexivity|].
        rewrite length_insert. exact Hga.
      * exists bufa. rewrite lookup_insert_ne by congruence. split; assumption.
    + intros i' j' Hi' Hj' Hpos. rewrite !View_cell_position.
      destruct (decide (data_ a = data_ m)) as [Ed|Hd].
      * rewrite Ed, lookup_insert_eq, Hb.
        apply list_lookup_insert_ne.
        specialize (Hpos Ed).
        pose proof (wf_index_bound _ a i' j' Hga Hi' Hj') as Hk'.
        fold (position a i' j') in Hk'. lia.
      * rewrite lookup_insert_ne by congruence. reflexivity.
Qed.

(** The two loops of [operator+=] and [operator-=], for the operation [f]
    of the scalar. *)
Lemma assign_loops_ok (f : T -> T -> T) σ this a r c :
  View.wf σ this -> View.wf σ a ->
  rows_ this = r -> cols_ this = c -> rows_ a = r -> cols_ a = c ->
  reads_own_cells this a ->
  exists σ',
    for_ (Rows a) (fun i σ =>
      for_ (Cols a) (fun j σ =>
        x <- View.At σ a i j ;;
        y <- View.At σ this i j ;;
        View.set_At σ this i j (f y x)) σ) σ = Ok σ' /\
    View.wf σ' this /\ View.wf σ' a /\
    (forall i j, 0 <= i < r -> 0 <= j < c ->
       exists y x, View.cell σ this i j = Some y /\ View.cell σ a i j = Some x /\
                   View.cell σ' this i j = Some (f y x)) /\
    (forall l, l <> data_ this -> σ' !! l = σ !! l) /\
    (forall buf, σ !! data_ this = Some buf ->
       exists buf', σ' !! data_ this = Some buf' /\ length buf' = length buf /\
         forall k, (forall i j, 0 <= i < r -> 0 <= j < c ->
                      k <> Z.to_nat (position this i j)) ->
                   buf' !! k = buf !! k).
Proof.
  intros Hwt Hwa Ert Ect Era Eca Hsep.
  unfold Rows, Cols. rewrite Era.
  destruct (for2_todo_done
    (fun s => View.wf s this /\ View.wf s a /\
              (forall l, l <> data_ this -> s !! l = σ !! l) /\
              (forall buf, σ !! data_ this = Some buf ->
                 exists buf', s !! data_ this = Some buf' /\ length buf' = length buf /\
                   forall k, (forall i j, 0 <= i < r -> 0 <= j < c ->
                                k <> Z.to_nat (position this i j)) ->
                             buf' !! k = buf !! k))
    (fun i j s => View.cell s this i j = View.cell σ this i j /\
                  View.cell s a i j = View.cell σ a i j)
    (fun i j s => exists y x, View.cell σ this i j = Some y /\ View.cell σ a i j = Some x /\
                              View.cell s this i j = Some (f y x))
    r c (fun _ => cols_ a)
    (fun i j s => x <- View.At s a i j ;; y <- View.At s this i j ;;
                  View.set_At s this i j (f y x)) σ)
    as (σ' & E & (Hwt' & Hwa' & Hfr & Hbuf) & Hdone).
  - split; [assumption|]. split; [assumption|]. split; [reflexivity|].
    intros buf Hb. exists buf. split; [assumption|]. split; reflexivity.
  - intros; assumption.
  - intros; split; reflexivity.
  - intros i j s Hi Hj (Hws & Hwas & Hfs & Hbs) (Ht & Ha).
    destruct (View_At_ok s a i j Hwas) as (x & Hx & ->); [lia..|]. cbn [bind].
    destruct (View_At_ok s this i j Hws) as (y & Hy & ->); [lia..|]. cbn [bind].
    destruct (View_set_At_other s this i j (f y x) Hws)
      as (s' & -> & Hws' & Hv & Hf & Hb' & Hoth); [lia..|].
    exists s'. split; [reflexivity|]. split; [|split].
    + split; [assumption|]. split; [apply (Hoth a Hwas)|]. split.
      * intros l Hl. rewrite Hf by assumption. apply Hfs; assumption.
      * intros buf Hb. destruct (Hbs buf Hb) as (buf1 & Hb1 & Hlen1 & Hk1).
        destruct (Hb' buf1 Hb1) as (buf2 & Hb2 & Hlen2 & Hk2).
        exists buf2. split; [assumption|]. split; [congruence|].
        intros k Hk. rewrite Hk2 by (apply Hk; lia). apply Hk1; assumption.
    + exists y, x. rewrite <- Ht, <- Ha. tauto.
    + intros i' j' Hi' Hj' Hne.
      assert (Hthis : View.cell s' this i' j' = View.cell s this i' j').
      { apply (Hoth this Hws); [lia..|]. intros _ Hpos.
        destruct Hws as (b & _ & Hg).
        destruct (wf_index_inj _ this i' j' i j Hg) as [-> ->]; [lia..|exact Hpos|].
        congruence. }
      split.
      * intros (Ht' & Ha'). split; [congruence|].
        rewrite <- Ha'. apply (Hoth a Hwas); [lia..|].
        intros Ed Hpos. destruct (Hsep Ed i j i' j') as [-> ->]; [lia..|exact Hpos|].
        congruence.
      * intros (y' & x' & ? & ? & ?). exists y', x'. rewrite Hthis. tauto.
  - exists σ'. split; [exact E|]. tauto.
Qed.
(** [this += a] and [this -= a] on two matrix objects of one size, in a
    store where they may share an array.  When no cell of the operand is
    another cell of the target (different arrays, disjoint views, or the
    same cells at the same indexes) every cell of the target receives the
    sum, respectively the difference, of the two cells as they were; both
    objects stay well formed, and the cells of the target's array outside
    the target, and all other arrays, are left as they were.  The
    condition is needed, since the operand is read while the target is
    written: for the views [V = A.SubMatrix(0, 1, 1, 2)] and
    [W = A.SubMatrix(0, 0, 1, 2)] of a row [(x0, x1, x2)], [V += W] leaves
    [(x0, x1 + x0, x2 + (x1 + x0))]. *)
Theorem plus_assign_on_shared_arrays σ this a r c :
  View.wf σ this -> View.wf σ a ->
  rows_ this = r -> cols_ this = c -> rows_ a = r -> cols_ a = c ->
  (reads_own_cells this a ->
   (exists σ', ViewOps.plus_assign σ this a = Ok σ' /\
      View.wf σ' this /\ View.wf σ' a /\
      (forall i j, 0 <= i < r -> 0 <= j < c ->
         exists y x, View.cell σ this i j = Some y /\ View.cell σ a i j = Some x /\
                     View.cell σ' this i j = Some (sadd y x)) /\
      (forall l, l <> data_ this -> σ' !! l = σ !! l) /\
      (forall buf, σ !! data_ this = Some buf ->
         exists buf', σ' !! data_ this = Some buf' /\ length buf' = length buf /\
           forall k, (forall i j, 0 <= i < r -> 0 <= j < c ->
                        k <> Z.to_nat (position this i j)) ->
                     buf' !! k = buf !! k)) /\
   (exists σ', ViewOps.minus_assign σ this a = Ok σ' /\
      View.wf σ' this /\ View.wf σ' a /\
      (forall i j, 0 <= i < r -> 0 <= j < c ->
         exists y x, View.cell σ this i j = Some y /\ View.cell σ a i j = Some x /\
                     View.cell σ' this i j = Some (ssub y x)) /\
      (forall l, l <> data_ this -> σ' !! l = σ !! l) /\
      (forall buf, σ !! data_ this = Some buf ->
         exists buf', σ' !! data_ this = Some buf' /\ length buf' = length buf /\
           forall k, (forall i j, 0 <= i < r -> 0 <= j < c ->
                        k <> Z.to_nat (position this i j)) ->
                     buf' !! k = buf !! k))) /\
  (forall (l : View.loc) (x0 x1 x2 : T) σ0,
     σ0 !! l = Some [x0; x1; x2] ->
     let A := {| data_ := l; data_rows_ := 1; data_cols_ := 3; cols_ := 3; rows_ := 1;
                 offset_i_ := 0; offset_j_ := 0 |} in
     let V := SubMatrix A 0 1 1 2 in
     let W := SubMatrix A 0 0 1 2 in
     View.wf σ0 V /\ View.wf σ0 W /\ ~ reads_own_cells V W /\
     exists σ', ViewOps.plus_assign σ0 V W = Ok σ' /\
       σ' !! l = Some [x0; sadd x1 x0; sadd x2 (sadd x1 x0)]).
Proof.
  intros Hwt Hwa Ert Ect Era Eca. split.
  - intros Hsep. split.
    + unfold ViewOps.plus_assign.
      rewrite (AssertEqualSizes_ok r c) by assumption. cbn [bind].
      apply assign_loops_ok; assumption.
    + unfold ViewOps.minus_assign.
      rewrite (AssertEqualSizes_ok r c) by assumption. cbn [bind].
      apply assign_loops_ok; assumption.
  - intros l x0 x1 x2 σ0 Hl A V W.
    split; [|split; [|split]].
    + exists [x0; x1; x2]. split; [exact Hl|]. unfold wf_geom. cbn. lia.
    + exists [x0; x1; x2]. split; [exact Hl|]. unfold wf_geom. cbn. lia.
    + intros Hsep. destruct (Hsep eq_refl 0 0 0 1) as [_ Hj];
        [subst A V W; cbn; lia..|reflexivity|discriminate Hj].
    + subst A V W. unfold ViewOps.plus_assign, View.At, View.set_At, for_. cbn.
      zred. cbn [for_range]. unfold At_index, SubMatrix, Rows, Cols. cbn.
      zred. cbn. rewrite Hl. unfold load, store. cbn. zred. cbn.
      rewrite lookup_insert_eq. cbn.
      eexists. split; [reflexivity|]. rewrite lookup_insert_eq. reflexivity.
Qed.
End ViewPlus.

Section EmptyMatrix.
Context {R C : Type} {RS : RealScalar R} {CS : ComplexScalar R C} {EX : Externals R C}
        {epsR : MatrixEps R} {epsC : MatrixEps C}.

#[local] Arguments method1_loop : simpl never.
#[local] Arguments method2_loop : simpl never.
#[local] Arguments method3_loop : simpl never.

Lemma At1_index_empty_column {D : Type} (m : Matrix D) :
  rows_ m = 0 -> cols_ m = 1 ->
  At1_index m 0
  = Throw (out_of_range "Indexes (0; 0) out of matrix size (0; 1)").
Proof.
  intros Er Ec. unfold At1_index, IsRowVector, IsColVector, Rows, Cols, At_index, Size.
  rewrite Er, Ec. reflexivity.
Qed.

(** On the empty square matrix (0 x 0, also as a view) no solver returns
    an empty list: Method 1 and Method 3 throw [out_of_range] when they
    write element 0 of their start vector, Method 2 when its first dot
    product reads element 0 of a vector without elements, and the
    dispatcher, for every [force_method], when it builds the seed, after
    it has set [*iters] to 0. *)
Theorem solvers_on_empty_matrix (a y : Mat R) iters max_iters eps :
  wf a -> rows_ a = 0 -> cols_ a = 0 -> shaped 0 1 y ->
  let e := out_of_range "Indexes (0; 0) out of matrix size (0; 1)" in
  PowerMethodEigenvalues1 a y iters max_iters = Throw e /\
  PowerMethodEigenvalues2 a y iters max_iters eps = Throw e /\
  PowerMethodEigenvalues3 a iters max_iters = Throw e /\
  forall check_iters check_step force_method,
    PowerMethodEigenvalues a iters max_iters check_iters check_step force_method
    = (Throw e, set_iters iters 0).
Proof.
  intros Hw Er Ec Hy e.
  assert (Ha : shaped 0 0 a) by (split; [assumption|split; assumption]).
  assert (Hsq : IsSquare a = true) by (unfold IsSquare, Rows, Cols; rewrite Er, Ec; reflexivity).
  assert (Hseed : seed a = Throw e).
  { unfold seed, Rows. rewrite Er.
    destruct (Matrix_nm_ok (T := R) 0 1) as (y0 & -> & (_ & Er0 & Ec0) & _); [lia..|].
    cbn [bind]. unfold set_At1. rewrite At1_index_empty_column by assumption. reflexivity. }
  split; [|split; [|split]].
  - unfold PowerMethodEigenvalues1. rewrite Hsq. cbn [negb].
    destruct Hy as (_ & Ery & Ecy).
    unfold set_At1. rewrite At1_index_empty_column by assumption. reflexivity.
  - unfold PowerMethodEigenvalues2. rewrite Hsq. cbn [negb].
    destruct (op_mul_ok 0 0 0 a a Ha Ha) as (a2 & -> & Ha2 & _). cbn [bind].
    destruct (op_div_scalar_ok 0 1 y (EuclideanNorm y) Hy) as (u & -> & Hu & _). cbn [bind].
    destruct (op_mul_ok 0 0 1 a2 u Ha2 Hu) as (p & -> & Hp & _). cbn [bind].
    destruct Hu as (_ & Eru & Ecu). destruct Hp as (_ & Erp & Ecp).
    unfold ScalarProduct, IsVector, IsColVector, IsRowVector, Rows, Cols.
    rewrite Eru, Ecu, Erp, Ecp. cbn [Z.eqb orb negb].
    rewrite (AssertEqualSizes_ok 0 1) by assumption. cbn [bind].
    change (Z.max 1 0) with 1. unfold for_. change (Z.to_nat 1) with 1%nat.
    cbn [for_range].
    unfold At1. rewrite At1_index_empty_column by assumption. reflexivity.
  - unfold PowerMethodEigenvalues3. rewrite Hsq. cbn [negb].
    destruct (op_mul_ok 0 0 0 a a Ha Ha) as (a2 & -> & Ha2 & _). cbn [bind].
    destruct (ToComplex_ok 0 0 a Ha) as (ca & -> & _). cbn [bind].
    destruct (ToComplex_ok 0 0 a2 Ha2) as (ca2 & -> & _). cbn [bind].
    unfold Rows. rewrite Er.
    destruct (Matrix_nm_ok (T := C) 0 1) as (y0 & -> & (_ & Er0 & Ec0) & _); [lia..|].
    cbn [bind]. unfold set_At1. rewrite At1_index_empty_column by assumption. reflexivity.
  - intros ci cs fm. unfold PowerMethodEigenvalues, probe_and_refine.
    fold (set_iters iters 0). rewrite Hseed.
    destruct (negb (fm =? -1)); reflexivity.
Qed.
End EmptyMatrix.

(** [ToComplex()] of a well-formed [r x c] matrix (view or not) is a new
    owning [r x c] matrix of complex numbers whose every cell is the
    conversion of the source's cell. *)
Theorem ToComplex_spec {R C : Type} `{ComplexScalar R C} r c (this : Mat R) :
  shaped r c this ->
  exists m, ToComplex this = Ok m /\ shaped r c m /\ owning m /\
    forall i j, 0 <= i < r -> 0 <= j < c ->
      exists x, cell this i j = Some x /\ cell m i j = Some (cof_real x).
Proof.
  intros Ht. pose proof Ht as (Hw & Er & Ec).
  destruct (ToComplex_ok r c this Ht) as (m & E & Hm & Hown & _ & _ & Hc).
  exists m. split; [exact E|]. split; [exact Hm|]. split; [exact Hown|].
  intros i j Hi Hj.
  destruct (At_ok this i j Hw) as (x & Hx & _); [lia..|].
  exists x. split; [exact Hx|]. rewrite Hc by lia. rewrite Hx. reflexivity.
Qed.

(** * The claims on concrete matrices *)

Module Examples.
Import Double Run.
Close Scope float_scope.

Lemma least_squares2_shape : MinimalSquareProblem_shape (EX := externals).
Proof.
  intros n l r _ _. unfold MinimalSquareProblem, externals, least_squares2, of_rows.
  split; [|split; reflexivity].
  unfold wf, wf_geom. cbn. lia.
Qed.

Lemma diag2_shaped : shaped 2 2 diag2.
Proof. split; [|split; reflexivity]. unfold wf, wf_geom. cbn. lia. Qed.

Lemma e0_2_shaped : shaped 2 1 e0_2.
Proof. split; [|split; reflexivity]. unfold wf, wf_geom. cbn. lia. Qed.

(** The dispatcher on [diag(2, -2)]. *)
Lemma dispatcher_contract_witness :
  1 <= 2 /\ shaped 2 2 diag2 /\ dispatcher_contract diag2 (Some 7) 100 10 5.
Proof.
  split; [lia|]. split; [exact diag2_shaped|].
  apply (dispatcher_probe_refine_fallback 2 diag2 (Some 7) 100 10 5);
    [lia|exact diag2_shaped].
Defined.

(** The 0 x 0 matrix is square, and the dispatcher throws while it builds
    the seed: no method is run. *)
Lemma dispatcher_contract_fails_on_empty_matrix :
  IsSquare empty00 = true /\ wf empty00 /\
  PowerMethodEigenvalues empty00 (Some 7) 100 10 5 (-1)
  = (Throw (out_of_range "Indexes (0; 0) out of matrix size (0; 1)"), Some 0) /\
  ~ dispatcher_contract empty00 (Some 7) 100 10 5.
Proof.
  split; [reflexivity|]. split; [unfold wf, wf_geom; cbn; lia|].
  split; [vm_compute; reflexivity|].
  intros (e0 & probe & y1 & it1 & Hseed & _).
  vm_compute in Hseed. discriminate Hseed.
Qed.

(** Method 2 on [diag(2, -2)] from [e0 = (1, 0)]. *)
Lemma method2_candidates_witness :
  1 <= 2 /\ shaped 2 2 diag2 /\ shaped 2 1 e0_2 /\
  exists ans y' out,
    PowerMethodEigenvalues2 diag2 e0_2 (Some 0) 100 epsilon = Ok (ans, y', out) /\
    (length ans <= 2)%nat /\ (ans = [] -> out = Some (-1)).
Proof.
  split; [lia|]. split; [exact diag2_shaped|]. split; [exact e0_2_shaped|].
  destruct (method2_candidates_and_result 2 diag2 e0_2 (Some 0) 100 epsilon)
    as (a2 & u0 & sp & lambda & u & y' & iter & v1 & v2 & c1 & c2 & ans & out &
        _ & _ & _ & _ & _ & _ & E & _ & Hlen & Hout);
    [lia|exact diag2_shaped|exact e0_2_shaped|].
  exists ans, y', out. split; [exact E|]. split; [exact Hlen|exact Hout].
Defined.
(** The three methods on [diag(2, -2)] from [e0 = (1, 0)]. *)
Lemma convergence_failure_witness :
  MinimalSquareProblem_shape (EX := externals) /\ 1 <= 2 /\
  shaped 2 2 diag2 /\ shaped 2 1 e0_2 /\
  (exists lambda u out,
     PowerMethodEigenvalues1 diag2 e0_2 (Some 0) 100 = Ok (lambda, u, out)) /\
  (exists ans out,
     PowerMethodEigenvalues3 diag2 (Some 0) 100 = Ok (ans, out)).
Proof.
  split; [exact least_squares2_shape|]. split; [lia|].
  split; [exact diag2_shaped|]. split; [exact e0_2_shaped|].
  destruct (convergence_failure_is_signalled 2 diag2 e0_2 (Some 0) 100 epsilon
              least_squares2_shape)
    as ((y1 & u0 & l0 & lambda & u & y' & iter & _ & _ & _ & _ & _ & E1) & _
        & (sq & ca & ca2 & y00 & y0 & cu0 & r1 & r2 & cu & iter3 & ans &
           _ & _ & _ & _ & _ & _ & _ & _ & E3));
    [lia|exact diag2_shaped|exact e0_2_shaped|].
  split; [exists lambda, u; eexists; exact E1|exists ans; eexists; exact E3].
Defined.

(** A 1 x 2 matrix is rejected by Method 1 and by the dispatcher. *)
Lemma non_square_witness :
  IsSquare row12 = false /\ 1 <= rows_ row12 /\
  PowerMethodEigenvalues1 row12 e0_2 (Some 7) 100
  = Throw (invalid_argument "Matrix of size (1; 2) is not square.") /\
  PowerMethodEigenvalues row12 (Some 7) 100 10 5 0
  = (Throw (invalid_argument "Matrix of size (1; 2) is not square."), Some 0).
Proof.
  split; [reflexivity|]. split; [cbn; lia|].
  destruct (non_square_is_rejected row12 e0_2 (Some 7) 100 epsilon eq_refl)
    as (E1 & _ & _ & E4).
  split; [etransitivity; [exact E1|vm_compute; reflexivity]|].
  etransitivity; [apply E4; cbn; lia|vm_compute; reflexivity].
Defined.

(** A 0 x 1 matrix is not square, and the dispatcher throws
    [out_of_range], from the seed, on every path. *)
Lemma dispatcher_out_of_range_on_rowless_matrix :
  IsSquare empty01 = false /\ wf empty01 /\
  let e := Throw (out_of_range "Indexes (0; 0) out of matrix size (0; 1)") in
  PowerMethodEigenvalues empty01 (Some 7) 100 10 5 (-1) = (e, Some 0) /\
  PowerMethodEigenvalues empty01 (Some 7) 100 10 5 0 = (e, Some 0) /\
  PowerMethodEigenvalues empty01 (Some 7) 100 10 5 1 = (e, Some 0) /\
  PowerMethodEigenvalues empty01 (Some 7) 100 10 5 2 = (e, Some 0).
Proof.
  split; [reflexivity|]. split; [unfold wf, wf_geom; cbn; lia|].
  repeat split; vm_compute; reflexivity.
Qed.

(** The probe on [diag(2, -2)] hands back [(4, 0)], not the seed. *)
Lemma probe_overwrites_seed :
  exists probe it1,
    PowerMethodEigenvalues2 diag2 e0_2 (Some 0) 100 r0_1
    = Ok (probe, of_rows [[4%float]; [0%float]], it1).
Proof. eexists _, _. vm_compute. reflexivity. Qed.

Lemma refined_run_witness :
  1 <= 2 /\ shaped 2 2 diag2 /\
  exists e0 probe y1 it1 refined y2 it2,
    seed diag2 = Ok e0 /\
    PowerMethodEigenvalues2 diag2 e0 (Some 0) 100 r0_1 = Ok (probe, y1, Some it1) /\
    PowerMethodEigenvalues2 diag2 y1 (Some 0) 100 GetEps = Ok (refined, y2, Some it2) /\
    (it1 <> -1 -> it2 <> -1 ->
     PowerMethodEigenvalues diag2 (Some 7) 100 10 5 (-1)
     = (Ok refined, Some (it1 + it2))).
Proof.
  split; [lia|]. split; [exact diag2_shaped|].
  destruct (refined_run_starts_from_probe_vector 2 diag2 (Some 7) 100 10 5)
    as (_ & a2 & e0 & u0 & sp & lambda & u & iter & probe & y1 & it1 & refined & y2 & it2 &
        _ & E0 & _ & _ & _ & E1 & _ & _ & _ & _ & _ & _ & E2 & E);
    [lia|exact diag2_shaped|].
  exists e0, probe, y1, it1, refined, y2, it2.
  split; [exact E0|]. split; [exact E1|]. split; [exact E2|exact E].
Defined.

Lemma diag_1e18_shaped : shaped 2 2 diag_1e18.
Proof. split; [|split; reflexivity]. unfold wf, wf_geom. cbn. lia. Qed.

(** On [diag(1e18, 1)] the loop of the probe makes no step: the probe
    hands the seed back as it was, and the run at full precision, whose
    result the dispatcher returns, starts from [e0]. *)
Lemma refined_run_starts_from_e0_on_diag_1e18 :
  shaped 2 2 diag_1e18 /\
  seed diag_1e18 = Ok e0_2 /\
  (exists probe,
     PowerMethodEigenvalues2 diag_1e18 e0_2 (Some 0) 100 r0_1 = Ok (probe, e0_2, Some 1)) /\
  (exists refined y2,
     PowerMethodEigenvalues2 diag_1e18 e0_2 (Some 0) 100 GetEps = Ok (refined, y2, Some 1) /\
     PowerMethodEigenvalues diag_1e18 (Some 7) 100 10 5 (-1) = (Ok refined, Some 2)).
Proof.
  split; [exact diag_1e18_shaped|].
  split; [vm_compute; reflexivity|].
  split; [eexists; vm_compute; reflexivity|].
  eexists _, _. split; vm_compute; reflexivity.
Qed.

Lemma one_c_shaped : shaped 1 1 one_c.
Proof. split; [|split; reflexivity]. unfold wf, wf_geom. cbn. lia. Qed.

Lemma method3_step_witness :
  MinimalSquareProblem_shape (EX := externals) /\ shaped 1 1 one_c /\
  exists l r y' u' c1 c0,
    method3_system one_c one_c u' = Ok (l, r) /\
    At1 (MinimalSquareProblem l r) 1 = Ok c1 /\
    At1 (MinimalSquareProblem l r) 0 = Ok c0 /\
    PowerMethodEigenvaluesComplexIteration one_c one_c one_c one_c
    = Ok (fst (SolveQuadraticEquation (sof_int 1) c1 c0),
          snd (SolveQuadraticEquation (sof_int 1) c1 c0), y', u').
Proof.
  split; [exact least_squares2_shape|]. split; [exact one_c_shaped|].
  destruct (method3_step_system 1 one_c one_c one_c one_c least_squares2_shape
              one_c_shaped one_c_shaped one_c_shaped one_c_shaped)
    as (au0 & q & y' & u' & l & r & au & m & rc & c1 & c0 &
        _ & _ & _ & _ & Es & _ & _ & _ & _ & _ & _ & _ & E1 & E0 & E).
  exists l, r, y', u', c1, c0. split; [exact Es|]. split; [exact E1|].
  split; [exact E0|exact E].
Defined.

(** For [a = (1)], [squared_a = (1)] and [u = (1)] the right-hand side built
    by the code is [(-1)], the one the specification describes is [(1)]. *)
Lemma method3_system_is_not_the_specified_one :
  let l := of_rows [[1%float; 1%float]] in
  method3_system one_c one_c one_c = Ok (l, of_rows [[(-1)%float]]) /\
  specified_system one_c one_c one_c = Ok (l, of_rows [[1%float]]) /\
  method3_system one_c one_c one_c <> specified_system one_c one_c one_c.
Proof.
  split; [vm_compute; reflexivity|]. split; [vm_compute; reflexivity|].
  intros E.
  apply (f_equal (fun x => match x with
                           | Ok (_, r) => match data_ r with
                                          | v :: _ => PrimFloat.ltb v 0
                                          | [] => false
                                          end
                           | _ => false
                           end)) in E.
  vm_compute in E. discriminate E.
Qed.
Lemma handle_wf_store1 : View.wf store1 A22.
Proof.
  exists [1; 2; 3; 4]%float. split; [reflexivity|]. unfold wf_geom. cbn. lia.
Qed.

(** Writing 9 through [A.Row(0)] at element 0 and reading [A(0, 0)]. *)
Lemma views_alias_witness :
  View.wf store1 A22 /\
  (exists σ', View.set_At1 store1 (Row A22 0) 0 9%float = Ok σ' /\
              View.At σ' A22 0 0 = Ok 9%float) /\
  (exists σ', View.set_At store1 A22 0 0 9%float = Ok σ' /\
              View.At1 σ' (Row A22 0) 0 = Ok 9%float).
Proof.
  split; [exact handle_wf_store1|].
  destruct (views_alias_storage store1 A22 handle_wf_store1)
    as (_ & _ & _ & _ & Halias & _).
  destruct (Halias 0 0 9%float) as (Hrow & Hmat & _); [cbn; lia..|].
  split; [exact Hrow|exact Hmat].
Defined.

(** [SubMatrix] checks none of its arguments.  On the well-formed 2 x 2
    matrix of [store1] the views [A.SubMatrix(0, 0, 3, 2)] and [A.Row(2)]
    do not satisfy the invariant (three rows on an array of two): their
    last row passes the bounds check of [At] and addresses index 4 of an
    array of four cells. *)
Lemma view_invariant_is_not_kept_by_SubMatrix :
  View.wf store1 A22 /\
  ~ View.wf store1 (SubMatrix A22 0 0 3 2) /\
  ~ View.wf store1 (Row A22 2) /\
  At_index (SubMatrix A22 0 0 3 2) 2 0 = Ok 4 /\
  View.At store1 (SubMatrix A22 0 0 3 2) 2 0 = Undefined /\
  View.At1 store1 (Row A22 2) 0 = Undefined /\
  View.set_At1 store1 (Row A22 2) 0 9%float = Undefined.
Proof.
  split; [exact handle_wf_store1|].
  split; [|split].
  - intros (buf & _ & Hg). unfold wf_geom in Hg. cbn in Hg. lia.
  - intros (buf & _ & Hg). unfold wf_geom in Hg. cbn in Hg. lia.
  - repeat split; vm_compute; reflexivity.
Qed.

Lemma copy_is_deep_witness :
  View.wf store1 A22 /\
  exists c σ',
    View.copy_construct store1 unbound A22 = Ok (c, σ') /\
    (data_ c ∉ dom store1) /\
    forall i j v σ'', View.set_At σ' c i j v = Ok σ'' ->
      forall i' j', View.At σ'' A22 i' j' = View.At σ' A22 i' j'.
Proof.
  split; [exact handle_wf_store1|].
  destruct (copy_is_deep_move_swaps store1 unbound A22 handle_wf_store1)
    as ((c & σ' & E & Hfresh & _ & _ & _ & _ & _ & Hcopy & _) & _).
  exists c, σ'. split; [exact E|]. split; [exact Hfresh|exact Hcopy].
Defined.

(** Move-assigning a 2 x 2 matrix to a 1 x 1 matrix leaves the source
    holding the 1 x 1 matrix, not the default-constructed state. *)
Lemma move_assign_source_not_empty :
  View.wf store2 A11 /\ View.wf store2 B22 /\
  View.move_assign A11 B22 = (B22, A11) /\
  ~ View.default_empty store2 (snd (View.move_assign A11 B22)).
Proof.
  split; [exists [5]%float; split; [reflexivity|unfold wf_geom; cbn; lia]|].
  split; [exists [7; 7; 7; 7]%float; split; [reflexivity|unfold wf_geom; cbn; lia]|].
  split; [reflexivity|].
  intros (Hr & _). cbn in Hr. lia.
Qed.
Lemma diag2_finite : all_cells finite diag2.
Proof.
  intros i j x Hi Hj. cbn in Hi, Hj.
  assert (Hi' : i = 0 \/ i = 1) by lia. assert (Hj' : j = 0 \/ j = 1) by lia.
  destruct Hi' as [-> | ->], Hj' as [-> | ->]; cbn; intros [= <-]; reflexivity.
Qed.

(** [diag(2, -2)] with the initial epsilon. *)
Lemma zero_is_neutral_witness :
  shaped 2 2 diag2 /\ PrimFloat.ltb epsilon 0 = false /\ all_cells finite diag2 /\
  exists Z D, Zeros 2 2 = Ok Z /\ op_minus diag2 diag2 = Ok D /\
              op_eq (ME := default_eps) D Z = Ok true.
Proof.
  split; [exact diag2_shaped|]. split; [reflexivity|]. split; [exact diag2_finite|].
  exact (proj2 (DoubleFacts.zero_is_neutral_up_to_eps 2 2 diag2 epsilon
                  diag2_shaped eq_refl) diag2_finite).
Defined.

(** With the initial epsilon the 1 x 1 matrix [(NaN)] is not equal to
    itself plus zero, and neither [(NaN) - (NaN)] nor [(inf) - (inf)] equals
    zero; with epsilon -1 not even [(1) + (0)] equals [(1)]. *)
Lemma nan_breaks_equality :
  shaped 1 1 nan1 /\ IsSquare nan1 = true /\
  (Z <- Zeros 1 1 ;; S <- op_plus nan1 Z ;; op_eq (ME := default_eps) S nan1) = Ok false /\
  (D <- op_minus nan1 nan1 ;; Z <- Zeros 1 1 ;; op_eq (ME := default_eps) D Z) = Ok false /\
  (D <- op_minus inf1 inf1 ;; Z <- Zeros 1 1 ;; op_eq (ME := default_eps) D Z) = Ok false /\
  (Z <- Zeros 1 1 ;; S <- op_plus one1 Z ;;
   op_eq (ME := {| GetEps := (-1)%float |}) S one1) = Ok false.
Proof.
  split; [split; [unfold wf, wf_geom; cbn; lia|split; reflexivity]|].
  split; [reflexivity|].
  repeat split; vm_compute; reflexivity.
Qed.

(** Two 0 x 1 matrices, and two 1 x 0 matrices, are vectors of one size;
    their dot product throws [out_of_range]. *)
Lemma ScalarProduct_throws_on_empty_vectors :
  (IsVector empty01 = true /\ wf empty01 /\
   ScalarProduct empty01 empty01
   = Throw (out_of_range "Indexes (0; 0) out of matrix size (0; 1)")) /\
  (IsVector empty10 = true /\ wf empty10 /\
   ScalarProduct empty10 empty10
   = Throw (out_of_range "Indexes (0; 0) out of matrix size (1; 0)")).
Proof.
  split; (split; [reflexivity|]; split; [unfold wf, wf_geom; cbn; lia|]);
    vm_compute; reflexivity.
Qed.
(** The dot product of [(1, 0)] with itself. *)
Lemma ScalarProduct_witness :
  wf e0_2 /\ IsVector e0_2 = true /\
  exists x y : Z -> float, ScalarProduct e0_2 e0_2 = Ok (dot x y 2).
Proof.
  assert (Hw : wf e0_2) by exact (proj1 e0_2_shaped).
  split; [exact Hw|]. split; [reflexivity|].
  destruct (ScalarProduct_spec e0_2 e0_2 Hw Hw) as (_ & _ & Hdot).
  destruct Hdot as (x & y & _ & E); [reflexivity|reflexivity|cbn; lia|cbn; lia|].
  exists x, y. exact E.
Defined.
End Examples.

(** * The further properties on concrete matrices *)

Module MoreExamples.
Import Double Run Samples Examples.
Close Scope float_scope.

Lemma diag2_wf : wf diag2.
Proof. exact (proj1 diag2_shaped). Qed.

Lemma row12_shaped : shaped 1 2 row12.
Proof. split; [|split; reflexivity]. unfold wf, wf_geom. cbn. lia. Qed.

Lemma A22_owning : owning A22.
Proof. unfold owning. cbn. tauto. Qed.

(** Reading [diag(2, -2)] at [(2, 0)]. *)
Lemma At_checks_bounds_witness :
  wf diag2 /\ ~ (0 <= 2 < rows_ diag2 /\ 0 <= 0 < cols_ diag2) /\
  At diag2 2 0 = Throw (out_of_range "Indexes (2; 0) out of matrix size (2; 2)").
Proof.
  assert (Hout : ~ (0 <= 2 < rows_ diag2 /\ 0 <= 0 < cols_ diag2)) by (cbn; lia).
  split; [exact diag2_wf|]. split; [exact Hout|].
  destruct (At_checks_bounds diag2 2 0 diag2_wf) as [_ Hthrow].
  destruct (Hthrow Hout) as [E _]. rewrite E. vm_compute. reflexivity.
Defined.

(** Writing 7 at [(0, 1)] of [diag(2, -2)]. *)
Lemma set_At_read_back_witness :
  wf diag2 /\ 0 <= 0 < rows_ diag2 /\ 0 <= 1 < cols_ diag2 /\
  exists m', set_At diag2 0 1 7%float = Ok m' /\ At m' 0 1 = Ok 7%float /\
             At m' 0 0 = At diag2 0 0.
Proof.
  assert (H0 : 0 <= 0 < rows_ diag2) by (cbn; lia).
  assert (H1 : 0 <= 1 < cols_ diag2) by (cbn; lia).
  split; [exact diag2_wf|]. split; [exact H0|]. split; [exact H1|].
  destruct (set_At_read_back diag2 0 1 7%float diag2_wf H0 H1)
    as (m' & E & _ & _ & Eback & Hother).
  exists m'. split; [exact E|]. split; [exact Eback|]. apply Hother. discriminate.
Defined.

(** [Matrix<double>(2, 2, 7)], [Matrix<double>(-2, 1, 7)] and
    [Matrix<double>(-2, -3, 7)]. *)
Lemma Matrix_fill_witness :
  (in_int 2 /\ in_int (2 * 2) /\ in_int (-2) /\ in_int 1 /\ in_int (-2 * 1) /\
   in_int (-3) /\ in_int (-2 * -3)) /\
  (exists m, Matrix_fill 2 2 7%float = Ok m /\ At m 1 1 = Ok 7%float) /\
  Matrix_fill (-2) 1 7%float = Throw bad_array_new_length /\
  (exists m, Matrix_fill (-2) (-3) 7%float = Ok m /\ rows_ m = -2 /\
     exists what, At m 0 0 = Throw (out_of_range what)).
Proof.
  assert (Hint : in_int 2 /\ in_int (2 * 2) /\ in_int (-2) /\ in_int 1 /\ in_int (-2 * 1) /\
                 in_int (-3) /\ in_int (-2 * -3)).
  { unfold in_int, INT_MIN, INT_MAX. lia. }
  split; [exact Hint|].
  destruct Hint as (I2 & I22 & Im2 & I1 & Im21 & Im3 & Im2m3).
  destruct (Matrix_fill_spec 2 2 7%float I2 I2 I22) as (_ & Hok & _).
  destruct (Matrix_fill_spec (-2) 1 7%float Im2 I1 Im21) as (Hneg & _ & _).
  destruct (Matrix_fill_spec (-2) (-3) 7%float Im2 Im3 Im2m3) as (_ & _ & Hdeg).
  split; [|split].
  - destruct Hok as (m & E & _ & _ & _ & _ & Hc); [lia..|].
    exists m. split; [exact E|]. apply Hc; lia.
  - apply Hneg. lia.
  - destruct Hdeg as (m & E & Er & _ & Hthrow); [lia..|].
    exists m. split; [exact E|]. split; [exact Er|]. apply Hthrow.
Defined.

(** [Matrix<double>::Ones(2)]. *)
Lemma Ones_witness :
  0 <= 2 /\ in_int (2 * 2) /\
  exists m, Ones (T := float) 2 = Ok m /\
    cell m 0 0 = Some 1%float /\ cell m 0 1 = Some 0%float.
Proof.
  assert (Hint : in_int (2 * 2)) by (unfold in_int, INT_MIN, INT_MAX; lia).
  split; [lia|]. split; [exact Hint|].
  destruct (Ones_is_identity (T := float) 2) as (m & E & _ & _ & Hc); [lia|exact Hint|].
  exists m. split; [exact E|]. split; [apply (Hc 0 0); lia|apply (Hc 0 1); lia].
Defined.


(** The transpose of the row [(1, 2)]. *)
Lemma Transposed_witness :
  shaped 1 2 row12 /\
  exists m, Transposed row12 = Ok m /\ shaped 2 1 m /\ cell m 1 0 = cell row12 0 1.
Proof.
  split; [exact row12_shaped|].
  destruct (Transposed_spec 1 2 row12 row12_shaped) as (m & E & Hm & _ & Hc & _).
  exists m. split; [exact E|]. split; [exact Hm|]. apply Hc; lia.
Defined.

(** [diag(2, -2) * (1, 0)]. *)
Lemma op_mul_witness :
  shaped 2 2 diag2 /\ shaped 2 1 e0_2 /\ in_int (2 * 1) /\
  exists (L R : Z -> Z -> float) m,
    op_mul diag2 e0_2 = Ok m /\ shaped 2 1 m /\
    cell m 0 0 = Some (dot (L 0) (fun t => R t 0) 2).
Proof.
  assert (Hint : in_int (2 * 1)) by (unfold in_int, INT_MIN, INT_MAX; lia).
  split; [exact diag2_shaped|]. split; [exact e0_2_shaped|]. split; [exact Hint|].
  destruct (op_mul_spec 2 2 1 diag2 e0_2 diag2_shaped e0_2_shaped Hint)
    as (L & R & m & _ & _ & E & Hm & _ & Hc).
  exists L, R, m. split; [exact E|]. split; [exact Hm|]. apply Hc; lia.
Defined.

(** [diag(2, -2) + diag(2, -2)]. *)
Lemma plus_minus_witness :
  shaped 2 2 diag2 /\
  exists m, op_plus diag2 diag2 = Ok m /\ shaped 2 2 m /\ owning m.
Proof.
  split; [exact diag2_shaped|].
  destruct (plus_minus_cellwise 2 2 diag2 diag2 diag2_shaped diag2_shaped)
    as ((m & E & Hm & Hown & _) & _).
  exists m. split; [exact E|]. split; [exact Hm|exact Hown].
Defined.

(** [diag(2, -2) / 2]. *)
Lemma scalar_ops_witness :
  shaped 2 2 diag2 /\
  exists m, op_div_scalar diag2 2%float = Ok m /\
    mapped_cells (fun x => sdiv x 2%float) diag2 m.
Proof.
  split; [exact diag2_shaped|].
  destruct (scalar_ops_cellwise 2 2 diag2 2%float diag2_shaped)
    as (_ & (m & E & _ & _ & Hc) & _).
  exists m. split; [exact E|exact Hc].
Defined.

(** A 1 x 2 and a 2 x 2 matrix. *)
Lemma size_mismatch_witness :
  Size row12 <> Size diag2 /\ Cols diag2 <> Rows row12 /\
  op_plus row12 diag2
  = Throw (invalid_argument "Wrong matrix sizes: (1; 2) (2; 2)") /\
  op_mul diag2 row12 = Throw (runtime_error "Bad matrix sizes (2; 2) (1; 2)").
Proof.
  assert (H1 : Size row12 <> Size diag2) by (cbn; intros [= E]; lia).
  assert (H2 : Cols diag2 <> Rows row12) by (cbn; lia).
  split; [exact H1|]. split; [exact H2|].
  destruct (size_mismatch_is_rejected row12 diag2) as [Hsize _].
  destruct (size_mismatch_is_rejected diag2 row12) as [_ Hmul].
  destruct (Hsize H1) as (_ & E & _). split.
  - rewrite E. vm_compute. reflexivity.
  - rewrite (Hmul H2). vm_compute. reflexivity.
Defined.

(** [diag(2, -2) != diag(2, -2)] with the initial epsilon. *)
Lemma op_ne_witness :
  shaped 2 2 diag2 /\
  exists res, op_ne (ME := default_eps) diag2 diag2 = Ok res /\
              op_eq (ME := default_eps) diag2 diag2 = Ok (negb res).
Proof.
  split; [exact diag2_shaped|].
  destruct (op_ne_spec (ME := default_eps) diag2 diag2) as [Hspec _].
  destruct (Hspec 2 2 diag2_shaped diag2_shaped) as (res & E1 & E2 & _).
  exists res. split; [exact E1|exact E2].
Defined.

Lemma diag2_no_nan : all_cells (fun x => negb (PrimFloat.is_nan x)) diag2.
Proof.
  intros i j x Hi Hj Hx. pose proof (diag2_finite i j x Hi Hj Hx) as Hf.
  rewrite (DoubleFacts.finite_not_nan x Hf). reflexivity.
Qed.

(** [diag(2, -2) == diag(2, -2)] with the initial epsilon. *)
Lemma op_eq_reflexive_witness :
  shaped 2 2 diag2 /\ PrimFloat.ltb epsilon 0 = false /\
  op_eq (ME := default_eps) diag2 diag2 = Ok true.
Proof.
  split; [exact diag2_shaped|]. split; [reflexivity|].
  exact (proj1 (DoubleCompare.op_eq_reflexive_without_nan 2 2 diag2 epsilon
                  diag2_shaped eq_refl) diag2_no_nan).
Defined.

(** The second row of the 2 x 2 matrix of [store1], as a view. *)
Lemma SubMatrix_window_witness :
  View.wf store1 A22 /\
  View.wf store1 (SubMatrix A22 1 0 1 2) /\
  View.At store1 (SubMatrix A22 1 0 1 2) 0 1 = View.At store1 A22 (1 + 0) (0 + 1).
Proof.
  split; [exact handle_wf_store1|].
  destruct (SubMatrix_window store1 A22 1 0 1 2 handle_wf_store1)
    as (Hw & _ & _ & Hcells & _); [cbn; lia..|].
  split; [exact Hw|]. apply Hcells; lia.
Defined.

(** A view of three rows on the 2 x 2 matrix of [store1]. *)
Lemma SubMatrix_not_validated_witness :
  View.wf store1 A22 /\ owning A22 /\ 1 <= cols_ A22 /\
  View.At store1 (SubMatrix A22 0 0 (rows_ A22 + 1) (cols_ A22)) (rows_ A22) 0
  = Undefined.
Proof.
  assert (Hc : 1 <= cols_ A22) by (cbn; lia).
  split; [exact handle_wf_store1|]. split; [exact A22_owning|]. split; [exact Hc|].
  exact (proj1 (SubMatrix_is_not_validated store1 A22 handle_wf_store1 A22_owning Hc)).
Defined.

(** [a = a] for the object that owns the matrix [(1 2; 3 4)]. *)
Lemma copy_assign_self_witness :
  Obj.objects objects1 !! 1%positive = Some A22 /\
  View.wf (Obj.arrays objects1) A22 /\
  View.At (Obj.arrays objects1) A22 0 0 = Ok 1%float /\
  exists c σ',
    Obj.copy_assign objects1 1%positive 1%positive
    = Ok (Obj.mkState (<[1%positive := c]> (Obj.objects objects1)) σ') /\
    View.At σ' c 0 0 = Ok 0%float.
Proof.
  assert (Ho : Obj.objects objects1 !! 1%positive = Some A22) by reflexivity.
  split; [exact Ho|]. split; [exact handle_wf_store1|]. split; [reflexivity|].
  destruct (copy_assign_objects objects1 1%positive A22 Ho handle_wf_store1)
    as (_ & c & σ' & E & _ & _ & _ & _ & Hz & _).
  exists c, σ'. split; [exact E|]. apply Hz; cbn; lia.
Defined.

(** One power step on [diag(2, -2)] from [u = y = (1, 0)]. *)
Lemma power_step_witness :
  1 <= 2 /\ shaped 2 2 diag2 /\ shaped 2 1 e0_2 /\
  exists lambda u' y',
    PowerIterationMethod1Iteration diag2 e0_2 e0_2 = Ok (lambda, u', y') /\
    PowerIterationMethod2Iteration diag2 diag2 e0_2 e0_2 = Ok (lambda, u', y').
Proof.
  split; [lia|]. split; [exact diag2_shaped|]. split; [exact e0_2_shaped|].
  destruct (power_step 2 diag2 diag2 e0_2 e0_2)
    as (E2 & p & lambda & u' & y' & p' & _ & E1 & _);
    [lia|exact diag2_shaped|exact e0_2_shaped|exact e0_2_shaped|].
  exists lambda, u', y'. split; [exact E1|]. rewrite E2. exact E1.
Defined.

(** Method 3 on [diag(2, -2)]. *)
Lemma method3_result_witness :
  MinimalSquareProblem_shape (EX := externals) /\ 1 <= 2 /\ shaped 2 2 diag2 /\
  exists r1 r2 v1 v2 iter,
    PowerMethodEigenvalues3 diag2 (Some 0) 100
    = Ok ((if rgt (cnorm (EuclideanNormC v1)) (cnorm GetEps) then [(r1, v1)] else [])
          ++ (if rgt (cnorm (EuclideanNormC v2)) (cnorm GetEps) then [(r2, v2)] else []),
          reported (Some 0) iter 100 false).
Proof.
  split; [exact least_squares2_shape|]. split; [lia|]. split; [exact diag2_shaped|].
  destruct (method3_vectors_and_result 2 diag2 (Some 0) 100 least_squares2_shape)
    as (sq & ca & ca2 & y0 & u0 & r1 & r2 & u & iter & u1 & u2 & v1 & v2 &
        _ & _ & _ & _ & _ & _ & _ & _ & _ & E); [lia|exact diag2_shaped|].
  exists r1, r2, v1, v2, iter. exact E.
Defined.

(** The dispatcher on [diag(2, -2)] with [force_method = 0]. *)
Lemma dispatcher_returns_witness :
  MinimalSquareProblem_shape (EX := externals) /\ 1 <= 2 /\ shaped 2 2 diag2 /\
  exists ans v,
    PowerMethodEigenvalues diag2 (Some 7) 100 10 5 0 = (Ok ans, Some v) /\
    length ans = 1%nat /\ (v = -1 \/ 1 <= v <= 2 * 100).
Proof.
  split; [exact least_squares2_shape|]. split; [lia|]. split; [exact diag2_shaped|].
  destruct (dispatcher_always_returns 2 diag2 (Some 7) 100 10 5 0 least_squares2_shape)
    as (ans & v & E & _ & Hv & _ & H1); [lia|exact diag2_shaped|].
  exists ans, v. split; [exact E|]. split; [apply H1; reflexivity|exact Hv].
Defined.

(** The dispatcher on [diag(2, -2)] with [force_method = 7]. *)
Lemma dispatcher_forced_witness :
  1 <= 2 /\ shaped 2 2 diag2 /\
  PowerMethodEigenvalues diag2 (Some 7) 100 0 0 7
  = PowerMethodEigenvalues diag2 (Some 7) 100 10 5 (-1).
Proof.
  split; [lia|]. split; [exact diag2_shaped|].
  destruct (dispatcher_forced_method 2 diag2 (Some 7) 100 10 5)
    as (e0 & _ & _ & _ & _ & _ & _ & _ & Hother); [lia|exact diag2_shaped|].
  apply Hother; lia.
Defined.


Lemma int12_shaped : shaped 1 2 int12.
Proof. split; [|split; reflexivity]. unfold wf, wf_geom. cbn. lia. Qed.

(** The text of the [int] matrix [(1 -2)]. *)
Lemma ToWolframString_witness :
  shaped 1 2 int12 /\
  (exists x : Z -> Z -> Z, ToWolframString int12 = Ok (wolfram_text 1 2 x)) /\
  ToWolframString int12 = Ok ("{{1,-2}}" +:+ newline).
Proof.
  split; [exact int12_shaped|]. split; [|vm_compute; reflexivity].
  destruct (ToWolframString_spec 1 2 int12 int12_shaped) as (x & _ & E).
  exists x. exact E.
Defined.

(** Doubling the second row of the matrix of [store1] through a view. *)
Lemma scalar_assign_view_witness :
  View.wf store1 A22 /\
  exists σ',
    ViewOps.scalar_assign (fun x => smul x 2%float) store1 (SubMatrix A22 1 0 1 2) = Ok σ' /\
    View.cell σ' A22 0 1 = View.cell store1 A22 0 1 /\
    View.cell σ' A22 1 1 = (fun x => smul x 2%float) <$> View.cell store1 A22 1 1.
Proof.
  split; [exact handle_wf_store1|].
  destruct (scalar_assign_through_view store1 A22 1 0 1 2 (fun x => smul x 2%float)
              handle_wf_store1) as (σ' & E & _ & Hc & _); [cbn; lia..|].
  exists σ'. split; [exact E|].
  split; [apply (Hc 0 1); cbn; lia|apply (Hc 1 1); cbn; lia].
Defined.

(** [A.Row(0) += A.Row(1)] on the matrix of [store1]: two views of one
    array without a common cell. *)
Lemma plus_assign_rows_witness :
  View.wf store1 (Row A22 0) /\ View.wf store1 (Row A22 1) /\
  reads_own_cells (Row A22 0) (Row A22 1) /\
  exists σ', ViewOps.plus_assign store1 (Row A22 0) (Row A22 1) = Ok σ' /\
    exists y x, View.cell store1 A22 0 1 = Some y /\ View.cell store1 A22 1 1 = Some x /\
                View.cell σ' A22 0 1 = Some (sadd y x).
Proof.
  assert (Hw0 : View.wf store1 (Row A22 0)).
  { exists [1; 2; 3; 4]%float. split; [reflexivity|]. unfold wf_geom. cbn. lia. }
  assert (Hw1 : View.wf store1 (Row A22 1)).
  { exists [1; 2; 3; 4]%float. split; [reflexivity|]. unfold wf_geom. cbn. lia. }
  assert (Hsep : reads_own_cells (Row A22 0) (Row A22 1)).
  { intros _ i j i' j'. unfold position. cbn. lia. }
  split; [exact Hw0|]. split; [exact Hw1|]. split; [exact Hsep|].
  destruct (plus_assign_on_shared_arrays store1 (Row A22 0) (Row A22 1) 1 2 Hw0 Hw1
              eq_refl eq_refl eq_refl eq_refl) as (Hmain & _).
  destruct (Hmain Hsep) as ((σ' & E & _ & _ & Hc & _) & _).
  exists σ'. split; [exact E|]. apply (Hc 0 1); lia.
Defined.

Lemma empty00_wf : wf empty00.
Proof. unfold wf, wf_geom. cbn. lia. Qed.

Lemma empty01_shaped : shaped 0 1 empty01.
Proof. split; [|split; reflexivity]. unfold wf, wf_geom. cbn. lia. Qed.

(** Method 3 on the 0 x 0 matrix. *)
Lemma solvers_on_empty_witness :
  wf empty00 /\ rows_ empty00 = 0 /\ cols_ empty00 = 0 /\ shaped 0 1 empty01 /\
  PowerMethodEigenvalues3 empty00 (Some 7) 100
  = Throw (out_of_range "Indexes (0; 0) out of matrix size (0; 1)").
Proof.
  split; [exact empty00_wf|]. split; [reflexivity|]. split; [reflexivity|].
  split; [exact empty01_shaped|].
  exact (proj1 (proj2 (proj2 (solvers_on_empty_matrix empty00 empty01 (Some 7) 100 epsilon
                                empty00_wf eq_refl eq_refl empty01_shaped)))).
Defined.

(** [diag(2, -2)] as a complex matrix. *)
Lemma ToComplex_witness :
  shaped 2 2 diag2 /\
  exists m, ToComplex (C := complex) diag2 = Ok m /\ owning m /\
    exists x, cell diag2 1 1 = Some x /\ cell m 1 1 = Some (mkC x 0%float).
Proof.
  split; [exact diag2_shaped|].
  destruct (ToComplex_spec (C := complex) 2 2 diag2 diag2_shaped) as (m & E & _ & Hown & Hc).
  exists m. split; [exact E|]. split; [exact Hown|]. apply (Hc 1 1); lia.
Defined.
End MoreExamples.
